(** * FL (filtering library): sigma-point transform, multi-sensor update,
      Gaussian log-density, transition-density interface and discrete
      distribution

    A shallow embedding of

    - [fl/filter/gaussian/transform/unscented_transform.hpp]
      (class [UnscentedTransform]),
    - [fl/filter/gaussian/update_policy/multi_sensor_sigma_point_update_polizzle.hpp]
      (class [MultiSensorSigmaPointUpdatePolizzle]),
    - [fast_filtering/distributions/gaussian.hpp] (class [ff::Gaussian]),
    - [fl/model/process/interface/state_transition_density.hpp]
      (class [StateTransitionDensity]),
    - [fl/distribution/discrete_distribution.hpp]
      (class [DiscreteDistribution]),

    the properties of these that the specification states, and further
    properties of their edge cases, invariants and compositions.

    Conventions.  C++ [int] values are modelled in [Z]; signed overflow is
    undefined behaviour in C++, so the model describes the executions
    without it.  The scalar type ([fl::Real], [Vector::Scalar],
    [FloatingPoint]) is a parameter of the code, as it is a typedef or a
    template parameter in the sources: the class [Scalar] lists the
    operations the sources use, and every property that does not need
    arithmetic is proved for every instance of it.  The instance on
    [XReal] interprets the scalars by the extended reals: exact arithmetic
    on finite values, the IEEE rules for NaN and the infinities, no
    rounding, one unsigned zero.  [assert] is modelled with the build flag
    [NDEBUG]. *)

From Stdlib Require Import ZArith Reals Lra Lia.
From stdpp Require Import base list.

Local Open Scope Z_scope.

(* ===================================================================== *)
(** * Scalars *)
(* ===================================================================== *)

(** The scalar operations used by the sources.  [of_int] is the conversion
    [Real(int)], also used for the integral literals [1], [1.], [2.],
    [2.0] and [1.0]. *)
Class Scalar (Real : Type) := {
  of_int : Z -> Real;
  lit_0_5 : Real;                       (* the literal 0.5 *)
  M_PI : Real;
  fadd : Real -> Real -> Real;
  fsub : Real -> Real -> Real;
  fmul : Real -> Real -> Real;
  fdiv : Real -> Real -> Real;
  fneg : Real -> Real;                  (* unary minus *)
  std_sqrt : Real -> Real;
  std_fabs : Real -> Real;
  std_log : Real -> Real;
  std_exp : Real -> Real;
  infinity : Real;                      (* std::numeric_limits<Scalar>::infinity() *)
  std_isfinite : Real -> bool
}.

Declare Scope fl_scope.
Delimit Scope fl_scope with fl.
Infix "+" := fadd : fl_scope.
Infix "-" := fsub : fl_scope.
Infix "*" := fmul : fl_scope.
Infix "/" := fdiv : fl_scope.
Notation "- x" := (fneg x) : fl_scope.

(** ** Extended reals: the exact interpretation of the scalars *)

Inductive XReal : Type :=
| Fin (r : R)
| PInf
| NInf
| NaN.

Module XR.

Definition sign_inf (positive : bool) : XReal := if positive then PInf else NInf.

Definition add (x y : XReal) : XReal :=
    match x, y with
    | Fin a, Fin b => Fin (a + b)
    | NaN, _ | _, NaN => NaN
    | PInf, NInf | NInf, PInf => NaN
    | PInf, _ | _, PInf => PInf
    | NInf, _ | _, NInf => NInf
    end.

Definition neg (x : XReal) : XReal :=
    match x with
    | Fin a => Fin (- a)
    | PInf => NInf
    | NInf => PInf
    | NaN => NaN
    end.

Definition sub (x y : XReal) : XReal :=
    match x, y with
    | Fin a, Fin b => Fin (a - b)
    | _, _ => add x (neg y)
    end.

  (** [inf * a] for a finite [a]: NaN at zero, otherwise signed. *)
Definition inf_times (positive : bool) (a : R) : XReal :=
    if Req_dec_T a 0 then NaN
    else if Rlt_dec 0 a then sign_inf positive else sign_inf (negb positive).

Definition mul (x y : XReal) : XReal :=
    match x, y with
    | Fin a, Fin b => Fin (a * b)
    | NaN, _ | _, NaN => NaN
    | PInf, Fin a | Fin a, PInf => inf_times true a
    | NInf, Fin a | Fin a, NInf => inf_times false a
    | PInf, PInf | NInf, NInf => PInf
    | PInf, NInf | NInf, PInf => NInf
    end.

Definition div (x y : XReal) : XReal :=
    match x, y with
    | Fin a, Fin b =>
        if Req_dec_T b 0 then inf_times true a   (* a / 0 : inf, -inf or NaN *)
        else Fin (a / b)
    | NaN, _ | _, NaN => NaN
    | Fin _, (PInf | NInf) => Fin 0
    | PInf, Fin b => if Rlt_dec b 0 then NInf else PInf
    | NInf, Fin b => if Rlt_dec b 0 then PInf else NInf
    | (PInf | NInf), (PInf | NInf) => NaN
    end.

Definition sqrt (x : XReal) : XReal :=
    match x with
    | Fin a => if Rlt_dec a 0 then NaN else Fin (R_sqrt.sqrt a)
    | PInf => PInf
    | NInf | NaN => NaN
    end.

Definition fabs (x : XReal) : XReal :=
    match x with
    | Fin a => Fin (Rabs a)
    | PInf | NInf => PInf
    | NaN => NaN
    end.

Definition log (x : XReal) : XReal :=
    match x with
    | Fin a => if Rlt_dec a 0 then NaN
               else if Req_dec_T a 0 then NInf else Fin (ln a)
    | PInf => PInf
    | NInf | NaN => NaN
    end.

Definition exp (x : XReal) : XReal :=
    match x with
    | Fin a => Fin (Rtrigo_def.exp a)
    | PInf => PInf
    | NInf => Fin 0
    | NaN => NaN
    end.

Definition isfinite (x : XReal) : bool :=
    match x with Fin _ => true | _ => false end.

End XR.

#[export] Instance XReal_Scalar : Scalar XReal := {|
  of_int z := Fin (IZR z);
  lit_0_5 := Fin (/ 2);
  M_PI := Fin PI;
  fadd := XR.add;
  fsub := XR.sub;
  fmul := XR.mul;
  fdiv := XR.div;
  fneg := XR.neg;
  std_sqrt := XR.sqrt;
  std_fabs := XR.fabs;
  std_log := XR.log;
  std_exp := XR.exp;
  infinity := PInf;
  std_isfinite := XR.isfinite
|}.

(* ===================================================================== *)
(** * Outcomes of a call *)
(* ===================================================================== *)

Inductive exception : Type :=
| WrongSizeException
| ResizingFixedSizeEntityException.

(** A call returns, throws, stops at a failed [assert], or has no defined
    behaviour (integer division by zero). *)
Inductive outcome (A : Type) : Type :=
| Returned (a : A)
| Thrown (e : exception)
| AssertionFailed
| UndefinedBehaviour.

Arguments Returned {A} a.
Arguments Thrown {A} e.
Arguments AssertionFailed {A}.
Arguments UndefinedBehaviour {A}.

Definition outcome_map {A B : Type} (f : A -> B) (o : outcome A) : outcome B :=
  match o with
  | Returned a => Returned (f a)
  | Thrown e => Thrown e
  | AssertionFailed => AssertionFailed
  | UndefinedBehaviour => UndefinedBehaviour
  end.

(** [Eigen::Dynamic] *)
Definition Dynamic : Z := -1.

(** Modelled from the spec: [IsFixed] of [fl/util/meta.hpp], which is not
    among the sources.  The spec's point set has a count that is "fixed or
    dynamic"; a size is fixed when it is not [Eigen::Dynamic]. *)
Definition IsFixed (size : Z) : bool := negb (size =? Dynamic).

(* ===================================================================== *)
(** * Vectors and matrices of coefficients *)
(* ===================================================================== *)

(** A vector is the list of its coefficients; a matrix is the list of its
    columns.  Only coefficient-wise operations are defined here. *)
Section Coefficients.
Context {Real : Type} `{Scalar Real}.

Definition vzero (n : nat) : list Real := replicate n (of_int 0).
Definition vadd (u v : list Real) : list Real := zip_with fadd u v.
Definition vsub (u v : list Real) : list Real := zip_with fsub u v.
(** [s * v] *)
Definition vscale (s : Real) (v : list Real) : list Real := fmul s <$> v.

Definition mzero (rows cols : nat) : list (list Real) := replicate cols (vzero rows).
Definition madd (a b : list (list Real)) : list (list Real) := zip_with vadd a b.
(** [s * M] *)
Definition mscale (s : Real) (m : list (list Real)) : list (list Real) := vscale s <$> m.
(** [M * s] *)
Definition mscale_r (m : list (list Real)) (s : Real) : list (list Real) :=
  (fun c : list Real => (fun x => fmul x s) <$> c) <$> m.
(** [M.col(j)]; the sources only take columns that exist. *)
Definition col (m : list (list Real)) (j : Z) : list Real :=
  if j <? 0 then [] else default [] (m !! Z.to_nat j).
(** [u * v.transpose()], column [c] being [u * v(c)] *)
Definition outer (u v : list Real) : list (list Real) :=
  (fun y => (fun x => fmul x y) <$> u) <$> v.
End Coefficients.

(* ===================================================================== *)
(** * Point sets *)
(* ===================================================================== *)

(** [fl/filter/gaussian/transform/point_set.hpp] is not among the sources.
  The container is modelled from the spec's data model: an ordered
  sequence of points, each with a mean weight and a covariance weight,
  of fixed or dynamic count. *)

Record Weight (Real : Type) : Type := mkWeight { w_mean : Real; w_cov : Real }.
Arguments mkWeight {Real} w_mean w_cov.
Arguments w_mean {Real} w.
Arguments w_cov {Real} w.

(** The storage of a point set, with the log of the indices that
  [point(i, p, w)] has been called with (oldest first).  The log is
  a specification device: it records the writes, no code reads it. *)
Record PointSet (Real : Type) : Type := mkPointSet {
  points : list (list Real * Weight Real);
  written : list Z
}.
Arguments mkPointSet {Real} points written.
Arguments points {Real} p.
Arguments written {Real} p.

(** Computations on a point set passed by reference: the state survives
  an exception. *)
Definition M (Real A : Type) : Type := PointSet Real -> outcome A * PointSet Real.

Section PointSetMonad.
Context {Real : Type}.

Definition ret {A} (a : A) : M Real A := fun ps => (Returned a, ps).

Definition bind {A B} (m : M Real A) (k : A -> M Real B) : M Real B :=
  fun ps =>
    match m ps with
    | (Returned a, ps') => k a ps'
    | (Thrown e, ps') => (Thrown e, ps')
    | (AssertionFailed, ps') => (AssertionFailed, ps')
    | (UndefinedBehaviour, ps') => (UndefinedBehaviour, ps')
    end.

Definition fl_throw {A} (e : exception) : M Real A := fun ps => (Thrown e, ps).

(** [assert(b)]; it is compiled out when [NDEBUG] is defined. *)
Definition assert (NDEBUG : bool) (b : bool) : M Real unit :=
  fun ps => if NDEBUG || b then (Returned tt, ps) else (AssertionFailed, ps).

Fixpoint for_each (l : list Z) (body : Z -> M Real unit) : M Real unit :=
  match l with
  | [] => ret tt
  | i :: l' => bind (body i) (fun _ => for_each l' body)
  end.

(** [for (int i = lo; i < hi; ++i) body] *)
Definition for_loop (lo hi : Z) (body : Z -> M Real unit) : M Real unit :=
  for_each (seqZ lo (hi - lo)) body.
End PointSetMonad.

Notation "m1 ;; m2" := (bind m1 (fun _ => m2))
  (at level 100, m2 at level 200, right associativity).

Section PointSetContainer.
Context {Real : Type} `{Scalar Real}.

(** Modelled from the spec: [PointSet::resize].  A point set that has
    the requested count is left alone; one of fixed count cannot be
    resized; a dynamic one gets fresh storage of the requested count.
    The spec leaves the fresh contents open: the model clears them. *)
Definition resize (NumberOfPoints : Z) (point_count : Z) : M Real unit :=
  fun ps =>
    if Z.of_nat (length (points ps)) =? point_count then (Returned tt, ps)
    else if IsFixed NumberOfPoints then (Thrown ResizingFixedSizeEntityException, ps)
    else (Returned tt,
          mkPointSet (replicate (Z.to_nat point_count) ([], mkWeight (of_int 0) (of_int 0)))
                     (written ps)).

(** Modelled from the spec: [PointSet::point(i, p, w)] stores point and
    weight at index [i].  The spec does not say what an index outside
    the storage does; the model takes the container's bounds check to
    stop the call without writing. *)
Definition point (i : Z) (p : list Real) (w : Weight Real) : M Real unit :=
  fun ps =>
    if (0 <=? i) && (i <? Z.of_nat (length (points ps))) then
      (Returned tt, mkPointSet (<[Z.to_nat i := (p, w)]> (points ps)) (written ps ++ [i]))
    else (AssertionFailed, ps).

(** The dimension of the points of the set: that of its first point. *)
Definition dimension_of (ps : PointSet Real) : nat :=
  match points ps with
  | [] => 0%nat
  | (p, _) :: _ => length p
  end.

(** Modelled from the spec (4.3): "[mean()] of a point set = weighted sum
    using mean-weights". *)
Definition PointSet_mean (ps : PointSet Real) : list Real :=
  foldl (fun acc e => vadd acc (vscale (w_mean e.2) e.1)) (vzero (dimension_of ps)) (points ps).

(** Modelled from the spec (4.3): "[centered_points()] = each point minus
    the mean". *)
Definition centered_points (ps : PointSet Real) : list (list Real) :=
  (fun e => vsub e.1 (PointSet_mean ps)) <$> points ps.

(** Modelled from the spec (4.3): "[covariance_weights_vector()] =
    diagonal weighting for the outer-product covariance estimator". *)
Definition covariance_weights_vector (ps : PointSet Real) : list Real :=
  (fun e => w_cov e.2) <$> points ps.

(** Sum of the mean weights. *)
Definition mean_weight_sum (ps : PointSet Real) : Real :=
  foldl (fun acc e => fadd acc (w_mean e.2)) (of_int 0) (points ps).

(** Modelled from the spec (4.3): "the outer-product covariance estimator
    [Σ w_cov_i · (p_i − mean)(p_i − mean)^T]", over the centered points
    and the covariance weights. *)
Definition covariance_estimate (ps : PointSet Real) : list (list Real) :=
  foldl (fun acc xw => madd acc (mscale xw.2 (outer xw.1 xw.1)))
        (mzero (dimension_of ps) (dimension_of ps))
        (zip (centered_points ps) (covariance_weights_vector ps)).
End PointSetContainer.

(* ===================================================================== *)
(** * unscented_transform.hpp *)
(* ===================================================================== *)

(** What [forward] reads of its [Gaussian_] argument. *)
Record Gaussian_ (Real : Type) : Type := mkGaussian_ {
  dimension : Z;
  mean : list Real;
  square_root : list (list Real)
}.
Arguments mkGaussian_ {Real} dimension mean square_root.
Arguments dimension {Real} g.
Arguments mean {Real} g.
Arguments square_root {Real} g.

Module UnscentedTransform.
Section UnscentedTransform.
Context {Real : Type} `{Scalar Real}.
(** Whether the build defines [NDEBUG]. *)
Variable NDEBUG : bool.
(** The members [alpha_], [beta_], [kappa_]. *)
Variables alpha_ beta_ kappa_ : Real.

Local Open Scope fl_scope.

Definition lambda_scalar (dim : Real) : Real :=
  alpha_ * alpha_ * (dim + kappa_) - dim.

Definition weight_mean_0 (dim : Real) : Real :=
  lambda_scalar dim / (dim + lambda_scalar dim).

Definition weight_cov_0 (dim : Real) : Real :=
  weight_mean_0 dim + (of_int 1 - alpha_ * alpha_ + beta_).

Definition weight_mean_i (dim : Real) : Real :=
  of_int 1 / (of_int 2 * (dim + lambda_scalar dim)).

Definition weight_cov_i (dim : Real) : Real := weight_mean_i dim.

Definition gamma_factor (dim : Real) : Real :=
  std_sqrt (dim + lambda_scalar dim).

Local Close Scope fl_scope.

Definition number_of_points (dimension : Z) : Z :=
  if negb (dimension =? Dynamic) then 2 * dimension + 1 else Dynamic.

(** [forward(gaussian, global_dimension, dimension_offset, point_set)];
    [NumberOfPoints] is [Traits<PointSet_>::NumberOfPoints].  The source
    passes [dim], the [Real] made from [global_dimension], to
    [number_of_points(int)]; the conversion there and back is the
    identity (exact for [double]), so the model passes
    [global_dimension]. *)
Definition forward (NumberOfPoints : Z) (gaussian : Gaussian_ Real)
    (global_dimension dimension_offset : Z) : M Real unit :=
  let dim := of_int global_dimension in
  let point_count := number_of_points global_dimension in
  assert NDEBUG (0 <? point_count) ;;
  (if IsFixed NumberOfPoints && negb (NumberOfPoints =? point_count)
   then fl_throw WrongSizeException else ret tt) ;;
  resize NumberOfPoints point_count ;;
  let covariance_sqrt := mscale_r (square_root gaussian) (gamma_factor dim) in
  let mean := mean gaussian in
  point 0 mean (mkWeight (weight_mean_0 dim) (weight_cov_0 dim)) ;;
  let weight_i := mkWeight (weight_mean_i dim) (weight_cov_i dim) in
  let start_1 := 1 in
  let limit_1 := start_1 + dimension_offset in
  let limit_2 := limit_1 + dimension gaussian in
  let limit_3 := global_dimension in
  for_loop start_1 limit_1 (fun i =>
    point i mean weight_i ;;
    point (global_dimension + i) mean weight_i) ;;
  for_loop limit_1 limit_2 (fun i =>
    let point_shift := col covariance_sqrt (i - dimension_offset - 1) in
    point i (vadd mean point_shift) weight_i ;;
    point (global_dimension + i) (vsub mean point_shift) weight_i) ;;
  for_loop limit_2 (limit_3 + 1) (fun i =>
    point i mean weight_i ;;
    point (global_dimension + i) mean weight_i).

(** [forward(gaussian, point_set)] and [operator()(gaussian, point_set)] *)
Definition forward_2 (NumberOfPoints : Z) (gaussian : Gaussian_ Real) : M Real unit :=
  forward NumberOfPoints gaussian (dimension gaussian) 0.
End UnscentedTransform.

(** The arguments of the constructor
    [UnscentedTransform(Real alpha = 1.0, Real beta = 2., Real kappa = 0.)]
    that stand for the ones a caller leaves out; the constructor stores its
    arguments in [alpha_], [beta_] and [kappa_]. *)
Section Defaults.
Context {Real : Type} `{Scalar Real}.
Definition default_alpha : Real := of_int 1.
Definition default_beta : Real := of_int 2.
Definition default_kappa : Real := of_int 0.
End Defaults.
End UnscentedTransform.

(* ===================================================================== *)
(** * Interfaces of the collaborators *)
(* ===================================================================== *)

(** Eigen's dense matrices and vectors ([Mat]; a vector is a one-column
    matrix), as far as the update policy and [ff::Gaussian] use them.
    Eigen is an external library: its kernels are parameters of the code. *)
Class EigenOps (Real Mat : Type) := {
  size : Mat -> Z;                          (* m.size() *)
  rows : Mat -> Z;                          (* m.rows() *)
  coeff : Mat -> Z -> Real;                 (* v(k) *)
  set_coeff : Mat -> Z -> Real -> Mat;      (* v(k) = x *)
  Zero : Z -> Mat;                          (* Vector::Zero(n), v.setZero(n) *)
  Identity : Z -> Z -> Mat;                 (* Operator::Identity(r, c) *)
  transpose : Mat -> Mat;
  asDiagonal : Mat -> Mat;
  inverse : Mat -> Mat;
  determinant : Mat -> Real;
  plus : Mat -> Mat -> Mat;
  minus : Mat -> Mat -> Mat;
  times : Mat -> Mat -> Mat;
  scaled : Real -> Mat -> Mat;              (* s * m *)
  middleRows : Mat -> Z -> Z -> Mat;        (* m.middleRows(start, n) *)
  to_scalar : Mat -> Real;                  (* a 1 x 1 product read as a scalar *)
  ldlt_matrixL : Mat -> Mat;                (* LDLT of the argument: matrixL() *)
  ldlt_vectorD : Mat -> Mat;                (* vectorD() *)
  ldlt_transpositionsP : Mat -> Mat;        (* transpositionsP() *)
  qr_rank : Mat -> Z                        (* colPivHouseholderQr().rank() *)
}.

Declare Scope mat_scope.
Delimit Scope mat_scope with mat.
Infix "+" := plus : mat_scope.
Infix "-" := minus : mat_scope.
Infix "*" := times : mat_scope.
Infix ".*" := scaled (at level 40, left associativity) : mat_scope.

(** The joint observation model of the update policy
    ([JointObservationModel<MultipleOf<LocalFeatureModel>>]), its feature
    model and the embedded body/tail model: one object graph reached by
    reference from [obsrv_function].  Modelled from the spec: the update
    "borrows it read-only except for mutating a current sensor id selector
    used to route per-sensor computation"; so the model is a value of type
    [Model] together with the selected sensor id, and [feature_model.id(i)]
    sets that id.  The operations read the model and the selected id. *)
Class JointModelOps (Real Mat Model : Type) := {
  count_local_models : Model -> Z;
  body_observation : Model -> Z -> Mat -> Mat -> Mat; (* body_tail_model.body_model().observation(x, w) *)
  tail_observation : Model -> Z -> Mat -> Mat -> Mat; (* body_tail_model.tail_model().observation(x, w) *)
  feature_obsrv : Model -> Z -> Mat -> Mat;           (* feature_model.feature_obsrv(obsrv) *)
  tail_weight : Model -> Z -> Real                    (* body_tail_model.tail_weight() *)
}.

(** The quadrature ([SigmaPointQuadrature], a template parameter), the
    point sets it fills ([PS]) and what the update reads of them.
    [transform_to_points prior] stands for
    [quadrature.transform_to_points(prior_belief, noise_distr, p_X, p_Q)]
    with the default-constructed [noise_distr]. *)
Class QuadratureOps (Mat Belief PS : Type) := {
  transform_to_points : Belief -> PS * PS;
  propagate_points : (Mat -> Mat -> Mat) -> PS -> PS -> PS;
  ps_mean : PS -> Mat;                           (* p.mean() *)
  ps_centered_points : PS -> Mat;                (* p.centered_points() *)
  ps_covariance_weights_vector : PS -> Mat       (* p.covariance_weights_vector() *)
}.

(** Modelled from the spec: the [Belief] the update reads and writes
    ("{mean, covariance}" with "settable mean(v), covariance(M),
    dimension(n)"); its class is not among the sources. *)
Record Belief (Mat : Type) : Type := mkBelief {
  belief_dimension : Z;
  belief_mean : Mat;
  belief_covariance : Mat
}.
Arguments mkBelief {Mat} belief_dimension belief_mean belief_covariance.
Arguments belief_dimension {Mat} b.
Arguments belief_mean {Mat} b.
Arguments belief_covariance {Mat} b.

Definition set_dimension {Mat} (n : Z) (b : Belief Mat) : Belief Mat :=
  mkBelief n (belief_mean b) (belief_covariance b).
Definition set_covariance {Mat} (m : Mat) (b : Belief Mat) : Belief Mat :=
  mkBelief (belief_dimension b) (belief_mean b) m.
Definition set_mean {Mat} (v : Mat) (b : Belief Mat) : Belief Mat :=
  mkBelief (belief_dimension b) v (belief_covariance b).

(* ===================================================================== *)
(** * multi_sensor_sigma_point_update_polizzle.hpp *)
(* ===================================================================== *)

(** The variables the sensor loop updates: the accumulators [C] and [D]
    and the sensor id selected on the model. *)
Record LoopState (Mat : Type) : Type := mkLoopState {
  acc_C : Mat;
  acc_D : Mat;
  selected_id : Z
}.
Arguments mkLoopState {Mat} acc_C acc_D selected_id.
Arguments acc_C {Mat} l.
Arguments acc_D {Mat} l.
Arguments selected_id {Mat} l.

(** The three results of the block between the comments [fuse] and the
    computation of [c_yx]. *)
Record Fused (Mat : Type) : Type := mkFused {
  fused_mu_y : Mat;
  fused_c_yy : Mat;
  fused_c_xy : Mat
}.
Arguments mkFused {Mat} fused_mu_y fused_c_yy fused_c_xy.
Arguments fused_mu_y {Mat} f.
Arguments fused_c_yy {Mat} f.
Arguments fused_c_xy {Mat} f.

Module MultiSensorSigmaPointUpdatePolizzle.
Section Update.
Context {Real Mat Model PS : Type}.
Context `{Scalar Real} `{EigenOps Real Mat} `{JointModelOps Real Mat Model}
        `{QuadratureOps Mat (Belief Mat) PS}.
(** [solve] of the FL utilities (not among the sources); the spec:
    "a linear-system solve (M⁻¹X)". *)
Variable solve : Mat -> Mat -> Mat.
(** Whether the build defines [NDEBUG]. *)
Variable NDEBUG : bool.

Local Open Scope mat_scope.

Definition is_valid (vector : Mat) (start end_ : Z) : bool :=
  forallb (fun k => std_isfinite (coeff vector k)) (seqZ start (end_ - start)).

(** The block of [operator()] that its comments mark [fuse], [non
    centered moments] and [center]. *)
Definition fuse (t : Real) (mu_y_body c_yy_body c_xy_body mu_y_tail c_yy_tail c_xy_tail : Mat)
    : Fused Mat :=
  let b := (of_int 1 - t)%fl in
  let mu_y := b .* mu_y_body + t .* mu_y_tail in
  let m_yy_body := c_yy_body + mu_y_body * transpose mu_y_body in
  let m_yy_tail := c_yy_tail + mu_y_tail * transpose mu_y_tail in
  let m_yy := b .* m_yy_body + t .* m_yy_tail in
  let c_yy := m_yy - mu_y * transpose mu_y in
  let c_xy := b .* c_xy_body + t .* c_xy_tail in
  mkFused mu_y c_yy c_xy.

(** The lambdas [h_body] and [h_tail] of [operator()], with sensor [i]
    selected on the model. *)
Definition h_body (model : Model) (i : Z) : Mat -> Mat -> Mat :=
  fun x w => feature_obsrv model i (body_observation model i x w).
Definition h_tail (model : Model) (i : Z) : Mat -> Mat -> Mat :=
  fun x w => feature_obsrv model i (tail_observation model i x w).

(** One iteration of the sensor loop, for sensor [i]. *)
Definition sensor_iteration (model : Model) (y : Mat) (dim_y : Z) (p_X p_Q : PS)
    (X W c_xx_inv : Mat) (i : Z) (st : LoopState Mat) : LoopState Mat :=
  if negb (is_valid y (i * dim_y) (i * dim_y + dim_y)) then st      (* continue *)
  else
    let id := i in                                                  (* feature_model.id(i) *)
    let p_Y_body := propagate_points (h_body model id) p_X p_Q in
    let mu_y_body := ps_mean p_Y_body in
    if negb (is_valid mu_y_body 0 dim_y)
    then mkLoopState (acc_C st) (acc_D st) id                       (* continue *)
    else
      let Y_body := ps_centered_points p_Y_body in
      let c_yy_body := Y_body * W * transpose Y_body in
      let c_xy_body := X * W * transpose Y_body in
      let p_Y_tail := propagate_points (h_tail model id) p_X p_Q in
      let mu_y_tail := ps_mean p_Y_tail in
      let Y_tail := ps_centered_points p_Y_tail in
      let c_yy_tail := Y_tail * W * transpose Y_tail in
      let c_xy_tail := X * W * transpose Y_tail in
      let f := fuse (tail_weight model id)
                    mu_y_body c_yy_body c_xy_body mu_y_tail c_yy_tail c_xy_tail in
      let c_yx := transpose (fused_c_xy f) in
      let A_i := c_yx * c_xx_inv in
      let c_yy_given_x := fused_c_yy f - c_yx * c_xx_inv * fused_c_xy f in
      let innovation := middleRows y (i * dim_y) dim_y - fused_mu_y f in
      mkLoopState (acc_C st + transpose A_i * solve c_yy_given_x A_i)
                  (acc_D st + transpose A_i * solve c_yy_given_x innovation)
                  id.

(** [operator()] with its sensor loop run over the indices [sensors];
    [id0] is the sensor id selected on the model at the call.  The results
    are the posterior belief and the id selected at the end. *)
Definition update_over (sensors : list Z) (obsrv_function : Model) (id0 : Z)
    (prior_belief : Belief Mat) (y : Mat) (posterior_belief : Belief Mat)
    : outcome (Belief Mat * Z) :=
  let '(p_X, p_Q) := transform_to_points prior_belief in
  let mu_x := ps_mean p_X in
  let X := ps_centered_points p_X in
  let W := asDiagonal (ps_covariance_weights_vector p_X) in
  let c_xx := X * W * transpose X in
  let c_xx_inv := inverse c_xx in
  let C := c_xx_inv in
  let D := Zero (size mu_x) in
  let sensor_count := count_local_models obsrv_function in
  if sensor_count =? 0 then UndefinedBehaviour             (* y.size() / 0 *)
  else
    let dim_y := Z.quot (size y) sensor_count in
    if negb NDEBUG && negb (Z.rem (size y) sensor_count =? 0) then AssertionFailed
    else
      let st := foldl (fun st i =>
                         sensor_iteration obsrv_function y dim_y p_X p_Q X W c_xx_inv i st)
                      (mkLoopState C D id0) sensors in
      let posterior_belief := set_dimension (belief_dimension prior_belief) posterior_belief in
      let posterior_belief := set_covariance (inverse (acc_C st)) posterior_belief in
      let posterior_belief :=
        set_mean (mu_x + belief_covariance posterior_belief * acc_D st) posterior_belief in
      Returned (posterior_belief, selected_id st).

(** [operator()]: the loop is [for (int i = 0; i < sensor_count; ++i)]. *)
Definition update (obsrv_function : Model) (id0 : Z) (prior_belief : Belief Mat) (y : Mat)
    (posterior_belief : Belief Mat) : outcome (Belief Mat * Z) :=
  update_over (seqZ 0 (count_local_models obsrv_function))
              obsrv_function id0 prior_belief y posterior_belief.
End Update.
End MultiSensorSigmaPointUpdatePolizzle.

(* ===================================================================== *)
(** * fast_filtering/distributions/gaussian.hpp *)
(* ===================================================================== *)

(** The members of [ff::Gaussian<Vector>]; [noise_dimension] is the
    dimension held by the base [GaussianMap] ([NoiseDimension()]). *)
Record Gaussian (Real Mat : Type) : Type := mkGaussian {
  noise_dimension : Z;
  mean_ : Mat;
  covariance_ : Mat;
  full_rank_ : bool;
  precision_ : Mat;
  cholesky_factor_ : Mat;
  log_normalizer_ : Real
}.
Arguments mkGaussian {Real Mat}.
Arguments noise_dimension {Real Mat} g.
Arguments mean_ {Real Mat} g.
Arguments covariance_ {Real Mat} g.
Arguments full_rank_ {Real Mat} g.
Arguments precision_ {Real Mat} g.
Arguments cholesky_factor_ {Real Mat} g.
Arguments log_normalizer_ {Real Mat} g.

Module FFGaussian.
Section Gaussian.
Context {Real Mat : Type} `{Scalar Real} `{EigenOps Real Mat}.

Local Open Scope mat_scope.

Definition Dimension (g : Gaussian Real Mat) : Z := noise_dimension g.

Definition Mean (mean : Mat) (g : Gaussian Real Mat) : Gaussian Real Mat :=
  mkGaussian (noise_dimension g) mean (covariance_ g) (full_rank_ g) (precision_ g)
             (cholesky_factor_ g) (log_normalizer_ g).

(** [log_normalizer_] as [Covariance] computes it. *)
Definition log_normalizer_of (covariance : Mat) : Real :=
  (- lit_0_5 * (std_log (determinant covariance)
                + of_int (rows covariance) * std_log (of_int 2 * M_PI)))%fl.

(** [Covariance(covariance)].  The loop over [D_sqrt] assigns
    coefficients, which leaves [D_sqrt.rows()] as it is. *)
Definition Covariance (covariance : Mat) (g : Gaussian Real Mat) : Gaussian Real Mat :=
  let covariance_ := covariance in
  let L := ldlt_matrixL covariance_ in
  let D_sqrt := ldlt_vectorD covariance_ in
  let D_sqrt := foldl (fun D_sqrt i => set_coeff D_sqrt i (std_sqrt (std_fabs (coeff D_sqrt i))))
                      D_sqrt (seqZ 0 (rows D_sqrt)) in
  let cholesky_factor_ := transpose (ldlt_transpositionsP covariance_) * L * asDiagonal D_sqrt in
  if qr_rank covariance =? rows covariance
  then mkGaussian (noise_dimension g) (mean_ g) covariance_ true
                  (inverse covariance_) cholesky_factor_ (log_normalizer_of covariance_)
  else mkGaussian (noise_dimension g) (mean_ g) covariance_ false
                  (precision_ g) cholesky_factor_ (log_normalizer_ g).

Definition SetUnit (g : Gaussian Real Mat) : Gaussian Real Mat :=
  let g := mkGaussian (noise_dimension g) (mean_ g) (covariance_ g) true (precision_ g)
                      (cholesky_factor_ g) (log_normalizer_ g) in
  let g := Mean (Zero (Dimension g)) g in
  Covariance (Identity (Dimension g) (Dimension g)) g.

(** The constructor [Gaussian(dimension)].  [raw] holds the members before
    they are initialised (their values are indeterminate); the [resize]
    calls give the matrices their sizes and no values. *)
Definition construct (dimension : Z) (raw : Gaussian Real Mat) : Gaussian Real Mat :=
  SetUnit (mkGaussian dimension (mean_ raw) (covariance_ raw) (full_rank_ raw)
                      (precision_ raw) (cholesky_factor_ raw) (log_normalizer_ raw)).


Definition MapStandardGaussian (g : Gaussian Real Mat) (sample : Mat) : Mat :=
  mean_ g + cholesky_factor_ g * sample.

(** The getters [Mean()] and [Covariance()]. *)
Definition get_Mean (g : Gaussian Real Mat) : Mat := mean_ g.
Definition get_Covariance (g : Gaussian Real Mat) : Mat := covariance_ g.

(** The calls that change a Gaussian after its construction. *)
Inductive setter : Type :=
| CallSetUnit
| CallMean (mean : Mat)
| CallCovariance (covariance : Mat).

Definition call (g : Gaussian Real Mat) (c : setter) : Gaussian Real Mat :=
  match c with
  | CallSetUnit => SetUnit g
  | CallMean m => Mean m g
  | CallCovariance s => Covariance s g
  end.

(** A Gaussian after construction and a sequence of calls. *)
Definition after (dimension : Z) (raw : Gaussian Real Mat) (calls : list setter)
    : Gaussian Real Mat :=
  foldl call (construct dimension raw) calls.
End Gaussian.
End FFGaussian.

(* ===================================================================== *)
(** * state_transition_density.hpp *)
(* ===================================================================== *)

Module StateTransitionDensity.
Section Density.
Context {FloatingPoint : Type} `{Scalar FloatingPoint}.
Context {State Input : Type}.
(** The pure virtual [log_probability]. *)
Variable log_probability : State -> State -> Input -> FloatingPoint -> FloatingPoint.
(** [probabilities] passes its [InputArray] where a [StateArray] is
    expected; [as_StateArray] is the conversion this takes (the identity
    when [State] and [Input] are the same type). *)
Variable as_StateArray : list Input -> list State.
(** Whether the build defines [NDEBUG]. *)
Variable NDEBUG : bool.

Definition probability (state cond_state : State) (cond_input : Input) (dt : FloatingPoint)
    : FloatingPoint :=
  std_exp (log_probability state cond_state cond_input dt).

(** The loop of [log_probabilities] over the indices it has left.  An
    index outside an array stops at Eigen's index assertion, or has no
    defined behaviour when the assertions are compiled out. *)
Fixpoint log_probabilities_loop (states cond_states : list State) (cond_inputs : list Input)
    (dt : FloatingPoint) (indices : list nat) : outcome (list FloatingPoint) :=
  match indices with
  | [] => Returned []
  | i :: rest =>
      match states !! i, cond_states !! i, cond_inputs !! i with
      | Some s, Some c, Some u =>
          outcome_map (cons (log_probability s c u dt))
                      (log_probabilities_loop states cond_states cond_inputs dt rest)
      | _, _, _ => if NDEBUG then UndefinedBehaviour else AssertionFailed
      end
  end.

Definition log_probabilities (states cond_states : list State) (cond_inputs : list Input)
    (dt : FloatingPoint) : outcome (list FloatingPoint) :=
  if negb NDEBUG && negb (length states =? length cond_inputs)%nat then AssertionFailed
  else log_probabilities_loop states cond_states cond_inputs dt (seq 0 (length states)).

Definition probabilities (states cond_states : list State) (cond_inputs : list Input)
    (dt : FloatingPoint) : outcome (list FloatingPoint) :=
  outcome_map (fmap std_exp)
              (log_probabilities states (as_StateArray cond_inputs) cond_inputs dt).
End Density.
End StateTransitionDensity.

(* ===================================================================== *)
(** * fl/distribution/discrete_distribution.hpp *)
(* ===================================================================== *)

(** The comparison [<] of the scalars, which [maxCoeff] and
    [std::lower_bound] use. *)
Class ScalarOrder (Real : Type) := {
  flt : Real -> Real -> bool
}.

(** On the extended reals a comparison with NaN is false. *)
Definition XReal_lt (x y : XReal) : bool :=
  match x, y with
  | Fin a, Fin b => if Rlt_dec a b then true else false
  | NaN, _ | _, NaN => false
  | _, NInf => false
  | NInf, _ => true
  | PInf, _ => false
  | Fin _, PInf => true
  end.

#[export] Instance XReal_ScalarOrder : ScalarOrder XReal := {| flt := XReal_lt |}.

(** Calls that return a value and keep no state besides it. *)
Definition obind {A B : Type} (o : outcome A) (k : A -> outcome B) : outcome B :=
  match o with
  | Returned a => k a
  | Thrown e => Thrown e
  | AssertionFailed => AssertionFailed
  | UndefinedBehaviour => UndefinedBehaviour
  end.

Notation "'let*' x ':=' o 'in' k" := (obind o (fun x => k))
  (at level 10, x name, o at level 100, k at level 200).

(** [foldl] with a body that may stop the call. *)
Fixpoint ofold {A B : Type} (f : A -> B -> outcome A) (a : A) (l : list B) : outcome A :=
  match l with
  | [] => Returned a
  | x :: l' => let* a' := f a x in ofold f a' l'
  end.

(** The members of [DiscreteDistribution<Variate>].  A [Variate] is the
    list of its coefficients, of the scalar type [V]; [Locations] and
    [Function] are arrays of dynamic size. *)
Record DiscreteDistribution (Real V : Type) : Type := mkDiscreteDistribution {
  locations_ : list (list V);
  log_prob_mass_ : list Real;
  prob_mass_ : list Real;
  cumul_distr_ : list Real
}.
Arguments mkDiscreteDistribution {Real V} locations_ log_prob_mass_ prob_mass_ cumul_distr_.
Arguments locations_ {Real V} d.
Arguments log_prob_mass_ {Real V} d.
Arguments prob_mass_ {Real V} d.
Arguments cumul_distr_ {Real V} d.

Module FLDiscreteDistribution.
Section DiscreteDistribution.
Context {Real V G : Type} `{Scalar Real} `{ScalarOrder Real}.
(** Whether the build defines [NDEBUG]. *)
Variable NDEBUG : bool.
(** The zero of the scalars of a [Variate] and their conversion
    [cast<Real>()]. *)
Variable v_zero : V.
Variable cast : V -> Real.
(** The [Variate] that Eigen leaves at index [i] of freshly allocated
    locations: the empty vector for a [Variate] of dynamic size, no
    determined value for one of fixed size. *)
Variable fresh_Variate : nat -> list V.
(** [distribution.sample()] of [from_distribution], drawing from the state
    [G] of a random generator. *)
Variable sample : G -> list V * G.
(** [std::erf] *)
Variable std_erf : Real -> Real.

Local Open Scope fl_scope.

(** ** Eigen and the standard library, as far as the class uses them *)

(** An assertion of Eigen (an index inside the array, operands of one
    size, an array that is not empty, a size that is not negative): it
    stops the call; what follows it has no defined behaviour when the
    assertions are compiled out. *)
Definition eigen_assert (b : bool) : outcome unit :=
  if b then Returned tt else if NDEBUG then UndefinedBehaviour else AssertionFailed.

(** [a(i)] and [a[i]] of an Eigen array *)
Definition at_ {A : Type} (a : list A) (i : Z) : outcome A :=
  match (if (i <? 0)%Z then None else a !! Z.to_nat i) with
  | Some x => Returned x
  | None => if NDEBUG then UndefinedBehaviour else AssertionFailed
  end.

(** [a.maxCoeff()]: the reduction with [max] from the first coefficient
    on. *)
Definition maxCoeff (a : list Real) : outcome Real :=
  match a with
  | [] => if NDEBUG then UndefinedBehaviour else AssertionFailed
  | x :: rest => Returned (foldl (fun res v => if flt res v then v else res) x rest)
  end.

(** [a.sum()]: zero for the empty array, else the reduction with [+] from
    the first coefficient on. *)
Definition Array_sum (a : list Real) : Real :=
  match a with
  | [] => of_int 0
  | x :: rest => foldl fadd x rest
  end.

(** [std::vector<Real>::resize(n)] *)
Definition vector_resize (n : nat) (v : list Real) : list Real :=
  take n v ++ replicate (n - length v) (of_int 0).

(** [locations_.resize(n)]: Eigen keeps an array that has the size [n],
    and allocates a fresh one otherwise. *)
Definition resize_locations (n : nat) (l : list (list V)) : list (list V) :=
  if (length l =? n)%nat then l else fresh_Variate <$> seq 0 n.

(** The number of leading elements less than [value], and whether no later
    element is: [std::lower_bound] returns the position after the leading
    ones when the range is partitioned in this way, which is what it
    requires. *)
Fixpoint lower_bound (l : list Real) (value : Real) : nat :=
  match l with
  | [] => 0%nat
  | x :: l' => if flt x value then S (lower_bound l' value) else 0%nat
  end.

Definition partitioned (l : list Real) (value : Real) : bool :=
  forallb (fun x => negb (flt x value)) (drop (lower_bound l value) l).

(** ** The class *)

(** The constructor [DiscreteDistribution(dim)].  It assigns three of the
    four members; [prob_mass_] stays the empty array of its default
    construction. *)
Definition construct (dim : Z) : outcome (DiscreteDistribution Real V) :=
  let* _ := eigen_assert (0 <=? dim)%Z in                 (* Variate::Zero(dim) *)
  Returned (mkDiscreteDistribution [replicate (Z.to_nat dim) v_zero] [of_int 0] [] [of_int 1]).

(** The loop [cumul_distr_[i] = cumul_distr_[i-1] + prob_mass_[i]] over
    the indices it has left.  [std::vector] checks no index; the loop
    bound keeps the index written inside the vector. *)
Fixpoint cumul_loop (prob_mass : list Real) (indices : list nat) (cumul_distr : list Real)
    : outcome (list Real) :=
  match indices with
  | [] => Returned cumul_distr
  | i :: rest =>
      match cumul_distr !! (i - 1)%nat with
      | None => UndefinedBehaviour
      | Some c =>
          let* p := at_ prob_mass (Z.of_nat i) in
          cumul_loop prob_mass rest (<[i := c + p]> cumul_distr)
      end
  end.

Definition log_unnormalized_prob_mass (log_prob_mass : list Real)
    (d : DiscreteDistribution Real V) : outcome (DiscreteDistribution Real V) :=
  (* rescale for numeric stability *)
  let* max := maxCoeff log_prob_mass in
  let log_prob_mass_1 := (fun x => x - max) <$> log_prob_mass in
  (* copy to prob mass *)
  let prob_mass_1 := std_exp <$> log_prob_mass_1 in
  let sum := Array_sum prob_mass_1 in
  (* normalize *)
  let prob_mass_2 := (fun x => x / sum) <$> prob_mass_1 in
  let log_prob_mass_2 := (fun x => x - std_log sum) <$> log_prob_mass_1 in
  (* compute cdf *)
  let cumul_distr_1 := vector_resize (length log_prob_mass_2) (cumul_distr_ d) in
  let* p0 := at_ prob_mass_2 0 in
  let* cumul_distr_2 :=
    match cumul_distr_1 with
    | [] => UndefinedBehaviour
    | _ :: _ => Returned (<[0%nat := p0]> cumul_distr_1)
    end in
  let* cumul_distr_3 :=
    cumul_loop prob_mass_2 (seq 1 (length cumul_distr_2 - 1)) cumul_distr_2 in
  (* resize locations *)
  Returned (mkDiscreteDistribution
              (resize_locations (length log_prob_mass_2) (locations_ d))
              log_prob_mass_2 prob_mass_2 cumul_distr_3).

Definition delta_log_prob_mass (delta : list Real) (d : DiscreteDistribution Real V)
    : outcome (DiscreteDistribution Real V) :=
  let* _ := eigen_assert (length (log_prob_mass_ d) =? length delta)%nat in
  log_unnormalized_prob_mass (zip_with fadd (log_prob_mass_ d) delta) d.

(** [set_uniform(new_size)] *)
Definition set_uniform (new_size : Z) (d : DiscreteDistribution Real V)
    : outcome (DiscreteDistribution Real V) :=
  let* _ := eigen_assert (0 <=? new_size)%Z in            (* Function::Zero(new_size) *)
  log_unnormalized_prob_mass (replicate (Z.to_nat new_size) (of_int 0)) d.

(** [location(i)], the reference read *)
Definition location (i : Z) (d : DiscreteDistribution Real V) : outcome (list V) :=
  at_ (locations_ d) i.

(** [location(i) = v], the reference of the non-const overload written *)
Definition set_location (i : Z) (v : list V) (d : DiscreteDistribution Real V)
    : outcome (DiscreteDistribution Real V) :=
  let* _ := at_ (locations_ d) i in
  Returned (mkDiscreteDistribution (<[Z.to_nat i := v]> (locations_ d))
              (log_prob_mass_ d) (prob_mass_ d) (cumul_distr_ d)).

(** The loop of [from_distribution]: [n] samples, in the order drawn. *)
Fixpoint draw (n : nat) (g : G) : list (list V) * G :=
  match n with
  | O => ([], g)
  | S n' =>
      let '(x, g1) := sample g in
      let '(xs, g2) := draw n' g1 in
      (x :: xs, g2)
  end.

Definition from_distribution (g : G) (new_size : Z) (d : DiscreteDistribution Real V)
    : outcome (DiscreteDistribution Real V * G) :=
  let* _ := eigen_assert (0 <=? new_size)%Z in            (* Locations new_locations(new_size) *)
  let '(new_locations, g') := draw (Z.to_nat new_size) g in
  let* d1 := set_uniform new_size d in
  Returned (mkDiscreteDistribution new_locations
              (log_prob_mass_ d1) (prob_mass_ d1) (cumul_distr_ d1), g').

Definition map_standard_uniform (uniform_sample : Real) (d : DiscreteDistribution Real V)
    : outcome (list V) :=
  if partitioned (cumul_distr_ d) uniform_sample
  then at_ (locations_ d) (Z.of_nat (lower_bound (cumul_distr_ d) uniform_sample))
  else UndefinedBehaviour.

Definition map_standard_normal (gaussian_sample : Real) (d : DiscreteDistribution Real V)
    : outcome (list V) :=
  let uniform_sample :=
    lit_0_5 * (of_int 1 + std_erf (gaussian_sample / std_sqrt (of_int 2))) in
  map_standard_uniform uniform_sample d.

Definition locations (d : DiscreteDistribution Real V) : list (list V) := locations_ d.

(** [log_prob_mass(i)] and [log_prob_mass()] *)
Definition log_prob_mass_at (i : Z) (d : DiscreteDistribution Real V) : outcome Real :=
  at_ (log_prob_mass_ d) i.
Definition log_prob_mass (d : DiscreteDistribution Real V) : list Real := log_prob_mass_ d.

(** [prob_mass(i)] and [prob_mass()] *)
Definition prob_mass_at (i : Z) (d : DiscreteDistribution Real V) : outcome Real :=
  at_ (prob_mass_ d) i.
Definition prob_mass (d : DiscreteDistribution Real V) : list Real := prob_mass_ d.

Definition size (d : DiscreteDistribution Real V) : Z := Z.of_nat (length (locations_ d)).

Definition dimension (d : DiscreteDistribution Real V) : outcome Z :=
  let* l0 := at_ (locations_ d) 0 in
  Returned (Z.of_nat (length l0)).

(** [mean()]; [mu += v] asserts that [v] has the size of [mu]. *)
Definition mean (d : DiscreteDistribution Real V) : outcome (list Real) :=
  let* dim := dimension d in
  ofold (fun mu i =>
           let* p := prob_mass_at i d in
           let* x := at_ (locations_ d) i in
           let term := vscale p (cast <$> x) in
           let* _ := eigen_assert (length mu =? length term)%nat in
           Returned (vadd mu term))
        (vzero (Z.to_nat dim)) (seqZ 0 (size d)).

(** [covariance()]; the difference [locations_[i] - mu] asserts that its
    operands have one size. *)
Definition covariance (d : DiscreteDistribution Real V) : outcome (list (list Real)) :=
  let* mu := mean d in
  let* dim := dimension d in
  ofold (fun cov i =>
           let* x := at_ (locations_ d) i in
           let* _ := eigen_assert (length x =? length mu)%nat in
           let delta := vsub (cast <$> x) mu in
           let* p := prob_mass_at i d in
           Returned (madd cov (outer (vscale p delta) delta)))
        (mzero (Z.to_nat dim) (Z.to_nat dim)) (seqZ 0 (size d)).

Definition entropy (d : DiscreteDistribution Real V) : outcome Real :=
  let* _ := eigen_assert (length (log_prob_mass_ d) =? length (prob_mass_ d))%nat in
  Returned (- Array_sum (zip_with fmul (log_prob_mass_ d) (prob_mass_ d))).

(** [kl_given_uniform()]: KL(p||u) for the uniform distribution [u] *)
Definition kl_given_uniform (d : DiscreteDistribution Real V) : outcome Real :=
  let* e := entropy d in
  Returned (std_log (of_int (size d)) - e).
End DiscreteDistribution.
End FLDiscreteDistribution.

(* ===================================================================== *)
(** * Definitions used to state and prove the properties *)
(* ===================================================================== *)

Section SigmaPointLayout.
Context {Real : Type} `{Scalar Real}.
Variables alpha beta kappa : Real.

Local Open Scope fl_scope.

(** The scalars of the sigma-point generator as the spec writes them
    (4.2), for the global dimension [n]. *)
Definition squared (x : Real) : Real := x * x.
Definition spec_lambda (n : Real) : Real := squared alpha * (n + kappa) - n.
Definition spec_w_mean_0 (n : Real) : Real := spec_lambda n / (n + spec_lambda n).
Definition spec_w_cov_0 (n : Real) : Real :=
  spec_w_mean_0 n + (of_int 1 - squared alpha + beta).
Definition spec_w_i (n : Real) : Real := of_int 1 / (of_int 2 * (n + spec_lambda n)).
Definition spec_gamma (n : Real) : Real := std_sqrt (n + spec_lambda n).

Local Close Scope fl_scope.

(** The point and weights the layout of the spec (4.2) puts at index [k]
    of the set for global dimension [n] and offset [off]: the mean at
    index 0; for the index [i] in [1..n] and its mirror [n + i], the pair
    [mean ± column (i - off - 1)] of the scaled square root when
    coordinate [i - 1] is one of the belief's own, [off <= i - 1 < off +
    dimension], and the mean otherwise. *)
Definition sigma_point (g : Gaussian_ Real) (n off : Z) (k : Z) : list Real * Weight Real :=
  let dim := of_int n in
  if k =? 0 then (mean g, mkWeight (spec_w_mean_0 dim) (spec_w_cov_0 dim))
  else
    let i := if k <=? n then k else k - n in
    let p :=
      if (off <? i) && (i <=? off + dimension g) then
        let shift := col (mscale_r (square_root g) (spec_gamma dim)) (i - off - 1) in
        if k <=? n then vadd (mean g) shift else vsub (mean g) shift
      else mean g in
    (p, mkWeight (spec_w_i dim) (spec_w_i dim)).

(** The indices [forward] passes to [point], in the order of the calls. *)
Definition forward_trace (n : Z) : list Z := 0 :: (seqZ 1 n ≫= fun i => [i; n + i]).

(** The storage after the writes [ws], each an index with its entry. *)
Definition put (ws : list (Z * (list Real * Weight Real)))
    (l : list (list Real * Weight Real)) : list (list Real * Weight Real) :=
  foldl (fun acc w => <[Z.to_nat w.1 := w.2]> acc) l ws.
End SigmaPointLayout.

(** A target point set that [forward] can fill for global dimension [n]:
    one of fixed capacity has that capacity [2 n + 1] and holds as many
    points. *)
Definition fits {Real} (NumberOfPoints : Z) (n : Z) (ps : PointSet Real) : Prop :=
  IsFixed NumberOfPoints = true ->
  NumberOfPoints = 2 * n + 1 /\ Z.of_nat (length (points ps)) = NumberOfPoints.

(** ** Beliefs and point sets with finite scalars *)

(** The sum of a list of reals. *)
Definition Rsum (l : list R) : R := foldr Rplus 0%R l.

Definition fin_vec (v : list R) : list XReal := Fin <$> v.
Definition fin_mat (m : list (list R)) : list (list XReal) := fin_vec <$> m.

(** The belief of dimension [d] with the finite mean [m] and the finite
    square root [s] (the list of its columns). *)
Definition finite_belief (d : nat) (m : list R) (s : list (list R)) : Gaussian_ XReal :=
  mkGaussian_ (Z.of_nat d) (fin_vec m) (fin_mat s).

Definition well_shaped (d : nat) (m : list R) (s : list (list R)) : Prop :=
  length m = d /\ length s = d /\ Forall (fun c => length c = d) s.

(** [S * S^T] for the [d x d] matrix [S] with the columns [s]: the entry
    in row [r] of column [c] is the sum over the columns [sj] of
    [sj(r) * sj(c)]. *)
Definition gram (s : list (list R)) (d : nat) : list (list R) :=
  (fun c => (fun r => Rsum ((fun sj => nth r sj 0 * nth c sj 0)%R <$> s)) <$> seq 0 d)
    <$> seq 0 d.

(** Entry [r] of column [c]. *)
Definition entry (M : list (list R)) (c r : nat) : option R := M !! c ≫= fun v => v !! r.

(** A point with its two weights, over the reals, and its image. *)
Definition fin_entry (e : list R * (R * R)) : list XReal * Weight XReal :=
  (fin_vec e.1, mkWeight (Fin e.2.1) (Fin e.2.2)).

(** [PointSet_mean] and [covariance_estimate] computed in the reals. *)
Definition meanR (d : nat) (es : list (list R * (R * R))) : list R :=
  foldl (fun acc e => zip_with Rplus acc (Rmult e.2.1 <$> e.1)) (replicate d 0%R) es.

Definition covR (d : nat) (mu : list R) (es : list (list R * (R * R))) : list (list R) :=
  foldl (fun acc e =>
           let x := zip_with Rminus e.1 mu in
           zip_with (zip_with Rplus) acc
             ((fun v : list R => Rmult e.2.2 <$> v)
                <$> ((fun y => (fun x => x * y)%R <$> x) <$> x)))
        (replicate d (replicate d 0%R)) es.

Section ExactLayout.
Variables (a b k : R) (n off : Z) (d : nat) (m : list R) (s : list (list R)).

Local Open Scope R_scope.
(** The scalars of the generator in the reals, for alpha = [a],
    beta = [b], kappa = [k] and the global dimension [n]. *)
Definition lamR : R := a * a * (IZR n + k) - IZR n.
Definition w0R : R := lamR / (IZR n + lamR).
Definition wc0R : R := w0R + (1 - a * a + b).
Definition wiR : R := 1 / (2 * (IZR n + lamR)).
Definition gamR : R := sqrt (IZR n + lamR).
Local Close Scope R_scope.

(** [sigma_point] in the reals. *)
Definition entryR (kidx : Z) : list R * (R * R) :=
  if kidx =? 0 then (m, (w0R, wc0R))
  else
    let i := if kidx <=? n then kidx else kidx - n in
    let p :=
      if (off <? i) && (i <=? off + Z.of_nat d) then
        let shift := col ((fun v : list R => (fun x => x * gamR)%R <$> v) <$> s) (i - off - 1) in
        if kidx <=? n then zip_with Rplus m shift else zip_with Rminus m shift
      else m in
    (p, (wiR, wiR)).

Definition in_range (i : Z) : bool := (off <? i) && (i <=? off + Z.of_nat d).

(** Coordinate [r] of the shift of the pair at [i] and [n + i]. *)
Definition shiftR (i : Z) (r : nat) : R :=
  if in_range i then (nth r (col s (i - off - 1)) 0 * gamR)%R else 0%R.
End ExactLayout.

(** ** The update as the spec describes it (4.4) *)

Module UpdateSpec.
Section UpdateSpec.
Context {Real Mat Model PS : Type}.
Context `{Scalar Real} `{EigenOps Real Mat} `{JointModelOps Real Mat Model}
        `{QuadratureOps Mat (Belief Mat) PS}.
Variable solve : Mat -> Mat -> Mat.
Variables (obsrv_function : Model) (prior_belief : Belief Mat) (y : Mat).

Local Open Scope mat_scope.

(** 1. INIT *)
Definition p_X : PS := (transform_to_points prior_belief).1.
Definition p_Q : PS := (transform_to_points prior_belief).2.
Definition mu_x : Mat := ps_mean p_X.
Definition X : Mat := ps_centered_points p_X.
Definition W : Mat := asDiagonal (ps_covariance_weights_vector p_X).
Definition c_xx : Mat := X * W * transpose X.
Definition c_xx_inv : Mat := inverse c_xx.

(** 2. PER_SENSOR_LOOP, for sensor [i] *)
Definition dim_y : Z := Z.quot (size y) (count_local_models obsrv_function).
Definition y_slice (i : Z) : Mat := middleRows y (i * dim_y) dim_y.

(** Steps c and d: the body and the tail branch. *)
Definition p_Y_body (i : Z) : PS :=
  propagate_points (MultiSensorSigmaPointUpdatePolizzle.h_body obsrv_function i) p_X p_Q.
Definition mu_y_body (i : Z) : Mat := ps_mean (p_Y_body i).
Definition Y_body (i : Z) : Mat := ps_centered_points (p_Y_body i).
Definition c_yy_body (i : Z) : Mat := Y_body i * W * transpose (Y_body i).
Definition c_xy_body (i : Z) : Mat := X * W * transpose (Y_body i).
Definition p_Y_tail (i : Z) : PS :=
  propagate_points (MultiSensorSigmaPointUpdatePolizzle.h_tail obsrv_function i) p_X p_Q.
Definition mu_y_tail (i : Z) : Mat := ps_mean (p_Y_tail i).
Definition Y_tail (i : Z) : Mat := ps_centered_points (p_Y_tail i).
Definition c_yy_tail (i : Z) : Mat := Y_tail i * W * transpose (Y_tail i).
Definition c_xy_tail (i : Z) : Mat := X * W * transpose (Y_tail i).

(** Steps a and c: the sensor is skipped when its measurement slice or the mean of
    its body branch has a non-finite component. *)
Definition skipped (i : Z) : bool :=
  negb (MultiSensorSigmaPointUpdatePolizzle.is_valid y (i * dim_y) (i * dim_y + dim_y))
  || negb (MultiSensorSigmaPointUpdatePolizzle.is_valid (mu_y_body i) 0 dim_y).

(** Step e: mixture fuse. *)
Definition t (i : Z) : Real := tail_weight obsrv_function i.
Definition b (i : Z) : Real := (of_int 1 - t i)%fl.
Definition mu_y (i : Z) : Mat := b i .* mu_y_body i + t i .* mu_y_tail i.
Definition m_yy_body (i : Z) : Mat := c_yy_body i + mu_y_body i * transpose (mu_y_body i).
Definition m_yy_tail (i : Z) : Mat := c_yy_tail i + mu_y_tail i * transpose (mu_y_tail i).
Definition m_yy (i : Z) : Mat := b i .* m_yy_body i + t i .* m_yy_tail i.
Definition c_yy (i : Z) : Mat := m_yy i - mu_y i * transpose (mu_y i).
Definition c_xy (i : Z) : Mat := b i .* c_xy_body i + t i .* c_xy_tail i.

(** Step f: conditional covariance and gain. *)
Definition A (i : Z) : Mat := transpose (c_xy i) * c_xx_inv.
Definition c_yy_given_x (i : Z) : Mat := c_yy i - transpose (c_xy i) * c_xx_inv * c_xy i.
Definition innovation (i : Z) : Mat := y_slice i - mu_y i.

(** Step g: the information accumulated over the sensors that are not
    skipped. *)
Definition C_of (sensors : list Z) : Mat :=
  foldl (fun C i => C + transpose (A i) * solve (c_yy_given_x i) (A i))
        c_xx_inv (filter (fun i => skipped i = false) sensors).
Definition D_of (sensors : list Z) : Mat :=
  foldl (fun D i => D + transpose (A i) * solve (c_yy_given_x i) (innovation i))
        (Zero (size mu_x)) (filter (fun i => skipped i = false) sensors).

(** 3. FINALIZE *)
Definition posterior (sensors : list Z) : Belief Mat :=
  let posterior_covariance := inverse (C_of sensors) in
  mkBelief (belief_dimension prior_belief)
           (mu_x + posterior_covariance * D_of sensors)
           posterior_covariance.
End UpdateSpec.
End UpdateSpec.

(** ** The log-density as the spec describes it (4.1) *)

Section LogDensitySpec.
Context {Real Mat : Type} `{Scalar Real} `{EigenOps Real Mat}.

(** [log_normalizer = -0.5 (log det S + n log 2π)] *)
Definition spec_log_normalizer (S : Mat) : Real :=
  (- lit_0_5 * (std_log (determinant S) + of_int (rows S) * std_log (of_int 2 * M_PI)))%fl.

End LogDensitySpec.

(** ** One-dimensional instances of the interfaces *)

(** State, noise and observation of dimension one: a matrix is its single
    coefficient.  One sensor observes the state plus the noise; the
    quadrature uses the mean as its single point. *)
Module Dim1.

#[export] Instance eigen : EigenOps XReal XReal := {|
  size _ := 1;
  rows _ := 1;
  coeff v _ := v;
  set_coeff _ _ x := x;
  Zero _ := Fin 0;
  Identity _ _ := Fin 1;
  transpose m := m;
  asDiagonal m := m;
  inverse m := XR.div (Fin 1) m;
  determinant m := m;
  plus := XR.add;
  minus := XR.sub;
  times := XR.mul;
  scaled := XR.mul;
  middleRows m _ _ := m;
  to_scalar m := m;
  ldlt_matrixL _ := Fin 1;
  ldlt_vectorD m := m;
  ldlt_transpositionsP _ := Fin 1;
  qr_rank m := match m with Fin r => if Req_dec_T r 0 then 0 else 1 | _ => 1 end
|}.

#[export] Instance model : JointModelOps XReal XReal unit := {|
  count_local_models _ := 1;
  body_observation _ _ x w := XR.add x w;
  tail_observation _ _ x w := XR.add x w;
  feature_obsrv _ _ obsrv := obsrv;
  tail_weight _ _ := Fin 0
|}.

(** A point set: its mean and its centered point. *)
#[export] Instance quadrature : QuadratureOps XReal (Belief XReal) (XReal * XReal) := {|
  transform_to_points prior := ((belief_mean prior, Fin 1), (Fin 0, Fin 1));
  propagate_points h p_X p_Q := (h p_X.1 p_Q.1, p_X.2);
  ps_mean p := p.1;
  ps_centered_points p := p.2;
  ps_covariance_weights_vector _ := Fin 1
|}.

Definition solve (M X : XReal) : XReal := XR.div X M.

Definition prior : Belief XReal := mkBelief 1 (Fin 0) (Fin 1).
End Dim1.

(** ** Dense instances of the interfaces *)

(** A matrix is the list of its columns and a vector is a matrix with one
    column, with extended reals as coefficients.  Sums, products,
    transposes and blocks are Eigen's for every size.  [inverse] and
    [determinant] are the closed forms Eigen has for the fixed sizes one
    and two (for size two the adjugate times [1 / determinant]); a larger
    matrix, which Eigen decomposes, is not inverted here.  The
    decompositions of [ff::Gaussian], which the update does not call, are
    those of a matrix with one coefficient, as in [Dim1].  A coefficient
    outside a matrix reads as NaN. *)
Module Dense.

Definition Mat : Type := list (list XReal).

Definition n_cols (m : Mat) : nat := length m.
Definition n_rows (m : Mat) : nat := match m with [] => 0%nat | c :: _ => length c end.

(** [m(i, j)] *)
Definition get (m : Mat) (i j : nat) : XReal := default NaN (m !! j ≫= fun c => c !! i).

(** The matrix of [r] rows and [c] columns with the coefficients [f i j]. *)
Definition build (r c : nat) (f : nat -> nat -> XReal) : Mat :=
  (fun j => (fun i => f i j) <$> seq 0 r) <$> seq 0 c.

Definition sum (l : list XReal) : XReal :=
  match l with
  | [] => Fin 0
  | x :: l' => foldl XR.add x l'
  end.

Definition product (a b : Mat) : Mat :=
  build (n_rows a) (n_cols b)
    (fun i j => sum ((fun k => XR.mul (get a i k) (get b k j)) <$> seq 0 (n_cols a))).

(** [m.inverse()] for the fixed sizes one and two. *)
Definition inverse2 (m : Mat) : Mat :=
  match m with
  | [[a]] => [[XR.div (Fin 1) a]]
  | [[a; c]; [b; d]] =>
      let invdet := XR.div (Fin 1) (XR.sub (XR.mul a d) (XR.mul c b)) in
      [[XR.mul d invdet; XR.mul (XR.neg c) invdet];
       [XR.mul (XR.neg b) invdet; XR.mul a invdet]]
  | _ => m
  end.

(** [m.determinant()] for the sizes up to two. *)
Definition determinant2 (m : Mat) : XReal :=
  match m with
  | [] => Fin 1
  | [[a]] => a
  | [[a; c]; [b; d]] => XR.sub (XR.mul a d) (XR.mul c b)
  | _ => NaN
  end.

#[export] Instance eigen : EigenOps XReal Mat := {|
  size m := Z.of_nat (n_rows m * n_cols m);
  rows m := Z.of_nat (n_rows m);
  coeff v k := if k <? 0 then NaN else get v (Z.to_nat k) 0;
  set_coeff v k x :=
    if k <? 0 then v else (fun c : list XReal => <[Z.to_nat k := x]> c) <$> v;
  Zero n := [replicate (Z.to_nat n) (Fin 0)];
  Identity r c :=
    build (Z.to_nat r) (Z.to_nat c) (fun i j => if (i =? j)%nat then Fin 1 else Fin 0);
  transpose m := build (n_cols m) (n_rows m) (fun i j => get m j i);
  asDiagonal v :=
    build (n_rows v) (n_rows v) (fun i j => if (i =? j)%nat then get v i 0 else Fin 0);
  inverse := inverse2;
  determinant := determinant2;
  plus a b := zip_with (zip_with XR.add) a b;
  minus a b := zip_with (zip_with XR.sub) a b;
  times := product;
  scaled s m := (fun c : list XReal => XR.mul s <$> c) <$> m;
  middleRows m start n := (fun c : list XReal => take (Z.to_nat n) (drop (Z.to_nat start) c)) <$> m;
  to_scalar m := get m 0 0;
  ldlt_matrixL _ := [[Fin 1]];
  ldlt_vectorD m := [[get m 0 0]];
  ldlt_transpositionsP _ := [[Fin 1]];
  qr_rank m := match get m 0 0 with Fin r => if Req_dec_T r 0 then 0 else 1 | _ => 1 end
|}.

(** The model is its number of sensors; each sensor observes the first
    coefficient of the state plus the noise. *)
#[export] Instance model : JointModelOps XReal Mat Z := {|
  count_local_models n := n;
  body_observation _ _ x w := [[XR.add (get x 0 0) (get w 0 0)]];
  tail_observation _ _ x w := [[XR.add (get x 0 0) (get w 0 0)]];
  feature_obsrv _ _ obsrv := obsrv;
  tail_weight _ _ := Fin 0
|}.

(** A quadrature with two points, the mean plus and minus the first
    column of the covariance, each with half the weight, and with zero as
    the noise points.  The point sets are the container of the unscented
    transform, read as the update reads them. *)
#[export] Instance quadrature : QuadratureOps Mat (Belief Mat) (PointSet XReal) := {|
  transform_to_points prior :=
    let mean := col (belief_mean prior) 0 in
    let shift := col (belief_covariance prior) 0 in
    let half := mkWeight (Fin (/ 2)) (Fin (/ 2)) in
    (mkPointSet [(vadd mean shift, half); (vsub mean shift, half)] [],
     mkPointSet [([Fin 0], half); ([Fin 0], half)] []);
  propagate_points h p_X p_Q :=
    mkPointSet
      (zip_with (fun x q : list XReal * Weight XReal => (col (h [x.1] [q.1]) 0, x.2))
                (points p_X) (points p_Q)) [];
  ps_mean p := [PointSet_mean p];
  ps_centered_points p := centered_points p;
  ps_covariance_weights_vector p := [covariance_weights_vector p]
|}.

(** [solve(M, X) = M⁻¹ X] *)
Definition solve (M X : Mat) : Mat := product (inverse2 M) X.

(** A state of two coefficients whose second one is known exactly: the
    covariance is singular. *)
Definition prior : Belief Mat :=
  mkBelief 2 [[Fin 0; Fin 0]] [[Fin 1; Fin 0]; [Fin 0; Fin 0]].
End Dense.

(** ** What the members of a Gaussian hold *)

(** The rank flag is the result of the rank check on the covariance set
    last, and with a full rank the precision and the normalizer are the
    ones of that covariance. *)
Definition consistent {Real Mat : Type} `{Scalar Real} `{EigenOps Real Mat}
    (g : Gaussian Real Mat) : Prop :=
  full_rank_ g = (qr_rank (covariance_ g) =? rows (covariance_ g))
  /\ (full_rank_ g = true ->
      precision_ g = inverse (covariance_ g)
      /\ log_normalizer_ g = spec_log_normalizer (covariance_ g)).

(** ** The members a Gaussian keeps for sampling and after a reset *)

Section GaussianMembers.
Context {Real Mat : Type} `{Scalar Real} `{EigenOps Real Mat}.

Local Open Scope mat_scope.

(** The factor [P^T L sqrt|D|] of the LDLT decomposition of a covariance,
    as [Covariance] computes it. *)
Definition cholesky_of (covariance : Mat) : Mat :=
  let D := ldlt_vectorD covariance in
  let D_sqrt := foldl (fun D_sqrt i => set_coeff D_sqrt i (std_sqrt (std_fabs (coeff D_sqrt i))))
                      D (seqZ 0 (rows D)) in
  transpose (ldlt_transpositionsP covariance) * ldlt_matrixL covariance * asDiagonal D_sqrt.

(** The standard Gaussian of dimension [d]: zero mean, identity
    covariance, and the members derived from it. *)
Definition unit_Gaussian (d : Z) : Gaussian Real Mat :=
  mkGaussian d (Zero d) (Identity d d) true (inverse (Identity d d))
             (cholesky_of (Identity d d)) (spec_log_normalizer (Identity d d)).
End GaussianMembers.

(** ** Mass functions over the reals *)

(** The running sums [prev + p0], [prev + p0 + p1], ... of the loop that
    fills [cumul_distr_], and the vector the loop leaves for the masses
    [p]. *)
Fixpoint running {Real : Type} `{Scalar Real} (prev : Real) (p : list Real) : list Real :=
  match p with
  | [] => []
  | x :: rest => fadd prev x :: running (fadd prev x) rest
  end.

Definition cumulative {Real : Type} `{Scalar Real} (p : list Real) : list Real :=
  match p with
  | [] => []
  | p0 :: rest => p0 :: running p0 rest
  end.

Fixpoint runningR (prev : R) (p : list R) : list R :=
  match p with
  | [] => []
  | x :: rest => (prev + x)%R :: runningR (prev + x)%R rest
  end.

Definition cumulativeR (p : list R) : list R :=
  match p with
  | [] => []
  | p0 :: rest => p0 :: runningR p0 rest
  end.

(** The masses [exp a / Σ exp] of the finite log-masses [l], and their
    logarithms [a - ln Σ exp]. *)
Definition softmaxR (l : list R) : list R :=
  (fun a => exp a / Rsum (exp <$> l))%R <$> l.
Definition log_softmaxR (l : list R) : list R :=
  (fun a => a - ln (Rsum (exp <$> l)))%R <$> l.

(** The distribution with the locations [locs] and the masses of the
    log-masses [l]. *)
Definition normalized {V : Type} (l : list R) (locs : list (list V))
    : DiscreteDistribution XReal V :=
  mkDiscreteDistribution locs (fin_vec (log_softmaxR l)) (fin_vec (softmaxR l))
                         (fin_vec (cumulativeR (softmaxR l))).

(** The entropy [- Σ ln p_i * p_i] of the masses of the log-masses [l]. *)
Definition entropyR (l : list R) : R :=
  (- Rsum ((fun a => (a - ln (Rsum (exp <$> l))) * (exp a / Rsum (exp <$> l))) <$> l))%R.

(** A log-mass that is finite or minus infinity (the logarithm of the
    probability zero). *)
Definition log_mass_of (o : option R) : XReal :=
  match o with
  | Some a => Fin a
  | None => NInf
  end.

(** The mass-weighted sum of the first [k] locations [xs], for the masses
    [p] and the conversion [castR] of the coefficients. *)
Definition partial_mean {V : Type} (castR : V -> R) (dim : nat) (p : list R)
    (xs : list (list V)) (k : nat) : list R :=
  meanR dim ((fun e : R * list V => (castR <$> e.2, (e.1, e.1))) <$> take k (zip p xs)).

(** A distribution without locations and masses. *)
Definition empty_distribution : DiscreteDistribution XReal R :=
  mkDiscreteDistribution [] [] [] [].

(* ===================================================================== *)
(** * Properties of the sigma-point generator *)
(* ===================================================================== *)

Section UnscentedTransformFacts.
Context {Real : Type} `{Scalar Real}.
Variable NDEBUG : bool.
Variables alpha_ beta_ kappa_ : Real.
Import UnscentedTransform.

(** C2: for every dimension [n] and parameters alpha, beta, kappa the
    scalars of the generator are the spec's formulas:
    lambda = alpha² (n + kappa) − n, w_mean_0 = lambda / (n + lambda),
    w_cov_0 = w_mean_0 + (1 − alpha² + beta),
    w_mean_i = w_cov_i = 1 / (2 (n + lambda)), gamma = sqrt (n + lambda). *)
Theorem scalars_match_spec (n : Z) :
  let dim := of_int n in
  lambda_scalar alpha_ kappa_ dim = spec_lambda alpha_ kappa_ dim
  /\ weight_mean_0 alpha_ kappa_ dim = spec_w_mean_0 alpha_ kappa_ dim
  /\ weight_cov_0 alpha_ beta_ kappa_ dim = spec_w_cov_0 alpha_ beta_ kappa_ dim
  /\ weight_mean_i alpha_ kappa_ dim = spec_w_i alpha_ kappa_ dim
  /\ weight_cov_i alpha_ kappa_ dim = spec_w_i alpha_ kappa_ dim
  /\ gamma_factor alpha_ kappa_ dim = spec_gamma alpha_ kappa_ dim.
Proof. repeat split. Qed.

Lemma number_of_points_eq (n : Z) : number_of_points n = 2 * n + 1.
Proof.
  unfold number_of_points, Dynamic.
  destruct (Z.eqb_spec n (-1)) as [->|]; reflexivity.
Qed.

Lemma put_length (ws : list (Z * (list Real * Weight Real))) l :
  length (put ws l) = length l.
Proof.
  revert l; induction ws as [|w ws IH]; intros l; [done|].
  unfold put in *. simpl. rewrite IH. apply length_insert.
Qed.

Lemma put_app (ws1 ws2 : list (Z * (list Real * Weight Real))) l :
  put (ws1 ++ ws2) l = put ws2 (put ws1 l).
Proof. unfold put. apply foldl_app. Qed.

Lemma put_lookup_notin (ws : list (Z * (list Real * Weight Real))) l k :
  k ∉ (Z.to_nat ∘ fst) <$> ws -> put ws l !! k = l !! k.
Proof.
  revert l; induction ws as [|w ws IH]; intros l Hk; [done|].
  rewrite fmap_cons, not_elem_of_cons in Hk. destruct Hk as [Hne Hk].
  unfold put in *; simpl. rewrite IH by done.
  apply list_lookup_insert_ne. exact (not_eq_sym Hne).
Qed.

Lemma put_lookup_in (ws : list (Z * (list Real * Weight Real))) l i e :
  NoDup ((Z.to_nat ∘ fst) <$> ws) ->
  (i, e) ∈ ws -> (Z.to_nat i < length l)%nat ->
  put ws l !! Z.to_nat i = Some e.
Proof.
  revert l; induction ws as [|w ws IH]; intros l Hnd Hin Hlt.
  - by apply elem_of_nil in Hin.
  - rewrite fmap_cons in Hnd. apply NoDup_cons in Hnd as [Hnotin Hnd].
    apply elem_of_cons in Hin as [<-|Hin].
    + change (put ((i, e) :: ws) l) with (put ws (<[Z.to_nat i := e]> l)).
      rewrite put_lookup_notin by done.
      by apply list_lookup_insert_eq.
    + change (put (w :: ws) l) with (put ws (<[Z.to_nat w.1 := w.2]> l)).
      apply IH; [done|done|]. by rewrite length_insert.
Qed.

Lemma to_nat_seqZ n : Z.to_nat <$> seqZ 0 n = seq 0 (Z.to_nat n).
Proof.
  unfold seqZ. rewrite <- list_fmap_compose.
  rewrite <- (list_fmap_id (seq 0 (Z.to_nat n))) at 2.
  apply list_fmap_ext. intros i x _. simpl. lia.
Qed.

(** Writes that cover the indices [0 .. len-1] once each determine the
    whole storage. *)
Lemma put_covering (ws : list (Z * (list Real * Weight Real)))
    (F : Z -> list Real * Weight Real) (pts : list (list Real * Weight Real)) (len : Z) :
  (forall w, w ∈ ws -> w.2 = F w.1) ->
  ws.*1 ≡ₚ seqZ 0 len ->
  Z.of_nat (length pts) = len ->
  put ws pts = F <$> seqZ 0 len.
Proof.
  intros HF Hperm Hlen.
  assert (Hnd : NoDup ((Z.to_nat ∘ fst) <$> ws)).
  { rewrite (list_fmap_compose fst Z.to_nat), Hperm, to_nat_seqZ. apply NoDup_seq. }
  apply list_eq. intros k.
  destruct (decide (Z.of_nat k < len)) as [Hk|Hk].
  - rewrite list_lookup_fmap, lookup_seqZ_lt by done. simpl.
    assert (Hin : Z.of_nat k ∈ ws.*1) by (rewrite Hperm; apply elem_of_seqZ; lia).
    apply list_elem_of_fmap in Hin as ([i e] & Hi & Hw). simpl in Hi. subst i.
    rewrite <- (Nat2Z.id k) at 1.
    rewrite (put_lookup_in ws pts (Z.of_nat k) e Hnd Hw) by lia.
    f_equal. apply (HF _ Hw).
  - rewrite list_lookup_fmap, lookup_seqZ_ge by lia. simpl.
    apply lookup_ge_None. rewrite put_length. lia.
Qed.

(** A loop whose body writes at [i] and at [n + i]. *)
Lemma for_each_pairs (n : Z) (f g : Z -> list Real) (w : Weight Real) (l : list Z)
    (ps : PointSet Real) :
  (forall i, i ∈ l -> 0 <= i /\ 0 <= n /\ n + i < Z.of_nat (length (points ps))) ->
  for_each l (fun i => point i (f i) w ;; point (n + i) (g i) w) ps
  = (Returned tt,
     mkPointSet (put (l ≫= fun i => [(i, (f i, w)); (n + i, (g i, w))]) (points ps))
                (written ps ++ (l ≫= fun i => [i; n + i]))).
Proof.
  revert ps; induction l as [|i l IH]; intros ps Hr.
  - simpl. unfold ret. destruct ps; simpl. by rewrite app_nil_r.
  - assert (Hi := Hr i ltac:(left)).
    cbn [for_each]. unfold bind at 1. unfold bind at 1.
    unfold point at 1.
    replace ((0 <=? i) && (i <? Z.of_nat (length (points ps)))) with true
      by (symmetry; apply andb_true_iff; split; [apply Z.leb_le|apply Z.ltb_lt]; lia).
    unfold point at 1. cbn [points written].
    rewrite length_insert.
    replace ((0 <=? n + i) && (n + i <? Z.of_nat (length (points ps)))) with true
      by (symmetry; apply andb_true_iff; split; [apply Z.leb_le|apply Z.ltb_lt]; lia).
    rewrite IH.
    + cbn [points written]. f_equal. f_equal.
      rewrite <- !app_assoc. reflexivity.
    + intros j Hj. cbn [points]. rewrite !length_insert. apply Hr. by right.
Qed.

Lemma bind_pair_perm {A B} (f g : A -> B) (l : list A) :
  (l ≫= fun i => [f i; g i]) ≡ₚ (f <$> l) ++ (g <$> l).
Proof.
  induction l as [|a l IH]; [done|].
  rewrite bind_cons, !fmap_cons. simpl. constructor.
  rewrite IH. by rewrite Permutation_middle.
Qed.

(** Every index [0 .. 2 n] occurs once in the trace. *)
Lemma forward_trace_perm n : 0 <= n -> forward_trace n ≡ₚ seqZ 0 (2 * n + 1).
Proof.
  intros Hn. unfold forward_trace.
  rewrite bind_pair_perm, list_fmap_id, fmap_add_seqZ.
  replace (2 * n + 1) with (1 + (n + n)) by lia.
  rewrite (seqZ_app 0 1 (n + n)) by lia.
  rewrite (seqZ_app (0 + 1) n n) by lia.
  change (seqZ 0 1) with [0]. simpl.
  replace (n + 1) with (1 + n) by lia. done.
Qed.

Lemma resize_run N pc (ps : PointSet Real) :
  0 <= pc -> (IsFixed N = true -> Z.of_nat (length (points ps)) = pc) ->
  exists pts, resize N pc ps = (Returned tt, mkPointSet pts (written ps))
              /\ Z.of_nat (length pts) = pc.
Proof.
  intros Hpc Hfix. unfold resize.
  destruct (Z.of_nat (length (points ps)) =? pc) eqn:E.
  - exists (points ps). apply Z.eqb_eq in E. by destruct ps.
  - destruct (IsFixed N) eqn:EF.
    + apply Z.eqb_neq in E. by specialize (Hfix eq_refl).
    + eexists; split; [reflexivity|]. rewrite length_replicate. lia.
Qed.

Lemma segments (n off d : Z) :
  0 <= off -> 0 <= d -> off + d <= n ->
  seqZ 1 n = seqZ 1 (1 + off - 1) ++ seqZ (1 + off) (1 + off + d - (1 + off))
             ++ seqZ (1 + off + d) (n + 1 - (1 + off + d)).
Proof.
  intros.
  replace (1 + off - 1) with off by lia.
  replace (1 + off + d - (1 + off)) with d by lia.
  replace (n + 1 - (1 + off + d)) with (n - off - d) by lia.
  replace n with (off + (d + (n - off - d))) at 1 by lia.
  rewrite seqZ_app by lia. rewrite seqZ_app by lia.
  reflexivity.
Qed.

Lemma fst_bind_pairs {B} (n : Z) (a b : Z -> B) (l : list Z) :
  (l ≫= fun i => [(i, a i); (n + i, b i)]).*1 = l ≫= fun i => [i; n + i].
Proof. induction l as [|i l IH]; [done|]. rewrite !bind_cons, fmap_app, IH. done. Qed.

Ltac decide_Z :=
  repeat match goal with
  | |- context [?a =? ?b] => destruct (Z.eqb_spec a b); try lia
  | |- context [?a <=? ?b] => destruct (Z.leb_spec a b); try lia
  | |- context [?a <? ?b] => destruct (Z.ltb_spec a b); try lia
  end; cbn [andb negb orb].

(** The run of [forward] into a point set that fits: it returns, and the
    storage holds the layout of the spec. *)
Lemma forward_run N (g : Gaussian_ Real) (n off : Z) (ps : PointSet Real) :
  0 <= off -> 0 <= dimension g -> off + dimension g <= n ->
  fits N n ps ->
  forward NDEBUG alpha_ beta_ kappa_ N g n off ps
  = (Returned tt,
     mkPointSet (sigma_point alpha_ beta_ kappa_ g n off <$> seqZ 0 (2 * n + 1))
                (written ps ++ forward_trace n)).
Proof.
  intros Hoff Hd Hn Hfix.
  unfold forward. rewrite number_of_points_eq.
  unfold bind at 1. unfold assert.
  replace (0 <? 2 * n + 1) with true by (symmetry; apply Z.ltb_lt; lia).
  rewrite orb_true_r.
  unfold bind at 1.
  replace (IsFixed N && negb (N =? 2 * n + 1)) with false.
  2:{ destruct (IsFixed N) eqn:EF; [|done]. destruct (Hfix EF) as [-> _].
      by rewrite Z.eqb_refl. }
  unfold ret at 1.
  destruct (resize_run N (2 * n + 1) ps) as (pts & Hres & Hlen);
    [lia|intros EF; destruct (Hfix EF); lia|].
  unfold bind at 1. rewrite Hres.
  unfold bind at 1. unfold point at 1. cbn [points written].
  replace ((0 <=? 0) && (0 <? Z.of_nat (length pts))) with true
    by (symmetry; apply andb_true_iff; split; [apply Z.leb_le|apply Z.ltb_lt]; lia).
  unfold for_loop.
  unfold bind at 1. rewrite for_each_pairs.
  2:{ intros i Hi. apply elem_of_seqZ in Hi. cbn [points]. rewrite length_insert. lia. }
  cbn [points written].
  unfold bind at 1. rewrite for_each_pairs.
  2:{ intros i Hi. apply elem_of_seqZ in Hi. cbn [points].
      rewrite put_length, length_insert. lia. }
  cbn [points written].
  rewrite for_each_pairs.
  2:{ intros i Hi. apply elem_of_seqZ in Hi. cbn [points].
      rewrite !put_length, length_insert. lia. }
  cbn [points written].
  f_equal. f_equal.
  - rewrite <- !put_app.
    match goal with |- put ?ws (<[Z.to_nat 0 := ?e]> pts) = ?rhs =>
      change (put ((0, e) :: ws) pts = rhs) end.
    apply put_covering; [| |done].
    + intros w Hw. apply elem_of_cons in Hw as [->|Hw]; [reflexivity|].
      rewrite !elem_of_app in Hw.
      destruct Hw as [Hw|[Hw|Hw]]; apply list_elem_of_bind in Hw as (i & Hw & Hi);
        apply elem_of_seqZ in Hi;
        apply elem_of_cons in Hw as [->|Hw];
        try (apply list_elem_of_singleton in Hw as ->);
        unfold sigma_point; cbn [fst snd]; decide_Z; try reflexivity;
        repeat f_equal; lia.
    + rewrite fmap_cons, !fmap_app, !fst_bind_pairs, <- !bind_app.
      rewrite <- segments by done. cbn [fst].
      apply (forward_trace_perm n). lia.
  - rewrite <- !app_assoc. f_equal. simpl. unfold forward_trace. f_equal.
    rewrite (segments n off (dimension g)) by done.
    by rewrite !bind_app.
Qed.
(** C5: for a belief of dimension [d] embedded at [off] into the global
    dimension [n], [off + d <= n], the call returns with exactly [2 n + 1]
    points: point 0 is the mean with weights (w_mean_0, w_cov_0); for each
    coordinate [j] of the belief's range [off <= j < off + d] the points
    at index [i = j + 1] and at [n + i] are the pair
    [mean ± column (j - off)] of [square_root * gamma], with weights
    (w_mean_i, w_cov_i); every other index holds the mean with weights
    (w_mean_i, w_cov_i); and the indices written are [0 .. 2 n], each
    once. *)
Theorem forward_layout N (g : Gaussian_ Real) (n off : Z) (ps : PointSet Real) :
  0 <= off -> 0 <= dimension g -> off + dimension g <= n ->
  fits N n ps ->
  let dim := of_int n in
  let w_0 := mkWeight (weight_mean_0 alpha_ kappa_ dim) (weight_cov_0 alpha_ beta_ kappa_ dim) in
  let w_i := mkWeight (weight_mean_i alpha_ kappa_ dim) (weight_cov_i alpha_ kappa_ dim) in
  let scaled_sqrt := mscale_r (square_root g) (gamma_factor alpha_ kappa_ dim) in
  exists ps',
    forward NDEBUG alpha_ beta_ kappa_ N g n off ps = (Returned tt, ps')
    /\ Z.of_nat (length (points ps')) = 2 * n + 1
    /\ points ps' !! 0%nat = Some (mean g, w_0)
    /\ (forall j, off <= j < off + dimension g ->
          points ps' !! Z.to_nat (j + 1)
            = Some (vadd (mean g) (col scaled_sqrt (j - off)), w_i)
          /\ points ps' !! Z.to_nat (n + (j + 1))
            = Some (vsub (mean g) (col scaled_sqrt (j - off)), w_i))
    /\ (forall i, 1 <= i <= n -> ~ (off <= i - 1 < off + dimension g) ->
          points ps' !! Z.to_nat i = Some (mean g, w_i)
          /\ points ps' !! Z.to_nat (n + i) = Some (mean g, w_i))
    /\ exists trace, written ps' = written ps ++ trace /\ trace ≡ₚ seqZ 0 (2 * n + 1).
Proof.
  intros Hoff Hd Hn Hfit dim w_0 w_i scaled_sqrt.
  eexists. split; [apply forward_run; done|]. cbn [points written].
  assert (Hat : forall k, 0 <= k <= 2 * n ->
            (sigma_point alpha_ beta_ kappa_ g n off <$> seqZ 0 (2 * n + 1)) !! Z.to_nat k
            = Some (sigma_point alpha_ beta_ kappa_ g n off k)).
  { intros k Hk. rewrite list_lookup_fmap, lookup_seqZ_lt by lia.
    simpl. do 2 f_equal. lia. }
  split; [rewrite length_fmap, length_seqZ; lia|].
  split; [apply (Hat 0); lia|].
  split; [|split].
  - intros j Hj. rewrite !Hat by lia. unfold sigma_point.
    split; decide_Z; subst scaled_sqrt w_i dim;
      (replace (j + 1 - off - 1) with (j - off) by lia);
      (try replace (n + (j + 1) - n - off - 1) with (j - off) by lia); reflexivity.
  - intros i Hi Hout. rewrite !Hat by lia. unfold sigma_point.
    split; decide_Z; try reflexivity.
    all: exfalso; apply Hout; lia.
  - exists (forward_trace n). split; [done|]. apply forward_trace_perm. lia.
Qed.

Lemma bind_not_wrong_size {A B} (m : M Real A) (k : A -> M Real B) :
  (forall ps ps', m ps <> (Thrown WrongSizeException, ps')) ->
  (forall a ps ps', k a ps <> (Thrown WrongSizeException, ps')) ->
  forall ps ps', bind m k ps <> (Thrown WrongSizeException, ps').
Proof.
  intros Hm Hk ps ps'. unfold bind.
  destruct (m ps) as [[a|e| |] ps1] eqn:E; [apply Hk| |done|done].
  intros [= -> ->]. by apply (Hm ps ps').
Qed.

Lemma point_not_wrong_size i p w (ps ps' : PointSet Real) :
  point i p w ps <> (Thrown WrongSizeException, ps').
Proof. unfold point. by destruct (_ && _). Qed.

Lemma resize_not_wrong_size N pc (ps ps' : PointSet Real) :
  resize N pc ps <> (Thrown WrongSizeException, ps').
Proof. unfold resize. destruct (_ =? _); [done|]. by destruct (IsFixed N). Qed.

Lemma for_each_not_wrong_size (l : list Z) (body : Z -> M Real unit) :
  (forall i ps ps', body i ps <> (Thrown WrongSizeException, ps')) ->
  forall ps ps', for_each l body ps <> (Thrown WrongSizeException, ps').
Proof.
  intros Hb. induction l as [|i l IH]; [done|].
  cbn [for_each]. apply bind_not_wrong_size; [apply Hb|intros _; apply IH].
Qed.

(** C7: in a call of [forward] with a point set of fixed capacity [N]
    (whose assertion on the point count holds or is compiled out), if [N]
    is not [2 global_dimension + 1] the call throws [WrongSizeException]
    and the point set, its write log included, is as before the call;
    otherwise the call does not throw [WrongSizeException]. *)
Theorem forward_size_mismatch N (g : Gaussian_ Real) (n off : Z) (ps : PointSet Real) :
  IsFixed N = true ->
  NDEBUG = true \/ 0 < 2 * n + 1 ->
  (N <> 2 * n + 1 ->
     forward NDEBUG alpha_ beta_ kappa_ N g n off ps = (Thrown WrongSizeException, ps))
  /\ (N = 2 * n + 1 ->
     forall ps', forward NDEBUG alpha_ beta_ kappa_ N g n off ps
                 <> (Thrown WrongSizeException, ps')).
Proof.
  intros Hfixed Hassert.
  assert (Ha : NDEBUG || (0 <? 2 * n + 1) = true).
  { destruct Hassert as [->|Hpos]; [done|].
    apply orb_true_iff; right. by apply Z.ltb_lt. }
  split.
  - intros Hne. unfold forward. rewrite number_of_points_eq.
    unfold bind at 1. unfold assert. rewrite Ha.
    unfold bind at 1. rewrite Hfixed.
    apply Z.eqb_neq in Hne. rewrite Hne. reflexivity.
  - intros -> ps'. unfold forward. rewrite number_of_points_eq.
    apply bind_not_wrong_size; [intros ps0 ps1; unfold assert; by destruct (_ || _)|].
    intros _. apply bind_not_wrong_size.
    { intros ps0 ps1. by rewrite Z.eqb_refl, andb_false_r. }
    intros _. apply bind_not_wrong_size; [apply resize_not_wrong_size|].
    intros _. apply bind_not_wrong_size; [apply point_not_wrong_size|].
    intros _. unfold for_loop.
    repeat (apply bind_not_wrong_size; [|intros _]);
      apply for_each_not_wrong_size; intros i;
      (apply bind_not_wrong_size; [|intros _]); apply point_not_wrong_size.
Qed.
End UnscentedTransformFacts.

(** A point set of fixed capacity three, not yet filled. *)
Lemma forward_layout_witness :
  exists ps',
    UnscentedTransform.forward false (Fin 1) (Fin 2) (Fin 0) 3
      (finite_belief 1 [0%R] [[1%R]]) 1 0
      (mkPointSet (replicate 3 ([], mkWeight (Fin 0) (Fin 0))) [])
    = (Returned tt, ps')
    /\ Z.of_nat (length (points ps')) = 3.
Proof.
  destruct (forward_layout false (Fin 1) (Fin 2) (Fin 0) 3 (finite_belief 1 [0%R] [[1%R]]) 1 0
              (mkPointSet (replicate 3 ([], mkWeight (Fin 0) (Fin 0))) []))
    as (ps' & Hrun & Hlen & _).
  - lia.
  - cbn. lia.
  - cbn. lia.
  - intros _. split; reflexivity.
  - exists ps'. split; [exact Hrun|exact Hlen].
Defined.

Lemma forward_size_mismatch_witness :
  UnscentedTransform.forward false (Fin 1) (Fin 2) (Fin 0) 5
    (finite_belief 1 [0%R] [[1%R]]) 1 0
    (mkPointSet (replicate 5 ([], mkWeight (Fin 0) (Fin 0))) [])
  = (Thrown WrongSizeException, mkPointSet (replicate 5 ([], mkWeight (Fin 0) (Fin 0))) []).
Proof.
  apply (forward_size_mismatch false (Fin 1) (Fin 2) (Fin 0) 5
           (finite_belief 1 [0%R] [[1%R]]) 1 0).
  - reflexivity.
  - right. lia.
  - lia.
Defined.

(** Three states at offset 0 and one noise coordinate at offset 3, in the
    global dimension 4: nine points, written in this order. *)
Example number_of_points_4 : UnscentedTransform.number_of_points 4 = 9.
Proof. reflexivity. Qed.

Example forward_trace_4 : forward_trace 4 = [0; 1; 5; 2; 6; 3; 7; 4; 8].
Proof. reflexivity. Qed.

(** The noise belief of dimension one at offset 1 of the global dimension
    2 shifts the points 2 and 4 only. *)
Example noise_points_at_offset :
  (sigma_point (Fin 1) (Fin 2) (Fin 0) (finite_belief 1 [0%R] [[1%R]]) 2 1 <$> seqZ 0 5).*1
  = [[Fin 0]; [Fin 0];
     [XR.add (Fin 0) (XR.mul (Fin 1) (spec_gamma (Fin 1) (Fin 0) (of_int 2)))];
     [Fin 0];
     [XR.sub (Fin 0) (XR.mul (Fin 1) (spec_gamma (Fin 1) (Fin 0) (of_int 2)))]].
Proof. reflexivity. Qed.

(* ===================================================================== *)
(** * The generated points in exact arithmetic *)
(* ===================================================================== *)

(** ** Finite scalars are closed under the coefficient-wise operations *)
Section Transport.
Lemma vadd_fin u v : vadd (fin_vec u) (fin_vec v) = fin_vec (zip_with Rplus u v).
Proof.
  unfold vadd, fin_vec. revert v; induction u as [|a u IH]; intros [|b v]; simpl; try done.
  by rewrite IH.
Qed.

Lemma vsub_fin u v : vsub (fin_vec u) (fin_vec v) = fin_vec (zip_with Rminus u v).
Proof.
  unfold vsub, fin_vec. revert v; induction u as [|a u IH]; intros [|b v]; simpl; try done.
  by rewrite IH.
Qed.

Lemma vscale_fin c v : vscale (Fin c) (fin_vec v) = fin_vec (Rmult c <$> v).
Proof. unfold vscale, fin_vec. rewrite <- !list_fmap_compose. done. Qed.

Lemma vzero_fin n : vzero n = fin_vec (replicate n 0%R).
Proof. unfold vzero, fin_vec. by rewrite fmap_replicate. Qed.

Lemma mzero_fin r c : mzero r c = fin_mat (replicate c (replicate r 0%R)).
Proof. unfold mzero, fin_mat. by rewrite fmap_replicate, vzero_fin. Qed.

Lemma madd_fin a b : madd (fin_mat a) (fin_mat b) = fin_mat (zip_with (zip_with Rplus) a b).
Proof.
  unfold madd, fin_mat. revert b; induction a as [|x a IH]; intros [|y b]; simpl; try done.
  by rewrite IH, vadd_fin.
Qed.

Lemma mscale_fin c m : mscale (Fin c) (fin_mat m) = fin_mat ((fun v : list R => Rmult c <$> v) <$> m).
Proof.
  unfold mscale, fin_mat. rewrite <- !list_fmap_compose.
  apply list_fmap_ext. intros i v _. simpl. apply vscale_fin.
Qed.

Lemma outer_fin u v :
  outer (fin_vec u) (fin_vec v) = fin_mat ((fun y => (fun x => x * y)%R <$> u) <$> v).
Proof.
  unfold outer, fin_mat, fin_vec. rewrite <- !list_fmap_compose.
  apply list_fmap_ext. intros i y _. simpl. rewrite <- !list_fmap_compose. done.
Qed.

Lemma mscale_r_fin m c :
  mscale_r (fin_mat m) (Fin c) = fin_mat ((fun v : list R => (fun x => x * c)%R <$> v) <$> m).
Proof.
  unfold mscale_r, fin_mat, fin_vec. rewrite <- !list_fmap_compose.
  apply list_fmap_ext. intros i y _. simpl. rewrite <- !list_fmap_compose. done.
Qed.

Lemma col_fin (m : list (list R)) j : col (fin_mat m) j = fin_vec (col m j).
Proof.
  unfold col, fin_mat. destruct (j <? 0); [done|].
  rewrite list_lookup_fmap. by destruct (m !! Z.to_nat j).
Qed.

Lemma dimension_of_fin (es : list (list R * (R * R))) w :
  dimension_of (mkPointSet (fin_entry <$> es) w)
  = match es with [] => 0%nat | e :: _ => length e.1 end.
Proof.
  unfold dimension_of. destruct es as [|[p ?] es]; simpl; [done|].
  unfold fin_vec. by rewrite length_fmap.
Qed.

(** A fold whose steps keep the image of [inj] stays in it. *)
Lemma foldl_transport {A B C} (inj : A -> B) (f : B -> C -> B) (fR : A -> C -> A) l a :
  (forall a c, f (inj a) c = inj (fR a c)) ->
  foldl f (inj a) l = inj (foldl fR a l).
Proof.
  intros Hf. revert a; induction l as [|c l IH]; intros a; simpl; [done|].
  by rewrite Hf, IH.
Qed.

Lemma PointSet_mean_fin es w d :
  d = match es with [] => 0%nat | e :: _ => length e.1 end ->
  PointSet_mean (mkPointSet (fin_entry <$> es) w) = fin_vec (meanR d es).
Proof.
  intros ->. unfold PointSet_mean, meanR. rewrite dimension_of_fin. cbn [points].
  rewrite foldl_fmap, vzero_fin.
  apply (foldl_transport fin_vec).
  intros a [p [wm wc]]. cbn [fin_entry fst snd w_mean].
  by rewrite vscale_fin, vadd_fin.
Qed.

Lemma zip_fmap_same {A B C} (f : A -> B) (g : A -> C) (l : list A) :
  zip (f <$> l) (g <$> l) = (fun x => (f x, g x)) <$> l.
Proof. induction l as [|x l IH]; [done|]. rewrite !fmap_cons. simpl. by rewrite IH. Qed.

Lemma covariance_estimate_fin es w d :
  d = match es with [] => 0%nat | e :: _ => length e.1 end ->
  covariance_estimate (mkPointSet (fin_entry <$> es) w) = fin_mat (covR d (meanR d es) es).
Proof.
  intros Hd. unfold covariance_estimate, centered_points, covariance_weights_vector.
  rewrite (PointSet_mean_fin es w d Hd).
  subst d. unfold covR. rewrite dimension_of_fin. cbn [points].
  rewrite zip_fmap_same, !foldl_fmap, mzero_fin.
  apply (foldl_transport fin_mat).
  intros a [p [wm wc]]. cbn [fin_entry fst snd w_cov].
  by rewrite vsub_fin, outer_fin, mscale_fin, madd_fin.
Qed.
End Transport.

(** ** Sums of reals *)
Section Sums.
Local Open Scope R_scope.

Lemma Rsum_cons x l : Rsum (x :: l) = x + Rsum l.
Proof. reflexivity. Qed.

Lemma Rsum_app l1 l2 : Rsum (l1 ++ l2) = Rsum l1 + Rsum l2.
Proof.
  induction l1 as [|x l1 IH]; [unfold Rsum at 2; simpl; lra|].
  rewrite <- app_comm_cons, !Rsum_cons, IH. lra.
Qed.

Lemma Rsum_fmap_plus {A} (f g : A -> R) l :
  Rsum (f <$> l) + Rsum (g <$> l) = Rsum ((fun i => f i + g i) <$> l).
Proof.
  induction l as [|x l IH]; [unfold Rsum; simpl; lra|].
  rewrite !fmap_cons, !Rsum_cons, <- IH. lra.
Qed.

Lemma Rsum_fmap_scal {A} (c : R) (f : A -> R) l :
  Rsum ((fun i => c * f i) <$> l) = c * Rsum (f <$> l).
Proof.
  induction l as [|x l IH]; [unfold Rsum; simpl; lra|].
  rewrite !fmap_cons, !Rsum_cons, IH. lra.
Qed.

Lemma Rsum_fmap_const {A} (c : R) (l : list A) :
  Rsum ((fun _ => c) <$> l) = INR (length l) * c.
Proof.
  induction l as [|x l IH]; [unfold Rsum; simpl; lra|].
  rewrite fmap_cons, Rsum_cons, IH.
  change (length (x :: l)) with (S (length l)). rewrite S_INR. lra.
Qed.

Lemma Rsum_fmap_ext {A} (f g : A -> R) l :
  (forall x, x ∈ l -> f x = g x) -> Rsum (f <$> l) = Rsum (g <$> l).
Proof.
  intros Hfg. f_equal. apply list_fmap_ext. intros i x Hx. apply Hfg.
  by apply list_elem_of_lookup_2 in Hx.
Qed.

Lemma foldl_Rsum {A} (f : A -> R) l a :
  foldl (fun acc e => acc + f e) a l = a + Rsum (f <$> l).
Proof.
  revert a; induction l as [|x l IH]; intros a; [unfold Rsum; simpl; lra|].
  rewrite fmap_cons, Rsum_cons. cbn [foldl]. rewrite IH. lra.
Qed.

(** A sum over the indices [0 .. 2 n] of a point set, by pairs. *)
Lemma Rsum_indices (F : Z -> R) (n : Z) :
  (0 <= n)%Z ->
  Rsum (F <$> seqZ 0 (2 * n + 1)) = F 0%Z + Rsum ((fun i => F i + F (n + i)%Z) <$> seqZ 1 n).
Proof.
  intros Hn.
  replace (2 * n + 1)%Z with (1 + (n + n))%Z by lia.
  rewrite (seqZ_app 0 1 (n + n)) by lia.
  rewrite (seqZ_app (0 + 1) n n) by lia.
  change (seqZ 0 1) with [0%Z]. rewrite !fmap_app, !Rsum_app.
  replace (0 + 1 + n)%Z with (n + 1)%Z by lia.
  rewrite <- (fmap_add_seqZ n 1 n), <- list_fmap_compose.
  rewrite <- Rsum_fmap_plus.
  change (F <$> [0%Z]) with [F 0%Z]. rewrite Rsum_cons. unfold Rsum at 1. simpl.
  assert (E : Rsum (F ∘ Z.add n <$> seqZ 1 n) = Rsum ((fun i => F (n + i)%Z) <$> seqZ 1 n))
    by reflexivity.
  rewrite E. change (0 + 1)%Z with 1%Z. lra.
Qed.
Lemma INR_length_seqZ (n : Z) : (0 <= n)%Z -> INR (length (seqZ 1 n)) = IZR n.
Proof. intros Hn. rewrite length_seqZ, INR_IZR_INZ, Z2Nat.id by lia. done. Qed.
End Sums.

(** ** Coordinates of the mean and of the covariance estimate *)
Section MeanCov.
Local Open Scope R_scope.

Lemma meanR_step_lookup (acc p : list R) (w : R) (r : nat) (x : R) :
  acc !! r = Some x -> (r < length p)%nat ->
  zip_with Rplus acc (Rmult w <$> p) !! r = Some (x + w * nth r p 0).
Proof.
  intros Hacc Hr. rewrite lookup_zip_with, Hacc. simpl.
  rewrite list_lookup_fmap.
  destruct (lookup_lt_is_Some_2 p r Hr) as [y Hy].
  rewrite Hy. simpl. by rewrite (nth_lookup_Some _ _ _ _ Hy).
Qed.

Lemma meanR_lookup (d : nat) (es : list (list R * (R * R))) (r : nat) :
  (r < d)%nat -> Forall (fun e => length e.1 = d) es ->
  meanR d es !! r = Some (Rsum ((fun e => e.2.1 * nth r e.1 0) <$> es)).
Proof.
  intros Hr Hes. unfold meanR.
  assert (Hgen : forall acc x, acc !! r = Some x ->
            foldl (fun acc e => zip_with Rplus acc (Rmult e.2.1 <$> e.1)) acc es !! r
            = Some (x + Rsum ((fun e => e.2.1 * nth r e.1 0) <$> es))).
  { induction Hes as [|e es He Hes IH]; intros acc x Hacc.
    - simpl. rewrite Hacc. f_equal. unfold Rsum. simpl. lra.
    - rewrite fmap_cons, Rsum_cons. cbn [foldl].
      rewrite (IH _ (x + e.2.1 * nth r e.1 0)).
      + f_equal. lra.
      + apply meanR_step_lookup; [done|lia]. }
  rewrite (Hgen _ 0).
  - f_equal. lra.
  - by apply lookup_replicate_2.
Qed.

Lemma meanR_length (d : nat) (es : list (list R * (R * R))) :
  Forall (fun e => length e.1 = d) es -> length (meanR d es) = d.
Proof.
  intros Hes. unfold meanR.
  assert (Hgen : forall acc, length acc = d ->
            length (foldl (fun acc e => zip_with Rplus acc (Rmult e.2.1 <$> e.1)) acc es) = d).
  { induction Hes as [|e es He Hes IH]; intros acc Hacc; simpl; [done|].
    apply IH. rewrite length_zip_with, length_fmap. lia. }
  apply Hgen, length_replicate.
Qed.

Lemma covR_step_entry (acc : list (list R)) (x : list R) (w : R) (c r : nat) (v : R) :
  entry acc c r = Some v -> (r < length x)%nat -> (c < length x)%nat ->
  entry (zip_with (zip_with Rplus) acc
           ((fun v : list R => Rmult w <$> v) <$> ((fun y => (fun x => x * y) <$> x) <$> x))) c r
  = Some (v + w * (nth r x 0 * nth c x 0)).
Proof.
  unfold entry. intros Hacc Hr Hc.
  destruct (acc !! c) as [col|] eqn:Ecol; [|done]. simpl in Hacc.
  rewrite lookup_zip_with, Ecol. simpl.
  rewrite !list_lookup_fmap.
  destruct (lookup_lt_is_Some_2 x c Hc) as [xc Hxc].
  destruct (lookup_lt_is_Some_2 x r Hr) as [xr Hxr].
  rewrite Hxc. simpl.
  rewrite lookup_zip_with, Hacc. simpl.
  rewrite !list_lookup_fmap, Hxr. simpl.
  by rewrite (nth_lookup_Some _ _ _ _ Hxc), (nth_lookup_Some _ _ _ _ Hxr).
Qed.

Lemma covR_entry (d : nat) (mu : list R) (es : list (list R * (R * R))) (c r : nat) :
  (r < d)%nat -> (c < d)%nat -> length mu = d -> Forall (fun e => length e.1 = d) es ->
  entry (covR d mu es) c r
  = Some (Rsum ((fun e => e.2.2 * ((nth r e.1 0 - nth r mu 0) * (nth c e.1 0 - nth c mu 0)))
                  <$> es)).
Proof.
  intros Hr Hc Hmu Hes. unfold covR.
  assert (Hnth : forall (p : list R) i, length p = d -> (i < d)%nat ->
            nth i (zip_with Rminus p mu) 0 = nth i p 0 - nth i mu 0).
  { intros p i Hp Hi.
    destruct (lookup_lt_is_Some_2 p i ltac:(lia)) as [y Hy].
    destruct (lookup_lt_is_Some_2 mu i ltac:(lia)) as [z Hz].
    rewrite (nth_lookup_Some _ _ _ _ Hy), (nth_lookup_Some _ _ _ _ Hz).
    apply nth_lookup_Some. rewrite lookup_zip_with, Hy. simpl. by rewrite Hz. }
  match goal with |- entry (foldl ?f _ _) _ _ = _ =>
    assert (Hgen : forall acc v, entry acc c r = Some v ->
              entry (foldl f acc es) c r
              = Some (v + Rsum ((fun e => e.2.2 * ((nth r e.1 0 - nth r mu 0)
                                                   * (nth c e.1 0 - nth c mu 0))) <$> es)))
  end.
  { induction Hes as [|e es He Hes IH]; intros acc v Hacc.
    - simpl. rewrite Hacc. f_equal. unfold Rsum. simpl. lra.
    - rewrite fmap_cons, Rsum_cons. cbn [foldl]. erewrite IH.
      2:{ apply covR_step_entry; [exact Hacc| |]; rewrite length_zip_with; lia. }
      f_equal. rewrite !Hnth by done. lra. }
  rewrite (Hgen _ 0).
  - f_equal. lra.
  - unfold entry. rewrite lookup_replicate_2 by done. simpl. by apply lookup_replicate_2.
Qed.

Lemma covR_shape (d : nat) (mu : list R) (es : list (list R * (R * R))) :
  length mu = d -> Forall (fun e => length e.1 = d) es ->
  length (covR d mu es) = d /\ Forall (fun v => length v = d) (covR d mu es).
Proof.
  intros Hmu Hes. unfold covR.
  match goal with |- length (foldl ?f _ _) = _ /\ _ =>
    assert (Hgen : forall acc, length acc = d /\ Forall (fun v => length v = d) acc ->
              length (foldl f acc es) = d /\ Forall (fun v => length v = d) (foldl f acc es))
  end.
  { induction Hes as [|e es He Hes IH]; intros acc [Hl Hf]; simpl; [done|].
    apply IH. split.
    - rewrite length_zip_with, !length_fmap, length_zip_with. lia.
    - apply Forall_lookup. intros i v Hv.
      apply lookup_zip_with_Some in Hv as (u & t & -> & Hu & Ht).
      rewrite length_zip_with.
      rewrite (Forall_lookup_1 _ _ _ _ Hf Hu).
      rewrite !list_lookup_fmap in Ht.
      destruct (zip_with Rminus e.1 mu !! i) eqn:E; [|done].
      simpl in Ht. injection Ht as <-.
      rewrite !length_fmap, length_zip_with. lia. }
  apply Hgen. split; [apply length_replicate|].
  apply Forall_replicate. apply length_replicate.
Qed.
End MeanCov.

(** ** The weights, for finite parameters and [n + lambda] other than zero *)
Section ExactWeights.
Variables (a b k : R) (n : Z).
Hypothesis scale_nonzero : (IZR n + lamR a k n <> 0)%R.

Local Notation "'lam_'" := (lamR a k n).
Local Notation "'w0_'" := (w0R a k n).
Local Notation "'wc0_'" := (wc0R a b k n).
Local Notation "'wi_'" := (wiR a k n).

Lemma div_fin x y : y <> 0%R -> XR.div (Fin x) (Fin y) = Fin (x / y).
Proof. intros Hy. unfold XR.div. by destruct (Req_dec_T y 0). Qed.

Lemma sqrt_fin x : (0 <= x)%R -> XR.sqrt (Fin x) = Fin (sqrt x).
Proof. intros Hx. unfold XR.sqrt. destruct (Rlt_dec x 0); [lra|done]. Qed.

Lemma spec_lambda_fin : spec_lambda (Fin a) (Fin k) (of_int n) = Fin lam_.
Proof. reflexivity. Qed.

Lemma spec_w_mean_0_fin : spec_w_mean_0 (Fin a) (Fin k) (of_int n) = Fin w0_.
Proof.
  unfold spec_w_mean_0. rewrite spec_lambda_fin.
  change (fdiv (Fin lam_) (fadd (of_int n) (Fin lam_)))
    with (XR.div (Fin lam_) (Fin (IZR n + lam_))).
  by apply div_fin.
Qed.

Lemma spec_w_cov_0_fin : spec_w_cov_0 (Fin a) (Fin b) (Fin k) (of_int n) = Fin wc0_.
Proof. unfold spec_w_cov_0. rewrite spec_w_mean_0_fin. reflexivity. Qed.

Lemma spec_w_i_fin : spec_w_i (Fin a) (Fin k) (of_int n) = Fin wi_.
Proof.
  unfold spec_w_i. rewrite spec_lambda_fin.
  change (fdiv (of_int 1) (fmul (of_int 2) (fadd (of_int n) (Fin lam_))))
    with (XR.div (Fin 1) (Fin (2 * (IZR n + lam_)))).
  apply div_fin. lra.
Qed.

Lemma weights_total : (w0_ + IZR n * (2 * wi_) = 1)%R.
Proof. unfold w0R, wiR. by field. Qed.

(** The mean weight at an index does not depend on the point there. *)
Lemma sigma_point_w_mean (g : Gaussian_ XReal) (off kidx : Z) :
  w_mean (sigma_point (Fin a) (Fin b) (Fin k) g n off kidx).2
  = Fin (if kidx =? 0 then w0_ else wi_).
Proof.
  unfold sigma_point. rewrite spec_w_mean_0_fin, spec_w_i_fin.
  by destruct (kidx =? 0).
Qed.

(** The mean weights of the layout sum to one. *)
Lemma mean_weight_sum_layout (g : Gaussian_ XReal) (off : Z) (log : list Z) :
  0 <= n ->
  mean_weight_sum
    (mkPointSet (sigma_point (Fin a) (Fin b) (Fin k) g n off <$> seqZ 0 (2 * n + 1)) log)
  = Fin 1.
Proof.
  intros Hn. unfold mean_weight_sum. cbn [points]. rewrite foldl_fmap.
  change (of_int 0) with (Fin 0).
  rewrite (foldl_transport Fin _ (fun acc kidx => acc + (if kidx =? 0 then w0_ else wi_))%R).
  2:{ intros acc kidx. by rewrite sigma_point_w_mean. }
  f_equal.
  rewrite (foldl_Rsum (fun kidx : Z => if kidx =? 0 then w0_ else wi_)).
  rewrite (Rsum_indices _ n Hn).
  rewrite (Rsum_fmap_ext _ (fun _ => 2 * wi_)%R).
  2:{ intros i Hi. apply elem_of_seqZ in Hi.
      destruct (Z.eqb_spec i 0); [lia|]. destruct (Z.eqb_spec (n + i) 0); [lia|]. lra. }
  rewrite Rsum_fmap_const, INR_length_seqZ by done. cbn [Z.eqb].
  pose proof weights_total. lra.
Qed.
End ExactWeights.

(** ** The layout, for finite parameters and [0 < n + lambda] *)
Section Exact.
Variables (a b k : R) (n off : Z) (d : nat) (m : list R) (s : list (list R)).
Hypothesis scale_pos : (0 < IZR n + lamR a k n)%R.
Hypothesis shaped : well_shaped d m s.
Hypothesis off_nonneg : 0 <= off.
Hypothesis in_global : off + Z.of_nat d <= n.

Local Notation "'lam_'" := (lamR a k n).
Local Notation "'w0_'" := (w0R a k n).
Local Notation "'wc0_'" := (wc0R a b k n).
Local Notation "'wi_'" := (wiR a k n).
Local Notation "'gam_'" := (gamR a k n).
Local Notation "'entry_'" := (entryR a b k n off d m s).
Local Notation "'in_range_'" := (in_range off d).
Local Notation "'shift_'" := (shiftR a k n off d s).

Lemma scale_nonzero : (IZR n + lam_ <> 0)%R.
Proof. lra. Qed.

Lemma spec_gamma_fin : spec_gamma (Fin a) (Fin k) (of_int n) = Fin gam_.
Proof.
  unfold spec_gamma. rewrite spec_lambda_fin.
  change (std_sqrt (fadd (of_int n) (Fin lam_))) with (XR.sqrt (Fin (IZR n + lam_))).
  apply sqrt_fin. lra.
Qed.

Lemma sigma_point_fin kidx :
  sigma_point (Fin a) (Fin b) (Fin k) (finite_belief d m s) n off kidx
  = fin_entry (entry_ kidx).
Proof.
  unfold sigma_point, entryR.
  rewrite (spec_w_mean_0_fin a k n scale_nonzero), (spec_w_cov_0_fin a b k n scale_nonzero),
    (spec_w_i_fin a k n scale_nonzero), spec_gamma_fin.
  cbn [finite_belief dimension mean square_root].
  destruct (kidx =? 0); [reflexivity|].
  destruct ((off <? (if kidx <=? n then kidx else kidx - n))
            && ((if kidx <=? n then kidx else kidx - n) <=? off + Z.of_nat d));
    [|reflexivity].
  rewrite mscale_r_fin, col_fin.
  destruct (kidx <=? n); unfold fin_entry; cbn [fst snd];
    [rewrite <- vadd_fin|rewrite <- vsub_fin]; reflexivity.
Qed.
Lemma col_length j : 0 <= j < Z.of_nat d -> length (col s j) = d.
Proof.
  intros Hj. destruct shaped as (_ & Hs & Hcols). unfold col.
  destruct (Z.ltb_spec j 0); [lia|].
  destruct (lookup_lt_is_Some_2 s (Z.to_nat j) ltac:(lia)) as [c Hc].
  rewrite Hc. simpl. exact (Forall_lookup_1 _ _ _ _ Hcols Hc).
Qed.

Lemma col_scaled j :
  col ((fun v : list R => (fun x => x * gam_)%R <$> v) <$> s) j
  = (fun x => x * gam_)%R <$> col s j.
Proof.
  unfold col. destruct (j <? 0); [done|].
  rewrite list_lookup_fmap. by destruct (s !! Z.to_nat j).
Qed.

Lemma entryR_length kidx : length (entry_ kidx).1 = d.
Proof.
  destruct shaped as (Hm & _). unfold entryR.
  destruct (kidx =? 0); [done|]. cbn [fst].
  set (i := if kidx <=? n then kidx else kidx - n).
  destruct (Z.ltb_spec off i); cbn [andb]; [|done].
  destruct (Z.leb_spec i (off + Z.of_nat d)); [|done].
  rewrite col_scaled.
  destruct (kidx <=? n); rewrite length_zip_with, length_fmap, col_length by lia; lia.
Qed.

Lemma entryR_lengths l : Forall (fun e => length e.1 = d) (entry_ <$> l).
Proof. apply Forall_fmap, Forall_forall. intros x _. apply entryR_length. Qed.

Lemma nth_zip_with (f : R -> R -> R) (u v : list R) (r : nat) :
  (r < length u)%nat -> (r < length v)%nat ->
  nth r (zip_with f u v) 0%R = f (nth r u 0%R) (nth r v 0%R).
Proof.
  intros Hu Hv.
  destruct (lookup_lt_is_Some_2 u r Hu) as [x Hx].
  destruct (lookup_lt_is_Some_2 v r Hv) as [y Hy].
  rewrite (nth_lookup_Some _ _ _ _ Hx), (nth_lookup_Some _ _ _ _ Hy).
  apply nth_lookup_Some. rewrite lookup_zip_with, Hx. simpl. by rewrite Hy.
Qed.

Lemma nth_fmap_R (f : R -> R) (u : list R) (r : nat) :
  (r < length u)%nat -> nth r (f <$> u) 0%R = f (nth r u 0%R).
Proof.
  intros Hu. destruct (lookup_lt_is_Some_2 u r Hu) as [x Hx].
  rewrite (nth_lookup_Some _ _ _ _ Hx).
  apply nth_lookup_Some. by rewrite list_lookup_fmap, Hx.
Qed.

Lemma entryR_zero : entry_ 0 = (m, (w0_, wc0_)).
Proof. reflexivity. Qed.

Lemma entryR_weights i :
  1 <= i <= n -> (entry_ i).2 = (wi_, wi_) /\ (entry_ (n + i)).2 = (wi_, wi_).
Proof.
  intros Hi. unfold entryR.
  destruct (Z.eqb_spec i 0); [lia|]. destruct (Z.eqb_spec (n + i) 0); [lia|]. done.
Qed.

Lemma entryR_plus i r :
  1 <= i <= n -> (r < d)%nat ->
  nth r (entry_ i).1 0%R = (nth r m 0 + shift_ i r)%R.
Proof.
  intros Hi Hr. destruct shaped as (Hm & _). unfold entryR, shiftR, in_range.
  destruct (Z.eqb_spec i 0); [lia|].
  destruct (Z.leb_spec i n); [|lia]. cbn [fst].
  destruct (Z.ltb_spec off i); cbn [andb]; [|lra].
  destruct (Z.leb_spec i (off + Z.of_nat d)); [|lra].
  rewrite col_scaled, nth_zip_with, nth_fmap_R;
    rewrite ?length_fmap, ?col_length; try lia. done.
Qed.

Lemma entryR_minus i r :
  1 <= i <= n -> (r < d)%nat ->
  nth r (entry_ (n + i)).1 0%R = (nth r m 0 - shift_ i r)%R.
Proof.
  intros Hi Hr. destruct shaped as (Hm & _). unfold entryR, shiftR, in_range.
  destruct (Z.eqb_spec (n + i) 0); [lia|].
  destruct (Z.leb_spec (n + i) n); [lia|]. cbn [fst].
  replace (n + i - n) with i by lia.
  destruct (Z.ltb_spec off i); cbn [andb]; [|lra].
  destruct (Z.leb_spec i (off + Z.of_nat d)); [|lra].
  rewrite col_scaled, nth_zip_with, nth_fmap_R;
    rewrite ?length_fmap, ?col_length; try lia. done.
Qed.

Lemma n_nonneg : 0 <= n.
Proof. lia. Qed.

(** The weighted mean of the layout is the mean of the belief. *)
Lemma meanR_entries : meanR d (entry_ <$> seqZ 0 (2 * n + 1)) = m.
Proof.
  destruct shaped as (Hm & _).
  apply (list_eq_same_length _ _ d); [done|apply meanR_length, entryR_lengths|].
  intros r x y Hr Hx Hy.
  rewrite meanR_lookup in Hx by (done || apply entryR_lengths).
  injection Hx as <-. rewrite <- (nth_lookup_Some _ _ 0%R _ Hy).
  rewrite <- list_fmap_compose, (Rsum_indices _ n n_nonneg).
  rewrite (Rsum_fmap_ext _ (fun _ => 2 * wi_ * nth r m 0)%R).
  2:{ intros i Hi. apply elem_of_seqZ in Hi. cbn [compose].
      destruct (entryR_weights i) as [-> ->]; [lia|]. cbn [fst].
      rewrite entryR_plus, entryR_minus by (done || lia). lra. }
  rewrite Rsum_fmap_const, INR_length_seqZ by exact n_nonneg.
  cbn [compose]. rewrite entryR_zero. cbn [fst snd].
  pose proof (weights_total a k n scale_nonzero). nra.
Qed.

Lemma cols_of_s : (fun j => col s j) <$> seqZ 0 (Z.of_nat d) = s.
Proof.
  destruct shaped as (_ & Hs & _).
  apply (list_eq_same_length _ _ d); [done|by rewrite length_fmap, length_seqZ, Nat2Z.id|].
  intros j x y Hj Hx Hy.
  rewrite list_lookup_fmap, lookup_seqZ_lt in Hx by lia. simpl in Hx.
  injection Hx as <-. unfold col.
  destruct (Z.ltb_spec (0 + Z.of_nat j) 0); [lia|].
  replace (Z.to_nat (0 + Z.of_nat j)) with j by lia. by rewrite Hy.
Qed.

Lemma gamma_squared : (2 * wi_ * (gam_ * gam_) = 1)%R.
Proof.
  unfold gamR. rewrite sqrt_sqrt by lra. unfold wiR. field. lra.
Qed.

(** The sum of the products of the shifts over the indices [1 .. n]. *)
Lemma shift_products r c :
  Rsum ((fun i => shift_ i r * shift_ i c)%R <$> seqZ 1 n)
  = (gam_ * gam_ * Rsum ((fun sj => nth r sj 0 * nth c sj 0) <$> s))%R.
Proof.
  replace n with (off + (Z.of_nat d + (n - off - Z.of_nat d))) at 1 by lia.
  rewrite seqZ_app by lia. rewrite seqZ_app by lia.
  rewrite !fmap_app, !Rsum_app.
  rewrite (Rsum_fmap_ext _ (fun _ => 0%R) (seqZ 1 off)).
  2:{ intros i Hi. apply elem_of_seqZ in Hi. unfold shiftR, in_range.
      destruct (Z.ltb_spec off i); [lia|]. cbn [andb]. lra. }
  rewrite (Rsum_fmap_ext _ (fun _ => 0%R) (seqZ (1 + off + Z.of_nat d) _)).
  2:{ intros i Hi. apply elem_of_seqZ in Hi. unfold shiftR, in_range.
      destruct (Z.leb_spec i (off + Z.of_nat d)); [lia|]. rewrite andb_false_r. lra. }
  rewrite !Rsum_fmap_const.
  replace (1 + off) with (1 + off + 0) at 1 by lia.
  rewrite <- (fmap_add_seqZ (1 + off) 0), <- list_fmap_compose.
  rewrite (Rsum_fmap_ext _ (fun j => gam_ * gam_ * (nth r (col s j) 0 * nth c (col s j) 0))%R).
  2:{ intros j Hj. apply elem_of_seqZ in Hj. cbn [compose]. unfold shiftR, in_range.
      destruct (Z.ltb_spec off (1 + off + j)); [|lia].
      destruct (Z.leb_spec (1 + off + j) (off + Z.of_nat d)); [|lia]. cbn [andb].
      replace (1 + off + j - off - 1) with j by lia. lra. }
  rewrite Rsum_fmap_scal.
  assert (E : Rsum ((fun sj => nth r sj 0 * nth c sj 0)%R <$> s)
              = Rsum ((fun j => nth r (col s j) 0 * nth c (col s j) 0)%R
                        <$> seqZ 0 (Z.of_nat d))).
  { rewrite <- cols_of_s at 1. by rewrite <- list_fmap_compose. }
  rewrite E. lra.
Qed.

Lemma gram_entry r c :
  (r < d)%nat -> (c < d)%nat ->
  entry (gram s d) c r = Some (Rsum ((fun sj => nth r sj 0 * nth c sj 0)%R <$> s)).
Proof.
  intros Hr Hc. unfold entry, gram.
  rewrite list_lookup_fmap, lookup_seq_lt by done. simpl.
  rewrite list_lookup_fmap, lookup_seq_lt by done. done.
Qed.

Lemma matrix_eq (A B : list (list R)) :
  length A = d -> length B = d ->
  Forall (fun v => length v = d) A -> Forall (fun v => length v = d) B ->
  (forall c r, (c < d)%nat -> (r < d)%nat -> entry A c r = entry B c r) ->
  A = B.
Proof.
  intros HA HB HfA HfB Hent.
  apply (list_eq_same_length _ _ d); [done|done|].
  intros c u v Hc Hu Hv.
  apply (list_eq_same_length _ _ d);
    [exact (Forall_lookup_1 _ _ _ _ HfB Hv)|exact (Forall_lookup_1 _ _ _ _ HfA Hu)|].
  intros r x y Hr Hx Hy.
  specialize (Hent c r Hc Hr). unfold entry in Hent.
  rewrite Hu, Hv in Hent. simpl in Hent. congruence.
Qed.

(** The covariance estimate of the layout is [S * S^T]. *)
Lemma covR_entries : covR d m (entry_ <$> seqZ 0 (2 * n + 1)) = gram s d.
Proof.
  destruct shaped as (Hm & _).
  destruct (covR_shape d m (entry_ <$> seqZ 0 (2 * n + 1)) Hm (entryR_lengths _)) as [Hl Hf].
  apply matrix_eq; [done| | done | |].
  - unfold gram. by rewrite length_fmap, length_seq.
  - unfold gram. apply Forall_fmap, Forall_forall. intros c _. cbn [compose].
    by rewrite length_fmap, length_seq.
  - intros c r Hc Hr.
    rewrite covR_entry by (done || apply entryR_lengths).
    rewrite gram_entry by done. f_equal.
    rewrite <- list_fmap_compose, (Rsum_indices _ n n_nonneg).
    rewrite (Rsum_fmap_ext _ (fun i => 2 * wi_ * (shift_ i r * shift_ i c))%R).
    2:{ intros i Hi. apply elem_of_seqZ in Hi. cbn [compose].
        destruct (entryR_weights i) as [-> ->]; [lia|]. cbn [fst snd].
        rewrite !entryR_plus, !entryR_minus by (done || lia). ring. }
    rewrite Rsum_fmap_scal, shift_products.
    cbn [compose]. rewrite entryR_zero. cbn [fst snd].
    match goal with |- _ = ?S =>
      transitivity (2 * wi_ * (gam_ * gam_) * S)%R; [ring|] end.
    rewrite gamma_squared. ring.
Qed.
End Exact.

(** C6, as amended: for a belief with finite mean and square root and
    finite alpha, beta, kappa, the mean weights of the generated point set
    sum to one when [n + lambda] is not zero; and when [0 < n + lambda],
    its weighted mean is the mean of the belief and its covariance
    estimate [Σ w_cov_i (p_i − mean)(p_i − mean)^T] is
    [square_root * square_root^T]. *)
Theorem sigma_points_reconstruct (NDEBUG : bool) (N : Z) (a b k : R) (n off : Z) (d : nat)
    (m : list R) (s : list (list R)) (ps : PointSet XReal) :
  well_shaped d m s ->
  0 <= off -> off + Z.of_nat d <= n ->
  fits N n ps ->
  (IZR n + (a * a * (IZR n + k) - IZR n) <> 0)%R ->
  exists ps',
    UnscentedTransform.forward NDEBUG (Fin a) (Fin b) (Fin k) N (finite_belief d m s) n off ps
    = (Returned tt, ps')
    /\ mean_weight_sum ps' = Fin 1
    /\ ((0 < IZR n + (a * a * (IZR n + k) - IZR n))%R ->
        PointSet_mean ps' = fin_vec m
        /\ covariance_estimate ps' = fin_mat (gram s d)).
Proof.
  intros Hshape Hoff Hn Hfit Hnz.
  eexists. split.
  { apply forward_run; cbn [finite_belief dimension]; (done || lia). }
  split; [apply (mean_weight_sum_layout a b k n Hnz); lia|].
  intros Hpos.
  assert (Hpts : sigma_point (Fin a) (Fin b) (Fin k) (finite_belief d m s) n off
                   <$> seqZ 0 (2 * n + 1)
                 = fin_entry <$> (entryR a b k n off d m s <$> seqZ 0 (2 * n + 1))).
  { rewrite <- list_fmap_compose. apply list_fmap_ext. intros i x _.
    by apply sigma_point_fin. }
  rewrite Hpts.
  assert (Hd : d = match entryR a b k n off d m s <$> seqZ 0 (2 * n + 1) with
                   | [] => 0%nat | e :: _ => length e.1 end).
  { rewrite seqZ_cons by lia. rewrite fmap_cons, entryR_zero. cbn [fst].
    by destruct Hshape as (-> & _). }
  split.
  - rewrite (PointSet_mean_fin _ _ d Hd). f_equal. by apply meanR_entries.
  - rewrite (covariance_estimate_fin _ _ d Hd). f_equal.
    rewrite meanR_entries by done. by apply covR_entries.
Qed.

Lemma sqrt_negative x : (x < 0)%R -> XR.sqrt (Fin x) = NaN.
Proof. intros Hx. unfold XR.sqrt. destruct (Rlt_dec x 0); [done|lra]. Qed.

Lemma mul_NaN x : XR.mul x NaN = NaN.
Proof. by destruct x. Qed.

Lemma add_NaN x : XR.add x NaN = NaN.
Proof. by destruct x. Qed.

(** C6 as stated fails below zero: with alpha = 1, kappa = -2 and n = 1,
    [n + lambda = -1] is not zero, [gamma = sqrt(-1)] is NaN, and neither
    the weighted mean nor the covariance estimate of the generated points
    is the one of the belief. *)
Lemma negative_scale_counterexample :
  (IZR 1 + (1 * 1 * (IZR 1 + -2) - IZR 1) <> 0)%R
  /\ exists ps',
      UnscentedTransform.forward false (Fin 1) (Fin 2) (Fin (-2)) Dynamic (finite_belief 1 [0%R] [[1%R]]) 1 0
              (mkPointSet [] [])
      = (Returned tt, ps')
      /\ PointSet_mean ps' <> fin_vec [0%R]
      /\ covariance_estimate ps' <> fin_mat (gram [[1%R]] 1).
Proof.
  split; [lra|].
  eexists. split.
  { apply forward_run; cbn [finite_belief dimension]; try lia. intros [=]. }
  assert (Hg : spec_gamma (Fin 1) (Fin (-2)) (of_int 1) = NaN).
  { apply sqrt_negative. lra. }
  change (seqZ 0 (2 * 1 + 1)) with [0; 1; 2].
  assert (Hpts : sigma_point (Fin 1) (Fin 2) (Fin (-2)) (finite_belief 1 [0%R] [[1%R]]) 1 0
                   <$> [0; 1; 2]
                 = [([Fin 0], mkWeight (spec_w_mean_0 (Fin 1) (Fin (-2)) (of_int 1))
                                       (spec_w_cov_0 (Fin 1) (Fin 2) (Fin (-2)) (of_int 1)));
                    ([NaN], mkWeight (spec_w_i (Fin 1) (Fin (-2)) (of_int 1))
                                     (spec_w_i (Fin 1) (Fin (-2)) (of_int 1)));
                    ([NaN], mkWeight (spec_w_i (Fin 1) (Fin (-2)) (of_int 1))
                                     (spec_w_i (Fin 1) (Fin (-2)) (of_int 1)))]).
  { cbn [fmap list_fmap]. unfold sigma_point. rewrite Hg. reflexivity. }
  rewrite Hpts. clear Hpts Hg.
  generalize (spec_w_mean_0 (Fin 1) (Fin (-2)) (of_int 1)).
  generalize (spec_w_cov_0 (Fin 1) (Fin 2) (Fin (-2)) (of_int 1)).
  generalize (spec_w_i (Fin 1) (Fin (-2)) (of_int 1)).
  intros wi wc0 w0.
  assert (Hmean : forall w, PointSet_mean (mkPointSet
                    [([Fin 0], mkWeight w0 wc0); ([NaN], mkWeight wi wi);
                     ([NaN], mkWeight wi wi)] w) = [NaN]).
  { intros w. unfold PointSet_mean, dimension_of, vadd, vscale. cbn.
    by rewrite !mul_NaN, !add_NaN. }
  split.
  - rewrite Hmean. discriminate.
  - unfold covariance_estimate, centered_points, covariance_weights_vector.
    rewrite Hmean.
    unfold dimension_of, madd, mscale, outer, vadd, vsub, vscale. cbn.
    rewrite !mul_NaN, !add_NaN. discriminate.
Qed.

Lemma sigma_points_reconstruct_witness :
  exists ps',
    UnscentedTransform.forward false (Fin 1) (Fin 2) (Fin 0) 3
      (finite_belief 1 [0%R] [[1%R]]) 1 0
      (mkPointSet (replicate 3 ([], mkWeight (Fin 0) (Fin 0))) [])
    = (Returned tt, ps')
    /\ mean_weight_sum ps' = Fin 1
    /\ PointSet_mean ps' = fin_vec [0%R]
    /\ covariance_estimate ps' = fin_mat (gram [[1%R]] 1).
Proof.
  destruct (sigma_points_reconstruct false 3 1 2 0 1 0 1 [0%R] [[1%R]]
              (mkPointSet (replicate 3 ([], mkWeight (Fin 0) (Fin 0))) []))
    as (ps' & Hrun & Hsum & Hrest).
  - repeat split. by repeat constructor.
  - lia.
  - cbn. lia.
  - intros _. split; reflexivity.
  - lra.
  - exists ps'. split; [exact Hrun|]. split; [exact Hsum|]. apply Hrest. lra.
Defined.

(* ===================================================================== *)
(** * Properties of the multi-sensor update *)
(* ===================================================================== *)

Section UpdateFacts.
Context {Real Mat Model PS : Type}.
Context `{Scalar Real} `{EigenOps Real Mat} `{JointModelOps Real Mat Model}
        `{QuadratureOps Mat (Belief Mat) PS}.
Variable solve : Mat -> Mat -> Mat.
Variable NDEBUG : bool.
Import MultiSensorSigmaPointUpdatePolizzle.

Local Open Scope mat_scope.

Lemma is_valid_false (vector : Mat) (start end_ : Z) :
  (exists k, (start <= k < end_)%Z /\ std_isfinite (coeff vector k) = false) ->
  is_valid vector start end_ = false.
Proof.
  intros (k & Hk & Hfin). unfold is_valid.
  apply not_true_iff_false. intros Hall.
  rewrite forallb_forall in Hall.
  specialize (Hall k). rewrite Hfin in Hall.
  assert (Hin : In k (seqZ start (end_ - start))).
  { apply list_elem_of_In, elem_of_seqZ. lia. }
  by specialize (Hall Hin).
Qed.

(** The iteration of a sensor, in the terms of the spec. *)
Lemma sensor_iteration_spec (obsrv_function : Model) (prior_belief : Belief Mat) (y : Mat)
    (i : Z) (st : LoopState Mat) :
  sensor_iteration solve obsrv_function y
    (UpdateSpec.dim_y obsrv_function y)
    (UpdateSpec.p_X prior_belief) (UpdateSpec.p_Q prior_belief)
    (UpdateSpec.X prior_belief) (UpdateSpec.W prior_belief) (UpdateSpec.c_xx_inv prior_belief)
    i st
  = if negb (is_valid y (i * UpdateSpec.dim_y obsrv_function y)
                        (i * UpdateSpec.dim_y obsrv_function y + UpdateSpec.dim_y obsrv_function y))
    then st
    else if UpdateSpec.skipped obsrv_function prior_belief y i
    then mkLoopState (acc_C st) (acc_D st) i
    else mkLoopState
           (acc_C st + transpose (UpdateSpec.A obsrv_function prior_belief i)
                       * solve (UpdateSpec.c_yy_given_x obsrv_function prior_belief i)
                               (UpdateSpec.A obsrv_function prior_belief i))
           (acc_D st + transpose (UpdateSpec.A obsrv_function prior_belief i)
                       * solve (UpdateSpec.c_yy_given_x obsrv_function prior_belief i)
                               (UpdateSpec.innovation obsrv_function prior_belief y i))
           i.
Proof.
  unfold sensor_iteration.
  destruct (negb (is_valid y _ _)) eqn:Ey; [reflexivity|].
  unfold UpdateSpec.skipped. rewrite Ey. cbn [orb].
  reflexivity.
Qed.

(** The state after the loop over [sensors]: the accumulators hold the
    information of the sensors that are not skipped. *)
Lemma loop_accumulates (obsrv_function : Model) (prior_belief : Belief Mat) (y : Mat)
    (sensors : list Z) (C D : Mat) (id : Z) :
  let keep := filter (fun i => UpdateSpec.skipped obsrv_function prior_belief y i = false)
                     sensors in
  exists id',
    foldl (fun st i =>
             sensor_iteration solve obsrv_function y
               (UpdateSpec.dim_y obsrv_function y)
               (UpdateSpec.p_X prior_belief) (UpdateSpec.p_Q prior_belief)
               (UpdateSpec.X prior_belief) (UpdateSpec.W prior_belief)
               (UpdateSpec.c_xx_inv prior_belief) i st)
          (mkLoopState C D id) sensors
    = mkLoopState
        (foldl (fun C i =>
                  C + transpose (UpdateSpec.A obsrv_function prior_belief i)
                      * solve (UpdateSpec.c_yy_given_x obsrv_function prior_belief i)
                              (UpdateSpec.A obsrv_function prior_belief i)) C keep)
        (foldl (fun D i =>
                  D + transpose (UpdateSpec.A obsrv_function prior_belief i)
                      * solve (UpdateSpec.c_yy_given_x obsrv_function prior_belief i)
                              (UpdateSpec.innovation obsrv_function prior_belief y i)) D keep)
        id'.
Proof.
  revert C D id. induction sensors as [|i sensors IH]; intros C D id keep.
  - by exists id.
  - subst keep. cbn [foldl]. rewrite sensor_iteration_spec.
    destruct (negb (is_valid y _ _)) eqn:Ey.
    + rewrite filter_cons_False.
      2:{ unfold UpdateSpec.skipped. rewrite Ey. cbn [orb]. done. }
      apply IH.
    + destruct (UpdateSpec.skipped obsrv_function prior_belief y i) eqn:Es.
      * rewrite filter_cons_False by (rewrite Es; done). apply IH.
      * rewrite filter_cons_True by done. cbn [foldl acc_C acc_D]. apply IH.
Qed.

Lemma update_over_eq (sensors : list Z) (obsrv_function : Model) (id0 : Z)
    (prior_belief : Belief Mat) (y : Mat) (posterior_belief : Belief Mat) :
  update_over solve NDEBUG sensors obsrv_function id0 prior_belief y posterior_belief
  = if count_local_models obsrv_function =? 0 then UndefinedBehaviour
    else if negb NDEBUG && negb (Z.rem (size y) (count_local_models obsrv_function) =? 0)
    then AssertionFailed
    else
      let st := foldl (fun st i =>
                   sensor_iteration solve obsrv_function y
                     (UpdateSpec.dim_y obsrv_function y)
                     (UpdateSpec.p_X prior_belief) (UpdateSpec.p_Q prior_belief)
                     (UpdateSpec.X prior_belief) (UpdateSpec.W prior_belief)
                     (UpdateSpec.c_xx_inv prior_belief) i st)
                 (mkLoopState (UpdateSpec.c_xx_inv prior_belief)
                              (Zero (size (UpdateSpec.mu_x prior_belief))) id0) sensors in
      Returned (mkBelief (belief_dimension prior_belief)
                         (UpdateSpec.mu_x prior_belief + inverse (acc_C st) * acc_D st)
                         (inverse (acc_C st)),
                selected_id st).
Proof.
  unfold update_over, UpdateSpec.c_xx_inv, UpdateSpec.c_xx, UpdateSpec.X, UpdateSpec.W,
    UpdateSpec.mu_x, UpdateSpec.p_X, UpdateSpec.p_Q, UpdateSpec.dim_y.
  destruct (transform_to_points prior_belief) as [p_X p_Q]. cbn [fst snd].
  reflexivity.
Qed.

(** The guards before the loop are passed when the sensor count is not
    zero and the assertion holds or is compiled out. *)
Lemma guards_passed (obsrv_function : Model) (y : Mat) :
  count_local_models obsrv_function <> 0%Z ->
  NDEBUG = true \/ Z.rem (size y) (count_local_models obsrv_function) = 0%Z ->
  (count_local_models obsrv_function =? 0) = false
  /\ negb NDEBUG && negb (Z.rem (size y) (count_local_models obsrv_function) =? 0) = false.
Proof.
  intros Hcount Hassert. split; [by apply Z.eqb_neq|].
  destruct Hassert as [-> | ->]; [done|]. by rewrite andb_false_r.
Qed.

(** C1: one update call computes [mu_x], [X] and [W] from the sigma
    points, sets [c_xx = X W X^T], starts from [C = c_xx⁻¹] and [D = 0],
    adds [A_i^T solve(c_yy_given_x, A_i)] to [C] and
    [A_i^T solve(c_yy_given_x, innovation)] to [D] for each sensor [i] that
    is not skipped, with [A_i = c_xy^T c_xx⁻¹],
    [c_yy_given_x = c_yy − c_xy^T c_xx⁻¹ c_xy] and
    [innovation = y_i − mu_y], and returns the posterior covariance [C⁻¹]
    and the posterior mean [mu_x + posterior_covariance D]
    ([UpdateSpec.posterior]).  The call divides by the sensor count and
    asserts that it divides the measurement size. *)
Theorem update_information_form (obsrv_function : Model) (id0 : Z)
    (prior_belief : Belief Mat) (y : Mat) (posterior_belief : Belief Mat) :
  count_local_models obsrv_function <> 0%Z ->
  NDEBUG = true \/ Z.rem (size y) (count_local_models obsrv_function) = 0%Z ->
  exists id',
    update solve NDEBUG obsrv_function id0 prior_belief y posterior_belief
    = Returned (UpdateSpec.posterior solve obsrv_function prior_belief y
                  (seqZ 0 (count_local_models obsrv_function)),
                id').
Proof.
  intros Hcount Hassert. unfold update. rewrite update_over_eq.
  destruct (guards_passed obsrv_function y Hcount Hassert) as [-> ->].
  destruct (loop_accumulates obsrv_function prior_belief y
              (seqZ 0 (count_local_models obsrv_function))
              (UpdateSpec.c_xx_inv prior_belief)
              (Zero (size (UpdateSpec.mu_x prior_belief))) id0) as [id' Hloop].
  exists id'. cbv zeta. rewrite Hloop. reflexivity.
Qed.

Lemma foldl_skip {A} (f : A -> Z -> A) (i : Z) (a : A) (l : list Z) :
  (forall a, f a i = a) -> foldl f a l = foldl f a (filter (fun j => j <> i) l).
Proof.
  intros Hi. revert a; induction l as [|j l IH]; intros a; [done|].
  destruct (decide (j = i)) as [->|Hne].
  - rewrite filter_cons_False by (intros ?; done). cbn [foldl]. rewrite Hi. apply IH.
  - rewrite filter_cons_True by done. cbn [foldl]. apply IH.
Qed.

(** C3: if a component of the measurement slice of sensor [i] is not
    finite, the iteration of that sensor leaves the loop state, and so the
    accumulators [C] and [D], as they are, and the update returns what it
    returns with the loop run over the other sensors only. *)
Theorem skipped_sensor_omitted (obsrv_function : Model) (id0 : Z)
    (prior_belief : Belief Mat) (y : Mat) (posterior_belief : Belief Mat) (i : Z) :
  let dim_y := Z.quot (size y) (count_local_models obsrv_function) in
  (exists k, (i * dim_y <= k < i * dim_y + dim_y)%Z /\ std_isfinite (coeff y k) = false) ->
  (forall p_X p_Q X W c_xx_inv st,
      sensor_iteration solve obsrv_function y dim_y p_X p_Q X W c_xx_inv i st = st)
  /\ update solve NDEBUG obsrv_function id0 prior_belief y posterior_belief
     = update_over solve NDEBUG
         (filter (fun j => j <> i) (seqZ 0 (count_local_models obsrv_function)))
         obsrv_function id0 prior_belief y posterior_belief.
Proof.
  intros dim_y Hnonfinite.
  assert (Hskip : forall p_X p_Q X W c_xx_inv st,
            sensor_iteration solve obsrv_function y dim_y p_X p_Q X W c_xx_inv i st = st).
  { intros. unfold sensor_iteration. by rewrite (is_valid_false _ _ _ Hnonfinite). }
  split; [exact Hskip|].
  unfold update. rewrite !update_over_eq.
  destruct (_ =? 0); [done|]. destruct (_ && _); [done|].
  cbv zeta. rewrite <- foldl_skip; [done|]. intros st. apply Hskip.
Qed.

Lemma filter_none (P : Z -> Prop) `{forall x, Decision (P x)} (l : list Z) :
  (forall x, x ∈ l -> ~ P x) -> filter P l = [].
Proof.
  induction l as [|x l IH]; intros Hl; [done|].
  rewrite filter_cons_False by (apply Hl; left).
  apply IH. intros z Hz. apply Hl. by right.
Qed.

(** C10: if every sensor is skipped the accumulators keep [C = c_xx⁻¹]
    and [D = 0], and the posterior has the dimension of the prior, the
    covariance [(c_xx⁻¹)⁻¹] with [c_xx = X W X^T], and the mean
    [mu_x + (c_xx⁻¹)⁻¹ 0], as the code computes it.  That mean is [mu_x]
    where the product of the covariance with the zero vector is the zero
    vector and adding it leaves [mu_x] as it is; it is not [mu_x] for
    every prior. *)
Theorem all_sensors_skipped (obsrv_function : Model) (id0 : Z)
    (prior_belief : Belief Mat) (y : Mat) (posterior_belief : Belief Mat) :
  let sensor_count := count_local_models obsrv_function in
  let mu_x := UpdateSpec.mu_x prior_belief in
  let c_xx_inv := inverse (UpdateSpec.c_xx prior_belief) in
  let zero := Zero (size mu_x) in
  sensor_count <> 0%Z ->
  NDEBUG = true \/ Z.rem (size y) sensor_count = 0%Z ->
  (forall i, (0 <= i < sensor_count)%Z ->
             UpdateSpec.skipped obsrv_function prior_belief y i = true) ->
  UpdateSpec.C_of solve obsrv_function prior_belief y (seqZ 0 sensor_count) = c_xx_inv
  /\ UpdateSpec.D_of solve obsrv_function prior_belief y (seqZ 0 sensor_count) = zero
  /\ exists id',
      update solve NDEBUG obsrv_function id0 prior_belief y posterior_belief
      = Returned (mkBelief (belief_dimension prior_belief)
                           (mu_x + inverse c_xx_inv * zero) (inverse c_xx_inv), id')
      /\ (inverse c_xx_inv * zero = zero ->
          mu_x + zero = mu_x ->
          update solve NDEBUG obsrv_function id0 prior_belief y posterior_belief
          = Returned (mkBelief (belief_dimension prior_belief) mu_x (inverse c_xx_inv), id')).
Proof.
  intros sensor_count mu_x c_xx_inv zero Hcount Hassert Hall.
  assert (Hnone : filter (fun i => UpdateSpec.skipped obsrv_function prior_belief y i = false)
                         (seqZ 0 sensor_count) = []).
  { apply filter_none. intros i Hi. apply elem_of_seqZ in Hi.
    rewrite Hall by lia. done. }
  assert (HC : UpdateSpec.C_of solve obsrv_function prior_belief y (seqZ 0 sensor_count)
               = c_xx_inv).
  { unfold UpdateSpec.C_of. by rewrite Hnone. }
  assert (HD : UpdateSpec.D_of solve obsrv_function prior_belief y (seqZ 0 sensor_count)
               = zero).
  { unfold UpdateSpec.D_of. by rewrite Hnone. }
  split; [exact HC|]. split; [exact HD|].
  unfold update. rewrite update_over_eq.
  destruct (guards_passed obsrv_function y Hcount Hassert) as [-> ->].
  destruct (loop_accumulates obsrv_function prior_belief y (seqZ 0 sensor_count)
              (UpdateSpec.c_xx_inv prior_belief) zero id0) as [id' Hloop].
  fold sensor_count in Hloop. rewrite Hnone in Hloop. cbn [foldl] in Hloop.
  exists id'. cbv zeta. fold sensor_count. fold mu_x. fold zero. rewrite Hloop.
  cbn [acc_C acc_D selected_id].
  change (UpdateSpec.c_xx_inv prior_belief) with c_xx_inv.
  split; [reflexivity|]. intros Hmul Hadd. by rewrite Hmul, Hadd.
Qed.

(** C4: for a sensor that is not skipped, the body and tail results are
    fused with [t = tail_weight] and [b = 1 − t] as
    [mu_y = b mu_y_body + t mu_y_tail],
    [m_yy_body = c_yy_body + mu_y_body mu_y_body^T] (and so for the tail),
    [m_yy = b m_yy_body + t m_yy_tail], [c_yy = m_yy − mu_y mu_y^T] and
    [c_xy = b c_xy_body + t c_xy_tail]: these are the values the iteration
    of the sensor adds to the accumulators with. *)
Theorem fused_moments (obsrv_function : Model) (prior_belief : Belief Mat) (y : Mat)
    (i : Z) (st : LoopState Mat) :
  UpdateSpec.skipped obsrv_function prior_belief y i = false ->
  let mu_y_body := UpdateSpec.mu_y_body obsrv_function prior_belief i in
  let c_yy_body := UpdateSpec.c_yy_body obsrv_function prior_belief i in
  let c_xy_body := UpdateSpec.c_xy_body obsrv_function prior_belief i in
  let mu_y_tail := UpdateSpec.mu_y_tail obsrv_function prior_belief i in
  let c_yy_tail := UpdateSpec.c_yy_tail obsrv_function prior_belief i in
  let c_xy_tail := UpdateSpec.c_xy_tail obsrv_function prior_belief i in
  let c_xx_inv := UpdateSpec.c_xx_inv prior_belief in
  let dim_y := UpdateSpec.dim_y obsrv_function y in
  let t := tail_weight obsrv_function i in
  let b := (of_int 1 - t)%fl in
  let mu_y := b .* mu_y_body + t .* mu_y_tail in
  let m_yy_body := c_yy_body + mu_y_body * transpose mu_y_body in
  let m_yy_tail := c_yy_tail + mu_y_tail * transpose mu_y_tail in
  let m_yy := b .* m_yy_body + t .* m_yy_tail in
  let c_yy := m_yy - mu_y * transpose mu_y in
  let c_xy := b .* c_xy_body + t .* c_xy_tail in
  let A_i := transpose c_xy * c_xx_inv in
  let c_yy_given_x := c_yy - transpose c_xy * c_xx_inv * c_xy in
  let innovation := middleRows y (i * dim_y) dim_y - mu_y in
  fuse (tail_weight obsrv_function i)
       mu_y_body c_yy_body c_xy_body mu_y_tail c_yy_tail c_xy_tail
  = mkFused mu_y c_yy c_xy
  /\ sensor_iteration solve obsrv_function y dim_y
       (UpdateSpec.p_X prior_belief) (UpdateSpec.p_Q prior_belief)
       (UpdateSpec.X prior_belief) (UpdateSpec.W prior_belief) c_xx_inv i st
     = mkLoopState (acc_C st + transpose A_i * solve c_yy_given_x A_i)
                   (acc_D st + transpose A_i * solve c_yy_given_x innovation)
                   i.
Proof.
  intros Hskip. cbv zeta. split; [reflexivity|].
  rewrite sensor_iteration_spec, Hskip.
  unfold UpdateSpec.skipped in Hskip. apply orb_false_iff in Hskip as [-> _].
  reflexivity.
Qed.
End UpdateFacts.

(** ** The update on the one-dimensional instances *)

Import Dim1.

Lemma update_information_form_witness :
  count_local_models tt <> 0
  /\ (false = true \/ Z.rem (size (Fin 1)) (count_local_models tt) = 0)
  /\ exists id',
      MultiSensorSigmaPointUpdatePolizzle.update Dim1.solve false tt 0 Dim1.prior (Fin 1)
        Dim1.prior
      = Returned (UpdateSpec.posterior Dim1.solve tt Dim1.prior (Fin 1)
                    (seqZ 0 (count_local_models tt)), id').
Proof.
  assert (H1 : count_local_models tt <> 0) by (change (1 <> 0); lia).
  assert (H2 : false = true \/ Z.rem (size (Fin 1)) (count_local_models tt) = 0)
    by (right; reflexivity).
  split; [exact H1|]. split; [exact H2|].
  exact (update_information_form Dim1.solve false tt 0 Dim1.prior (Fin 1) Dim1.prior H1 H2).
Defined.

Lemma skipped_sensor_omitted_witness :
  (exists k, 0 * Z.quot (size NaN) (count_local_models tt) <= k
             < 0 * Z.quot (size NaN) (count_local_models tt)
               + Z.quot (size NaN) (count_local_models tt)
             /\ std_isfinite (coeff NaN k) = false)
  /\ MultiSensorSigmaPointUpdatePolizzle.update Dim1.solve false tt 0 Dim1.prior NaN Dim1.prior
     = MultiSensorSigmaPointUpdatePolizzle.update_over Dim1.solve false
         (filter (fun j => j <> 0) (seqZ 0 (count_local_models tt)))
         tt 0 Dim1.prior NaN Dim1.prior.
Proof.
  assert (H : exists k, 0 * Z.quot (size NaN) (count_local_models tt) <= k
             < 0 * Z.quot (size NaN) (count_local_models tt)
               + Z.quot (size NaN) (count_local_models tt)
             /\ std_isfinite (coeff NaN k) = false).
  { exists 0. split; [change (0 <= 0 < 1); lia|reflexivity]. }
  split; [exact H|].
  exact (proj2 (skipped_sensor_omitted Dim1.solve false tt 0 Dim1.prior NaN Dim1.prior 0 H)).
Defined.

Lemma fused_moments_witness :
  UpdateSpec.skipped tt Dim1.prior (Fin 1) 0 = false
  /\ MultiSensorSigmaPointUpdatePolizzle.sensor_iteration Dim1.solve tt (Fin 1)
       (UpdateSpec.dim_y tt (Fin 1))
       (UpdateSpec.p_X Dim1.prior) (UpdateSpec.p_Q Dim1.prior)
       (UpdateSpec.X Dim1.prior) (UpdateSpec.W Dim1.prior) (UpdateSpec.c_xx_inv Dim1.prior)
       0 (mkLoopState (Fin 1) (Fin 0) 0)
     = mkLoopState
         (acc_C (mkLoopState (Fin 1) (Fin 0) 0)
          + transpose (UpdateSpec.A tt Dim1.prior 0)
            * Dim1.solve (UpdateSpec.c_yy_given_x tt Dim1.prior 0) (UpdateSpec.A tt Dim1.prior 0))%mat
         (acc_D (mkLoopState (Fin 1) (Fin 0) 0)
          + transpose (UpdateSpec.A tt Dim1.prior 0)
            * Dim1.solve (UpdateSpec.c_yy_given_x tt Dim1.prior 0)
                         (UpdateSpec.innovation tt Dim1.prior (Fin 1) 0))%mat
         0.
Proof.
  assert (H : UpdateSpec.skipped tt Dim1.prior (Fin 1) 0 = false) by reflexivity.
  split; [exact H|].
  exact (proj2 (fused_moments Dim1.solve tt Dim1.prior (Fin 1) 0
                  (mkLoopState (Fin 1) (Fin 0) 0) H)).
Defined.

Lemma Dim1_inverse_inverse :
  inverse (inverse (UpdateSpec.c_xx Dim1.prior)) = Fin (1 / (1 / (1 * 1 * 1))).
Proof.
  change (XR.div (Fin 1) (XR.div (Fin 1) (Fin (1 * 1 * 1))) = Fin (1 / (1 / (1 * 1 * 1)))).
  unfold XR.div.
  destruct (Req_dec_T (1 * 1 * 1) 0) as [E|_]; [lra|].
  destruct (Req_dec_T (1 / (1 * 1 * 1)) 0) as [E|_]; [|reflexivity].
  exfalso. assert (1 / (1 * 1 * 1) = 1)%R by (field). lra.
Qed.

Lemma all_sensors_skipped_witness :
  exists id',
    MultiSensorSigmaPointUpdatePolizzle.update Dim1.solve false tt 0 Dim1.prior NaN Dim1.prior
    = Returned (mkBelief (belief_dimension Dim1.prior) (UpdateSpec.mu_x Dim1.prior)
                  (inverse (inverse (UpdateSpec.c_xx Dim1.prior))), id').
Proof.
  destruct (all_sensors_skipped Dim1.solve false tt 0 Dim1.prior NaN Dim1.prior)
    as (_ & _ & id' & _ & Hmean).
  - change (1 <> 0). lia.
  - right. reflexivity.
  - intros i Hi. change (0 <= i < 1) in Hi. assert (i = 0) as -> by lia. reflexivity.
  - exists id'. apply Hmean.
    + rewrite Dim1_inverse_inverse. cbn. f_equal. lra.
    + cbn. f_equal. lra.
Defined.

(** ** The update on a singular prior *)

Section SingularPrior.
#[local] Existing Instances Dense.eigen Dense.model Dense.quadrature.

Lemma inf_times_zero (positive : bool) (a : R) : a = 0%R -> XR.inf_times positive a = NaN.
Proof. intros ->. unfold XR.inf_times. destruct (Req_dec_T 0 0); [done|lra]. Qed.

Lemma inf_times_positive (a : R) : (0 < a)%R -> XR.inf_times true a = PInf.
Proof.
  intros Ha. unfold XR.inf_times.
  destruct (Req_dec_T a 0); [lra|]. destruct (Rlt_dec 0 a); [done|lra].
Qed.

(** Eigen's inverse of [diag(a, 0)] with [a > 0]: the determinant is
    zero, its reciprocal is infinite, and the products with the zero
    coefficients are NaN. *)
Lemma inverse_singular (a b c d : R) :
  (0 < a)%R -> b = 0%R -> c = 0%R -> d = 0%R ->
  Dense.inverse2 [[Fin a; Fin c]; [Fin b; Fin d]] = [[NaN; NaN]; [NaN; PInf]].
Proof.
  intros Ha -> -> ->. unfold Dense.inverse2. cbn [XR.mul XR.sub XR.neg].
  assert (Hinv : XR.div (Fin 1) (Fin (a * 0 - 0 * 0)) = PInf).
  { unfold XR.div. destruct (Req_dec_T (a * 0 - 0 * 0) 0) as [_|Hne]; [|exfalso; lra].
    apply inf_times_positive. lra. }
  rewrite Hinv. cbn [XR.mul].
  rewrite !inf_times_zero by lra. by rewrite inf_times_positive.
Qed.

(** C10 as stated fails for a singular [c_xx]: with the prior mean
    [(0, 0)], [c_xx = diag(1, 0)] and one sensor whose measurement is NaN,
    the sensor is skipped, [c_xx⁻¹] and [(c_xx⁻¹)⁻¹] have NaN
    coefficients, and the posterior mean [mu_x + (c_xx⁻¹)⁻¹ 0] is
    [(NaN, NaN)], not [mu_x]. *)
Lemma singular_prior_counterexample :
  count_local_models (Mat := Dense.Mat) 1 <> 0
  /\ Z.rem (size [[NaN]]) (count_local_models (Mat := Dense.Mat) 1) = 0
  /\ (forall i, 0 <= i < count_local_models (Mat := Dense.Mat) 1 ->
                UpdateSpec.skipped 1 Dense.prior [[NaN]] i = true)
  /\ UpdateSpec.mu_x Dense.prior = [[Fin 0; Fin 0]]
  /\ UpdateSpec.c_xx Dense.prior = [[Fin 1; Fin 0]; [Fin 0; Fin 0]]
  /\ MultiSensorSigmaPointUpdatePolizzle.update Dense.solve false 1 0 Dense.prior [[NaN]]
       Dense.prior
     = Returned (mkBelief 2 [[NaN; NaN]] [[NaN; NaN]; [NaN; NaN]], 0)
  /\ [[NaN; NaN]] <> UpdateSpec.mu_x Dense.prior.
Proof.
  assert (Hmu : UpdateSpec.mu_x Dense.prior = [[Fin 0; Fin 0]]).
  { vm_compute. repeat f_equal; lra. }
  assert (Hc : UpdateSpec.c_xx Dense.prior = [[Fin 1; Fin 0]; [Fin 0; Fin 0]]).
  { vm_compute. repeat f_equal; lra. }
  assert (Hinv : UpdateSpec.c_xx_inv Dense.prior = [[NaN; NaN]; [NaN; PInf]]).
  { unfold UpdateSpec.c_xx_inv. rewrite Hc. apply inverse_singular; lra. }
  split; [change (1 <> 0); lia|]. split; [reflexivity|].
  split.
  { intros i Hi. change (0 <= i < 1) in Hi. assert (i = 0) as -> by lia.
    vm_compute. reflexivity. }
  split; [exact Hmu|]. split; [exact Hc|].
  split; [|rewrite Hmu; discriminate].
  unfold MultiSensorSigmaPointUpdatePolizzle.update. rewrite update_over_eq.
  rewrite Hinv, Hmu. vm_compute. reflexivity.
Qed.
End SingularPrior.

(* ===================================================================== *)
(** * Properties of the Gaussian and of the transition density *)
(* ===================================================================== *)

Section GaussianFacts.
Context {Real Mat : Type} `{Scalar Real} `{EigenOps Real Mat}.
Import FFGaussian.

Lemma Covariance_consistent (covariance : Mat) (g : Gaussian Real Mat) :
  consistent (Covariance covariance g) /\ covariance_ (Covariance covariance g) = covariance.
Proof.
  unfold Covariance, consistent.
  destruct (qr_rank covariance =? rows covariance) eqn:E; cbn [full_rank_ covariance_
    precision_ log_normalizer_]; rewrite E; repeat split; done.
Qed.




(** The covariance a Gaussian holds is the one set last. *)
Lemma covariance_after_set (d : Z) (raw : Gaussian Real Mat) (calls : list setter)
    (covariance : Mat) (means : list Mat) :
  covariance_ (after d raw (calls ++ CallCovariance covariance :: (CallMean <$> means)))
  = covariance.
Proof.
  unfold after. rewrite foldl_app. cbn [foldl call].
  generalize (foldl call (construct d raw) calls). intros g.
  assert (Hc : covariance_ (Covariance covariance g) = covariance)
    by apply Covariance_consistent.
  revert Hc. generalize (Covariance covariance g).
  induction means as [|mu means IH]; intros g' Hg'; [exact Hg'|].
  rewrite fmap_cons. cbn [foldl call]. apply IH. by destruct g'.
Qed.
End GaussianFacts.

Section DensityFacts.
Context {FloatingPoint : Type} `{Scalar FloatingPoint}.
Context {State Input : Type}.
Variable log_probability : State -> State -> Input -> FloatingPoint -> FloatingPoint.
Variable as_StateArray : list Input -> list State.
Variable NDEBUG : bool.
Import StateTransitionDensity.

(** The loop returns the value of [log_probability] at each index, when
    the indices are inside the three arrays. *)
Lemma log_probabilities_loop_run (states cond_states : list State) (cond_inputs : list Input)
    (dt : FloatingPoint) (indices : list nat) :
  (forall i, i ∈ indices ->
     (i < length states)%nat /\ (i < length cond_states)%nat /\ (i < length cond_inputs)%nat) ->
  exists values,
    log_probabilities_loop log_probability NDEBUG states cond_states cond_inputs dt indices
    = Returned values
    /\ length values = length indices
    /\ forall j i s c u,
         indices !! j = Some i ->
         states !! i = Some s -> cond_states !! i = Some c -> cond_inputs !! i = Some u ->
         values !! j = Some (log_probability s c u dt).
Proof.
  induction indices as [|i indices IH]; intros Hin.
  - exists []. split; [done|]. split; [done|]. intros j i s c u Hj. done.
  - destruct (Hin i ltac:(left)) as (Hs & Hc & Hu).
    destruct (lookup_lt_is_Some_2 _ _ Hs) as [s Es].
    destruct (lookup_lt_is_Some_2 _ _ Hc) as [c Ec].
    destruct (lookup_lt_is_Some_2 _ _ Hu) as [u Eu].
    destruct IH as (values & Hrun & Hlen & Hval).
    { intros j Hj. apply Hin. by right. }
    exists (log_probability s c u dt :: values).
    cbn [log_probabilities_loop]. rewrite Es, Ec, Eu, Hrun. cbn [outcome_map].
    split; [done|]. split; [cbn; by rewrite Hlen|].
    intros [|j] i' s' c' u' Hj Hs' Hc' Hu'.
    + injection Hj as <-. cbn. congruence.
    + exact (Hval j i' s' c' u' Hj Hs' Hc' Hu').
Qed.

(** C9: [probabilities] returns the coefficient-wise exponential of
    [log_probabilities(states, cond_inputs, cond_inputs, dt)]: the
    conditional inputs stand in for the conditional states, and the result
    does not depend on the argument [cond_states].  When the arrays have
    the size of [states], the call returns, and its value at index [j] is
    the exponential of [log_probability] at [states[j]], the converted
    [cond_inputs[j]] and [cond_inputs[j]]. *)
Theorem probabilities_ignores_cond_states (states cond_states : list State)
    (cond_inputs : list Input) (dt : FloatingPoint) :
  probabilities log_probability as_StateArray NDEBUG states cond_states cond_inputs dt
  = outcome_map (fmap std_exp)
      (log_probabilities log_probability NDEBUG states (as_StateArray cond_inputs)
         cond_inputs dt)
  /\ (forall cond_states',
       probabilities log_probability as_StateArray NDEBUG states cond_states' cond_inputs dt
       = probabilities log_probability as_StateArray NDEBUG states cond_states cond_inputs dt)
  /\ (length cond_inputs = length states ->
      length (as_StateArray cond_inputs) = length states ->
      exists values,
        probabilities log_probability as_StateArray NDEBUG states cond_states cond_inputs dt
        = Returned values
        /\ length values = length states
        /\ forall j s c u,
             states !! j = Some s -> as_StateArray cond_inputs !! j = Some c ->
             cond_inputs !! j = Some u ->
             values !! j = Some (std_exp (log_probability s c u dt))).
Proof.
  split; [reflexivity|]. split; [reflexivity|].
  intros Hinputs Hconv.
  unfold probabilities, log_probabilities.
  rewrite Hinputs, Nat.eqb_refl. cbn [negb]. rewrite andb_false_r.
  destruct (log_probabilities_loop_run states (as_StateArray cond_inputs) cond_inputs dt
              (seq 0 (length states))) as (values & -> & Hlen & Hval).
  { intros i Hi. apply elem_of_seq in Hi. lia. }
  exists (std_exp <$> values). cbn [outcome_map].
  split; [done|]. split; [by rewrite length_fmap, Hlen, length_seq|].
  intros j s c u Hs Hc Hu.
  rewrite list_lookup_fmap.
  rewrite (Hval j j s c u); [done| |done|done|done].
  apply lookup_seq. split; [done|]. by apply lookup_lt_Some in Hs.
Qed.
End DensityFacts.

(** The conditional states [7; 8] do not enter the result. *)
Example probabilities_example :
  StateTransitionDensity.probabilities
    (fun s c u (dt : XReal) => Fin (IZR (s + 10 * c + 100 * u))) (fun l => l) false
    [1; 2] [7; 8] [3; 4] (Fin 0)
  = Returned [Fin (exp (IZR 331)); Fin (exp (IZR 442))].
Proof. reflexivity. Qed.

(* ===================================================================== *)
(** * Further properties of the sigma-point generator *)
(* ===================================================================== *)

(** Case analysis on the integer tests of a goal. *)
Ltac case_Z :=
  repeat match goal with
  | |- context [Z.eqb ?a ?b] => destruct (Z.eqb_spec a b); try lia
  | |- context [Z.leb ?a ?b] => destruct (Z.leb_spec a b); try lia
  | |- context [Z.ltb ?a ?b] => destruct (Z.ltb_spec a b); try lia
  end; cbn [andb negb orb].

Section UnscentedTransformEdges.
Context {Real : Type} `{Scalar Real}.
Variable NDEBUG : bool.
Variables alpha_ beta_ kappa_ : Real.
Import UnscentedTransform.

(** X1: A call of [forward] with a negative global dimension ([Eigen::Dynamic]
    is one) computes a point count that is not positive: in a build with
    assertions it stops at [assert(point_count > 0)], before the size check
    and before any write, and the point set is as before the call. *)
Theorem forward_negative_dimension N (g : Gaussian_ Real) (n off : Z) (ps : PointSet Real) :
  n < 0 ->
  (0 <? number_of_points n) = false
  /\ forward false alpha_ beta_ kappa_ N g n off ps = (AssertionFailed, ps).
Proof.
  intros Hn.
  assert (Hpc : (0 <? number_of_points n) = false).
  { rewrite number_of_points_eq. apply Z.ltb_ge. lia. }
  split; [exact Hpc|].
  unfold forward. unfold bind at 1. unfold assert. rewrite Hpc. reflexivity.
Qed.

(** X2: [forward(gaussian, point_set)] and [operator()(gaussian, point_set)]
    take the dimension of the belief as the global dimension and the
    offset 0: the call returns [2 d + 1] points, the mean and, for every
    column [j] of the scaled square root, the pair [mean ± column j] at
    the indices [j + 1] and [d + j + 1]; no point besides the first is a
    bare copy of the mean. *)
Theorem forward_2_layout N (g : Gaussian_ Real) (ps : PointSet Real) :
  0 <= dimension g ->
  fits N (dimension g) ps ->
  let d := dimension g in
  let dim := of_int d in
  let w_0 := mkWeight (weight_mean_0 alpha_ kappa_ dim) (weight_cov_0 alpha_ beta_ kappa_ dim) in
  let w_i := mkWeight (weight_mean_i alpha_ kappa_ dim) (weight_cov_i alpha_ kappa_ dim) in
  let scaled_sqrt := mscale_r (square_root g) (gamma_factor alpha_ kappa_ dim) in
  exists ps',
    forward_2 NDEBUG alpha_ beta_ kappa_ N g ps = (Returned tt, ps')
    /\ Z.of_nat (length (points ps')) = 2 * d + 1
    /\ points ps' !! 0%nat = Some (mean g, w_0)
    /\ forall j, 0 <= j < d ->
         points ps' !! Z.to_nat (j + 1) = Some (vadd (mean g) (col scaled_sqrt j), w_i)
         /\ points ps' !! Z.to_nat (d + j + 1) = Some (vsub (mean g) (col scaled_sqrt j), w_i).
Proof.
  intros Hd Hfit d dim w_0 w_i scaled_sqrt.
  eexists. split.
  { unfold forward_2. apply forward_run; [lia|done|lia|done]. }
  cbn [points].
  assert (Hat : forall k, 0 <= k <= 2 * d ->
            (sigma_point alpha_ beta_ kappa_ g d 0 <$> seqZ 0 (2 * d + 1)) !! Z.to_nat k
            = Some (sigma_point alpha_ beta_ kappa_ g d 0 k)).
  { intros k Hk. rewrite list_lookup_fmap, lookup_seqZ_lt by lia.
    simpl. do 2 f_equal. lia. }
  split; [rewrite length_fmap, length_seqZ; lia|].
  split; [apply (Hat 0); lia|].
  intros j Hj. rewrite !Hat by lia. unfold sigma_point. fold d.
  split; case_Z; subst scaled_sqrt w_i dim;
    (replace (j + 1 - 0 - 1) with j by lia);
    (try replace (d + j + 1 - d - 0 - 1) with j by lia); reflexivity.
Qed.

(** X3: Two beliefs [ga] and [gb] joined into the global dimension
    [dimension ga + dimension gb], [ga] at the offset 0 and [gb] at the
    offset [dimension ga]: both calls return, and at every index past the
    first one of the two point sets holds the mean of its belief.  Where
    the points of [ga] are shifted ([1 <= i <= dimension ga], and the
    mirror index [n + i]) the set of [gb] holds the mean of [gb]; at the
    other indices the set of [ga] holds the mean of [ga]. *)
Theorem forward_joint_layout Na Nb (ga gb : Gaussian_ Real) (psa psb : PointSet Real) :
  0 <= dimension ga -> 0 <= dimension gb ->
  fits Na (dimension ga + dimension gb) psa ->
  fits Nb (dimension ga + dimension gb) psb ->
  let n := dimension ga + dimension gb in
  exists psa' psb',
    forward NDEBUG alpha_ beta_ kappa_ Na ga n 0 psa = (Returned tt, psa')
    /\ forward NDEBUG alpha_ beta_ kappa_ Nb gb n (dimension ga) psb = (Returned tt, psb')
    /\ length (points psa') = length (points psb')
    /\ (forall i, 1 <= i <= dimension ga ->
          fst <$> points psb' !! Z.to_nat i = Some (mean gb)
          /\ fst <$> points psb' !! Z.to_nat (n + i) = Some (mean gb))
    /\ (forall i, dimension ga < i <= n ->
          fst <$> points psa' !! Z.to_nat i = Some (mean ga)
          /\ fst <$> points psa' !! Z.to_nat (n + i) = Some (mean ga))
    /\ (forall k, 1 <= k <= 2 * n ->
          snd <$> points psa' !! Z.to_nat k = snd <$> points psb' !! Z.to_nat k).
Proof.
  intros Ha Hb Hfa Hfb n.
  eexists. eexists.
  split; [apply forward_run; [lia|done|lia|done]|].
  split; [apply forward_run; [lia|done|lia|done]|].
  cbn [points].
  assert (Hat : forall g off k, 0 <= k <= 2 * n ->
            (sigma_point alpha_ beta_ kappa_ g n off <$> seqZ 0 (2 * n + 1)) !! Z.to_nat k
            = Some (sigma_point alpha_ beta_ kappa_ g n off k)).
  { intros g off k Hk. rewrite list_lookup_fmap, lookup_seqZ_lt by lia.
    simpl. do 2 f_equal. lia. }
  split; [by rewrite !length_fmap|].
  split; [|split].
  - intros i Hi. rewrite !Hat by lia. unfold sigma_point.
    split; case_Z; reflexivity.
  - intros i Hi. rewrite !Hat by lia. unfold sigma_point.
    split; case_Z; reflexivity.
  - intros k Hk. rewrite !Hat by lia. unfold sigma_point.
    case_Z; reflexivity.
Qed.
End UnscentedTransformEdges.

Lemma forward_negative_dimension_witness :
  UnscentedTransform.forward false (Fin 1) (Fin 2) (Fin 0) Dynamic
    (finite_belief 1 [0%R] [[1%R]]) (-1) 0 (mkPointSet [] [])
  = (AssertionFailed, mkPointSet [] []).
Proof.
  apply (forward_negative_dimension (Fin 1) (Fin 2) (Fin 0) Dynamic
           (finite_belief 1 [0%R] [[1%R]]) (-1) 0 (mkPointSet [] [])).
  lia.
Defined.

Lemma forward_2_layout_witness :
  exists ps',
    UnscentedTransform.forward_2 false (Fin 1) (Fin 2) (Fin 0) Dynamic
      (finite_belief 1 [0%R] [[1%R]]) (mkPointSet [] [])
    = (Returned tt, ps')
    /\ Z.of_nat (length (points ps')) = 3.
Proof.
  destruct (forward_2_layout false (Fin 1) (Fin 2) (Fin 0) Dynamic
              (finite_belief 1 [0%R] [[1%R]]) (mkPointSet [] []))
    as (ps' & Hrun & Hlen & _).
  - cbn. lia.
  - intros E. discriminate E.
  - exists ps'. split; [exact Hrun|exact Hlen].
Defined.

Lemma forward_joint_layout_witness :
  exists psa' psb',
    UnscentedTransform.forward false (Fin 1) (Fin 2) (Fin 0) Dynamic
      (finite_belief 1 [0%R] [[1%R]]) 2 0 (mkPointSet [] []) = (Returned tt, psa')
    /\ UnscentedTransform.forward false (Fin 1) (Fin 2) (Fin 0) Dynamic
         (finite_belief 1 [5%R] [[3%R]]) 2 1 (mkPointSet [] []) = (Returned tt, psb')
    /\ length (points psa') = length (points psb').
Proof.
  destruct (forward_joint_layout false (Fin 1) (Fin 2) (Fin 0) Dynamic Dynamic
              (finite_belief 1 [0%R] [[1%R]]) (finite_belief 1 [5%R] [[3%R]])
              (mkPointSet [] []) (mkPointSet [] []))
    as (psa' & psb' & Hrun_a & Hrun_b & Hlen & _).
  - cbn. lia.
  - cbn. lia.
  - intros E. discriminate E.
  - intros E. discriminate E.
  - exists psa', psb'. split; [exact Hrun_a|]. split; [exact Hrun_b|exact Hlen].
Defined.

(** X4: With the constructor's default parameters (alpha 1, beta 2, kappa 0)
    lambda is 0 for every dimension [n]: gamma is [sqrt n], the first
    point has the mean weight 0 and the covariance weight 2 and every
    other point the weight [1 / (2 n)], for [n > 0]; for [n = 0] the only
    point gets the mean weight 0/0, which is NaN. *)
Theorem default_parameters (n : Z) :
  0 <= n ->
  let dim : XReal := of_int n in
  let alpha := UnscentedTransform.default_alpha in
  let beta := UnscentedTransform.default_beta in
  let kappa := UnscentedTransform.default_kappa in
  UnscentedTransform.lambda_scalar alpha kappa dim = Fin 0
  /\ UnscentedTransform.gamma_factor alpha kappa dim = Fin (sqrt (IZR n))
  /\ (0 < n ->
      UnscentedTransform.weight_mean_0 alpha kappa dim = Fin 0
      /\ UnscentedTransform.weight_cov_0 alpha beta kappa dim = Fin 2
      /\ UnscentedTransform.weight_mean_i alpha kappa dim = Fin (1 / (2 * IZR n))
      /\ UnscentedTransform.weight_cov_i alpha kappa dim = Fin (1 / (2 * IZR n)))
  /\ (n = 0 ->
      UnscentedTransform.weight_mean_0 alpha kappa dim = NaN
      /\ UnscentedTransform.weight_mean_i alpha kappa dim = PInf).
Proof.
  intros Hn dim alpha beta kappa.
  assert (Hlam : UnscentedTransform.lambda_scalar alpha kappa dim = Fin 0).
  { unfold UnscentedTransform.lambda_scalar. cbn. f_equal. ring. }
  assert (Hsum : XR.add dim (Fin 0) = Fin (IZR n)).
  { cbn. f_equal. ring. }
  split; [exact Hlam|].
  split.
  { unfold UnscentedTransform.gamma_factor. rewrite Hlam.
    change (XR.sqrt (XR.add dim (Fin 0)) = Fin (sqrt (IZR n))).
    rewrite Hsum. apply sqrt_fin. apply IZR_le in Hn. exact Hn. }
  split.
  - intros Hpos. apply IZR_lt in Hpos.
    assert (Hw0 : UnscentedTransform.weight_mean_0 alpha kappa dim = Fin 0).
    { unfold UnscentedTransform.weight_mean_0. rewrite Hlam.
      change (XR.div (Fin 0) (XR.add dim (Fin 0)) = Fin 0).
      rewrite Hsum, div_fin by lra. f_equal. field. lra. }
    assert (Hwi : UnscentedTransform.weight_mean_i alpha kappa dim = Fin (1 / (2 * IZR n))).
    { unfold UnscentedTransform.weight_mean_i. rewrite Hlam.
      change (XR.div (Fin 1) (XR.mul (Fin 2) (XR.add dim (Fin 0))) = Fin (1 / (2 * IZR n))).
      rewrite Hsum. cbn [XR.mul]. rewrite div_fin by lra. reflexivity. }
    split; [exact Hw0|]. split; [|split; [exact Hwi|exact Hwi]].
    unfold UnscentedTransform.weight_cov_0. rewrite Hw0. cbn. f_equal. ring.
  - intros ->.
    unfold UnscentedTransform.weight_mean_0, UnscentedTransform.weight_mean_i.
    rewrite Hlam.
    change (XR.div (Fin 0) (XR.add dim (Fin 0)) = NaN
            /\ XR.div (Fin 1) (XR.mul (Fin 2) (XR.add dim (Fin 0))) = PInf).
    rewrite Hsum. cbn [XR.mul XR.div].
    replace (2 * 0)%R with 0%R by ring.
    destruct (Req_dec_T 0 0) as [_|Hne]; [|by destruct Hne].
    unfold XR.inf_times.
    destruct (Req_dec_T 0 0) as [_|Hne]; [|by destruct Hne].
    destruct (Req_dec_T 1 0) as [E|_]; [lra|].
    destruct (Rlt_dec 0 1) as [_|Hn1]; [|lra].
    done.
Qed.

Lemma default_parameters_witness :
  UnscentedTransform.lambda_scalar (Real := XReal)
    UnscentedTransform.default_alpha UnscentedTransform.default_kappa (of_int 2) = Fin 0.
Proof.
  destruct (default_parameters 2) as [Hlam _]; [lia|exact Hlam].
Defined.

(* ===================================================================== *)
(** * Further properties of the multi-sensor update *)
(* ===================================================================== *)

Section UpdateEdges.
Context {Real Mat Model PS : Type}.
Context `{Scalar Real} `{EigenOps Real Mat} `{JointModelOps Real Mat Model}
        `{QuadratureOps Mat (Belief Mat) PS}.
Variable solve : Mat -> Mat -> Mat.
Variable NDEBUG : bool.
Import MultiSensorSigmaPointUpdatePolizzle.

Local Open Scope mat_scope.

(** X5: [is_valid(vector, start, end)] holds exactly when every component
    with an index [k], [start <= k < end], is finite: the range is
    half-open, and an empty one is valid whatever the vector holds. *)
Theorem is_valid_iff (vector : Mat) (start end_ : Z) :
  (is_valid vector start end_ = true
   <-> forall k, (start <= k < end_)%Z -> std_isfinite (coeff vector k) = true)
  /\ ((end_ <= start)%Z -> is_valid vector start end_ = true).
Proof.
  assert (Hiff : is_valid vector start end_ = true
            <-> forall k, (start <= k < end_)%Z -> std_isfinite (coeff vector k) = true).
  { unfold is_valid. rewrite forallb_forall. split.
    - intros Hall k Hk. apply Hall, list_elem_of_In, elem_of_seqZ. lia.
    - intros Hall k Hk. apply list_elem_of_In, elem_of_seqZ in Hk. apply Hall. lia. }
  split; [exact Hiff|].
  intros Hempty. apply Hiff. intros k Hk. lia.
Qed.

(** The validity of a range is the conjunction of the validities of its
    parts. *)
Lemma is_valid_split (vector : Mat) (a b c : Z) :
  (a <= b <= c)%Z ->
  is_valid vector a c = is_valid vector a b && is_valid vector b c.
Proof.
  intros Habc. unfold is_valid.
  replace (c - a)%Z with ((b - a) + (c - b))%Z by lia.
  rewrite seqZ_app by lia. rewrite forallb_app.
  replace (a + (b - a))%Z with b by lia. reflexivity.
Qed.

(** The sensor selected after the loop is the last one whose slice of the
    measurement is finite. *)
Lemma loop_selects (obsrv_function : Model) (y : Mat) (dim_y : Z) (p_X p_Q : PS)
    (X W c_xx_inv : Mat) (sensors : list Z) (st : LoopState Mat) :
  selected_id (foldl (fun st i =>
                        sensor_iteration solve obsrv_function y dim_y p_X p_Q X W c_xx_inv i st)
                     st sensors)
  = default (selected_id st)
      (last (filter (fun i => is_valid y (i * dim_y) (i * dim_y + dim_y) = true) sensors)).
Proof.
  revert st. induction sensors as [|i sensors IH]; intros st; [reflexivity|].
  cbn [foldl]. rewrite IH. unfold sensor_iteration.
  destruct (is_valid y (i * dim_y) (i * dim_y + dim_y)) eqn:Ey; cbn [negb].
  - rewrite filter_cons_True by done. rewrite last_cons.
    destruct (last _) as [j|]; [reflexivity|].
    cbn [default]. by destruct (negb (is_valid _ 0 dim_y)).
  - rewrite filter_cons_False by (rewrite Ey; done). reflexivity.
Qed.

(** X7: The update leaves a trace on the observation model: the sensor id it
    selects with [feature_model.id(i)].  After the call the model has the
    id of the last sensor whose measurement slice is finite, also when
    that sensor was then skipped for the mean of its body branch; if no
    slice is finite the id is the one selected before the call. *)
Theorem update_selected_id (obsrv_function : Model) (id0 : Z)
    (prior_belief : Belief Mat) (y : Mat) (posterior_belief : Belief Mat) :
  count_local_models obsrv_function <> 0%Z ->
  NDEBUG = true \/ Z.rem (size y) (count_local_models obsrv_function) = 0%Z ->
  let sensor_count := count_local_models obsrv_function in
  let dim_y := Z.quot (size y) sensor_count in
  exists posterior,
    update solve NDEBUG obsrv_function id0 prior_belief y posterior_belief
    = Returned (posterior,
                default id0
                  (last (filter (fun i => is_valid y (i * dim_y) (i * dim_y + dim_y) = true)
                                (seqZ 0 sensor_count)))).
Proof.
  intros Hcount Hassert sensor_count dim_y.
  unfold update. rewrite update_over_eq.
  destruct (guards_passed NDEBUG obsrv_function y Hcount Hassert) as [-> ->].
  cbv zeta. rewrite loop_selects. cbn [selected_id].
  eexists. reflexivity.
Qed.

Lemma filter_agree (f g : Z -> bool) (b : bool) (l : list Z) :
  (forall i, i ∈ l -> f i = g i) ->
  filter (fun i => f i = b) l = filter (fun i => g i = b) l.
Proof.
  intros Hsame. induction l as [|i l IH]; [reflexivity|].
  assert (Hi := Hsame i ltac:(left)).
  assert (Hrest : filter (fun i => f i = b) l = filter (fun i => g i = b) l).
  { apply IH. intros j Hj. apply Hsame. by right. }
  destruct (decide (f i = b)) as [E|E].
  - rewrite !filter_cons_True by congruence. by rewrite Hrest.
  - rewrite !filter_cons_False by congruence. exact Hrest.
Qed.

(** X8: The posterior covariance does not depend on the values measured: two
    measurements of one size whose slices are finite for the same sensors
    give the same posterior covariance and dimension, and leave the same
    sensor selected (the posterior means differ). *)
Theorem posterior_covariance_measurement (obsrv_function : Model) (id0 : Z)
    (prior_belief : Belief Mat) (y y' : Mat) (posterior_belief : Belief Mat) :
  count_local_models obsrv_function <> 0%Z ->
  NDEBUG = true \/ Z.rem (size y) (count_local_models obsrv_function) = 0%Z ->
  size y' = size y ->
  (forall i, (0 <= i < count_local_models obsrv_function)%Z ->
     let dim_y := Z.quot (size y) (count_local_models obsrv_function) in
     is_valid y' (i * dim_y) (i * dim_y + dim_y)
     = is_valid y (i * dim_y) (i * dim_y + dim_y)) ->
  exists posterior posterior' id,
    update solve NDEBUG obsrv_function id0 prior_belief y posterior_belief
    = Returned (posterior, id)
    /\ update solve NDEBUG obsrv_function id0 prior_belief y' posterior_belief
       = Returned (posterior', id)
    /\ belief_covariance posterior' = belief_covariance posterior
    /\ belief_dimension posterior' = belief_dimension posterior.
Proof.
  intros Hcount Hassert Hsize Hvalid.
  set (sensors := seqZ 0 (count_local_models obsrv_function)).
  assert (Hassert' : NDEBUG = true
            \/ Z.rem (size y') (count_local_models obsrv_function) = 0%Z)
    by (rewrite Hsize; exact Hassert).
  assert (Hdim : UpdateSpec.dim_y obsrv_function y' = UpdateSpec.dim_y obsrv_function y)
    by (unfold UpdateSpec.dim_y; by rewrite Hsize).
  assert (Hslice : forall i, i ∈ sensors ->
            is_valid y' (i * UpdateSpec.dim_y obsrv_function y')
                        (i * UpdateSpec.dim_y obsrv_function y'
                         + UpdateSpec.dim_y obsrv_function y')
            = is_valid y (i * UpdateSpec.dim_y obsrv_function y)
                         (i * UpdateSpec.dim_y obsrv_function y
                          + UpdateSpec.dim_y obsrv_function y)).
  { intros i Hi. apply elem_of_seqZ in Hi. rewrite Hdim. apply Hvalid. lia. }
  assert (Hskip : forall i, i ∈ sensors ->
            UpdateSpec.skipped obsrv_function prior_belief y' i
            = UpdateSpec.skipped obsrv_function prior_belief y i).
  { intros i Hi. unfold UpdateSpec.skipped. rewrite (Hslice i Hi), Hdim. reflexivity. }
  unfold update. rewrite !update_over_eq.
  destruct (guards_passed NDEBUG obsrv_function y Hcount Hassert) as [-> ->].
  destruct (guards_passed NDEBUG obsrv_function y' Hcount Hassert') as [_ ->].
  fold sensors. cbv zeta.
  destruct (loop_accumulates solve obsrv_function prior_belief y sensors
              (UpdateSpec.c_xx_inv prior_belief)
              (Zero (size (UpdateSpec.mu_x prior_belief))) id0) as [id1 Hloop].
  destruct (loop_accumulates solve obsrv_function prior_belief y' sensors
              (UpdateSpec.c_xx_inv prior_belief)
              (Zero (size (UpdateSpec.mu_x prior_belief))) id0) as [id2 Hloop'].
  cbv zeta in Hloop, Hloop'.
  assert (Hid : id2 = id1).
  { transitivity (default id0
      (last (filter (fun i => is_valid y (i * UpdateSpec.dim_y obsrv_function y)
                                (i * UpdateSpec.dim_y obsrv_function y
                                 + UpdateSpec.dim_y obsrv_function y) = true) sensors))).
    - apply (f_equal selected_id) in Hloop'. rewrite loop_selects in Hloop'.
      cbn [selected_id] in Hloop'. rewrite <- Hloop'. f_equal. f_equal.
      by apply (filter_agree _ _ true).
    - apply (f_equal selected_id) in Hloop. rewrite loop_selects in Hloop.
      cbn [selected_id] in Hloop. exact Hloop. }
  rewrite Hloop, Hloop', Hid. cbn [acc_C acc_D selected_id].
  do 3 eexists. split; [reflexivity|]. split; [reflexivity|].
  cbn [belief_covariance belief_dimension]. split; [|reflexivity].
  f_equal. f_equal.
  by apply (filter_agree _ _ false).
Qed.
End UpdateEdges.

Lemma update_selected_id_witness :
  exists posterior,
    MultiSensorSigmaPointUpdatePolizzle.update solve false tt 7 prior (Fin 3) prior
    = Returned (posterior, 0%Z).
Proof.
  destruct (update_selected_id solve false tt 7 prior (Fin 3) prior) as [posterior Hrun].
  - change (1 <> 0)%Z. lia.
  - right. reflexivity.
  - exists posterior. exact Hrun.
Defined.

Lemma posterior_covariance_measurement_witness :
  exists posterior posterior' id,
    MultiSensorSigmaPointUpdatePolizzle.update solve false tt 7 prior (Fin 3) prior
    = Returned (posterior, id)
    /\ MultiSensorSigmaPointUpdatePolizzle.update solve false tt 7 prior (Fin 4) prior
       = Returned (posterior', id)
    /\ belief_covariance posterior' = belief_covariance posterior.
Proof.
  destruct (posterior_covariance_measurement solve false tt 7 prior (Fin 3) (Fin 4) prior)
    as (posterior & posterior' & id & Hrun & Hrun' & Hcov & _).
  - change (1 <> 0)%Z. lia.
  - right. reflexivity.
  - reflexivity.
  - intros i Hi. reflexivity.
  - exists posterior, posterior', id. split; [exact Hrun|]. split; [exact Hrun'|exact Hcov].
Defined.

(* ===================================================================== *)
(** * Further properties of the Gaussian *)
(* ===================================================================== *)

Section GaussianMembersFacts.
Context {Real Mat : Type} `{Scalar Real} `{EigenOps Real Mat}.
Import FFGaussian.

Local Open Scope mat_scope.

Lemma Dimension_call (g : Gaussian Real Mat) (c : setter) :
  noise_dimension (call g c) = noise_dimension g.
Proof.
  destruct c as [|m|s]; cbn [call]; [|reflexivity|].
  - unfold SetUnit, Covariance, Mean, Dimension. cbn [noise_dimension covariance_ mean_].
    by destruct (_ =? _).
  - unfold Covariance. by destruct (_ =? _).
Qed.

Lemma Dimension_after (d : Z) (raw : Gaussian Real Mat) (calls : list setter) :
  noise_dimension (after d raw calls) = d.
Proof.
  unfold after.
  assert (Hinit : noise_dimension (construct d raw) = d).
  { unfold construct, SetUnit, Covariance, Mean, Dimension.
    cbn [noise_dimension covariance_ mean_]. by destruct (_ =? _). }
  revert Hinit. generalize (construct d raw).
  induction calls as [|c calls IH]; intros g Hg; [exact Hg|].
  cbn [foldl]. apply IH. by rewrite Dimension_call.
Qed.

Lemma Covariance_factor (covariance : Mat) (g : Gaussian Real Mat) :
  cholesky_factor_ (Covariance covariance g) = cholesky_of covariance
  /\ covariance_ (Covariance covariance g) = covariance.
Proof. unfold Covariance, cholesky_of. by destruct (_ =? _). Qed.

Lemma factor_call (g : Gaussian Real Mat) (c : setter) :
  cholesky_factor_ g = cholesky_of (covariance_ g) ->
  cholesky_factor_ (call g c) = cholesky_of (covariance_ (call g c)).
Proof.
  intros Hg. destruct c as [|m|s]; cbn [call].
  - unfold SetUnit.
    match goal with |- context [Covariance ?s ?g'] =>
      destruct (Covariance_factor s g') as [-> ->] end.
    reflexivity.
  - exact Hg.
  - by destruct (Covariance_factor s g) as [-> ->].
Qed.

(** X9: The factor that [MapStandardGaussian] multiplies a sample with is, after
    the construction and after every sequence of calls of [SetUnit], [Mean]
    and [Covariance], the factor [P^T L sqrt|D|] of the covariance that
    [Covariance()] returns, and the sample is mapped to
    [Mean() + factor * sample].  This holds also for a covariance that the
    rank check rejects: a call of [Covariance] with it clears the rank
    flag, leaves the precision and the normalizer as they were before the
    call, and still makes [MapStandardGaussian] use the factor of the new
    covariance. *)
Theorem MapStandardGaussian_after (d : Z) (raw : Gaussian Real Mat) (calls : list setter)
    (sample : Mat) :
  let g := after d raw calls in
  cholesky_factor_ g = cholesky_of (get_Covariance g)
  /\ MapStandardGaussian g sample = get_Mean g + cholesky_of (get_Covariance g) * sample
  /\ forall covariance,
       qr_rank covariance <> rows covariance ->
       let g' := after d raw (calls ++ [CallCovariance covariance]) in
       full_rank_ g' = false
       /\ precision_ g' = precision_ g
       /\ log_normalizer_ g' = log_normalizer_ g
       /\ get_Covariance g' = covariance
       /\ MapStandardGaussian g' sample = get_Mean g + cholesky_of covariance * sample.
Proof.
  intros g.
  assert (Hfactor : cholesky_factor_ g = cholesky_of (covariance_ g)).
  { subst g. unfold after.
    assert (Hinit : cholesky_factor_ (construct d raw)
                 = cholesky_of (covariance_ (construct d raw))).
    { unfold construct, SetUnit.
      match goal with |- context [Covariance ?s ?g'] =>
        destruct (Covariance_factor s g') as [-> ->] end.
      reflexivity. }
    revert Hinit. generalize (construct d raw).
    induction calls as [|c calls IH]; intros g Hg; [exact Hg|].
    cbn [foldl]. apply IH. by apply factor_call. }
  split; [exact Hfactor|].
  split; [unfold MapStandardGaussian, get_Mean, get_Covariance; by rewrite Hfactor|].
  intros covariance Hrank g'.
  assert (Hg' : g' = Covariance covariance g).
  { subst g' g. unfold after. rewrite foldl_app. reflexivity. }
  rewrite Hg'. unfold MapStandardGaussian, get_Mean, get_Covariance, Covariance.
  apply Z.eqb_neq in Hrank. rewrite Hrank.
  cbn [full_rank_ precision_ log_normalizer_ covariance_ mean_ cholesky_factor_].
  unfold cholesky_of. done.
Qed.

Lemma SetUnit_unit (g : Gaussian Real Mat) :
  qr_rank (Identity (noise_dimension g) (noise_dimension g))
  = rows (Identity (noise_dimension g) (noise_dimension g)) ->
  SetUnit g = unit_Gaussian (noise_dimension g).
Proof.
  intros Hrank. unfold SetUnit, Covariance, Mean, Dimension.
  cbn [noise_dimension mean_ covariance_ precision_ log_normalizer_].
  rewrite Hrank, Z.eqb_refl. reflexivity.
Qed.

(** X10: When the rank check accepts the identity matrix, the constructor
    leaves no member as it found it: the Gaussian constructed is the
    standard Gaussian of its dimension whatever the memory held before,
    and [SetUnit] brings a Gaussian back to it after every sequence of
    calls. *)
Theorem SetUnit_resets (d : Z) (raw : Gaussian Real Mat) (calls : list setter) :
  qr_rank (Identity d d) = rows (Identity d d) ->
  construct d raw = unit_Gaussian d
  /\ after d raw (calls ++ [CallSetUnit]) = unit_Gaussian d.
Proof.
  intros Hrank. split.
  - unfold construct. rewrite SetUnit_unit; [reflexivity|exact Hrank].
  - unfold after. rewrite foldl_app. cbn [foldl call].
    fold (after d raw calls).
    rewrite SetUnit_unit; rewrite Dimension_after; [reflexivity|exact Hrank].
Qed.

Lemma mean_Covariance (covariance : Mat) (g : Gaussian Real Mat) :
  mean_ (Covariance covariance g) = mean_ g.
Proof. unfold Covariance. by destruct (_ =? _). Qed.

(** X11: [Mean] and [Covariance] do not disturb each other and keep the
    dimension: [Mean()] returns the mean set last however many covariances
    were set after it, [Covariance()] returns the covariance set last (also
    one without full rank) however many means were set after it, and
    [Dimension()] is the dimension of the construction. *)
Theorem setters_round_trip (d : Z) (raw : Gaussian Real Mat) (calls : list setter)
    (mean covariance : Mat) (means covariances : list Mat) :
  get_Mean (after d raw (calls ++ CallMean mean :: (CallCovariance <$> covariances))) = mean
  /\ get_Covariance (after d raw (calls ++ CallCovariance covariance :: (CallMean <$> means)))
     = covariance
  /\ Dimension (after d raw calls) = d.
Proof.
  split; [|split].
  - unfold get_Mean, after. rewrite foldl_app. cbn [foldl call].
    generalize (foldl call (construct d raw) calls). intros g.
    assert (Hm : mean_ (Mean mean g) = mean) by reflexivity.
    revert Hm. generalize (Mean mean g).
    induction covariances as [|s covariances IH]; intros g' Hg'; [exact Hg'|].
    rewrite fmap_cons. cbn [foldl call]. apply IH. by rewrite mean_Covariance.
  - unfold get_Covariance, after. rewrite foldl_app. cbn [foldl call].
    generalize (foldl call (construct d raw) calls). intros g.
    assert (Hc : covariance_ (Covariance covariance g) = covariance)
      by apply Covariance_factor.
    revert Hc. generalize (Covariance covariance g).
    induction means as [|mu means IH]; intros g' Hg'; [exact Hg'|].
    rewrite fmap_cons. cbn [foldl call]. apply IH. by destruct g'.
  - apply Dimension_after.
Qed.
End GaussianMembersFacts.

Lemma MapStandardGaussian_after_witness :
  precision_ (FFGaussian.after 1 (mkGaussian 0 NaN NaN false NaN NaN NaN)
                ([] ++ [FFGaussian.CallCovariance (Fin 0)]))
  = precision_ (FFGaussian.after 1 (mkGaussian 0 NaN NaN false NaN NaN NaN) []).
Proof.
  destruct (MapStandardGaussian_after 1 (mkGaussian 0 NaN NaN false NaN NaN NaN) [] (Fin 0))
    as (_ & _ & Hrank).
  destruct (Hrank (Fin 0)) as (_ & Hprecision & _).
  - cbn. destruct (Req_dec_T 0 0) as [_|Hne]; [lia|by destruct Hne].
  - exact Hprecision.
Defined.

Lemma SetUnit_resets_witness :
  FFGaussian.construct 1 (mkGaussian 0 NaN NaN false NaN NaN NaN) = unit_Gaussian 1.
Proof.
  destruct (SetUnit_resets 1 (mkGaussian 0 NaN NaN false NaN NaN NaN) []) as [Hc _].
  - cbn. destruct (Req_dec_T 1 0) as [E|_]; [lra|reflexivity].
  - exact Hc.
Defined.

(* ===================================================================== *)
(** * Further properties of the transition density *)
(* ===================================================================== *)

Section DensityEdges.
Context {FloatingPoint : Type} `{Scalar FloatingPoint}.
Context {State Input : Type}.
Variable log_probability : State -> State -> Input -> FloatingPoint -> FloatingPoint.
Variable NDEBUG : bool.
Import StateTransitionDensity.

(** An index outside one of the arrays stops the loop, wherever it is in
    the list of indices. *)
Lemma log_probabilities_loop_stops (states cond_states : list State)
    (cond_inputs : list Input) (dt : FloatingPoint) (indices : list nat) :
  (exists i, i ∈ indices
     /\ ((length states <= i)%nat \/ (length cond_states <= i)%nat
         \/ (length cond_inputs <= i)%nat)) ->
  log_probabilities_loop log_probability NDEBUG states cond_states cond_inputs dt indices
  = if NDEBUG then UndefinedBehaviour else AssertionFailed.
Proof.
  induction indices as [|i indices IH]; intros (i0 & Hin & Hout).
  - by apply elem_of_nil in Hin.
  - cbn [log_probabilities_loop].
    destruct (states !! i) as [s|] eqn:Es; [|reflexivity].
    destruct (cond_states !! i) as [c|] eqn:Ec; [|reflexivity].
    destruct (cond_inputs !! i) as [u|] eqn:Eu; [|reflexivity].
    apply elem_of_cons in Hin as [->|Hin].
    + apply lookup_lt_Some in Es, Ec, Eu. lia.
    + rewrite IH by (exists i0; done). by destruct NDEBUG.
Qed.

(** X12: How [log_probabilities] ends.  The assertion compares the size of
    [states] with the size of [cond_inputs] only.  If it fails, the call
    stops there.  Otherwise the call returns one value for each state, the
    value at [j] being [log_probability(states[j], cond_states[j],
    cond_inputs[j], dt)], when [cond_states] and [cond_inputs] have at
    least the size of [states]; and it reads outside an array when one of
    them is shorter, also in a build with assertions when it is
    [cond_states]. *)
Theorem log_probabilities_outcome (states cond_states : list State)
    (cond_inputs : list Input) (dt : FloatingPoint) :
  let run := log_probabilities log_probability NDEBUG states cond_states cond_inputs dt in
  (NDEBUG = false -> length states <> length cond_inputs -> run = AssertionFailed)
  /\ (NDEBUG = true \/ length states = length cond_inputs ->
      (length states <= length cond_states)%nat ->
      (length states <= length cond_inputs)%nat ->
      exists values,
        run = Returned values
        /\ length values = length states
        /\ forall j s c u,
             states !! j = Some s -> cond_states !! j = Some c -> cond_inputs !! j = Some u ->
             values !! j = Some (log_probability s c u dt))
  /\ (NDEBUG = true \/ length states = length cond_inputs ->
      (length cond_states < length states)%nat
      \/ (length cond_inputs < length states)%nat ->
      run = if NDEBUG then UndefinedBehaviour else AssertionFailed).
Proof.
  intros run. subst run. unfold log_probabilities.
  split; [|split].
  - intros -> Hne. apply Nat.eqb_neq in Hne. by rewrite Hne.
  - intros Hassert Hcs Hci.
    replace (negb NDEBUG && negb (length states =? length cond_inputs)%nat) with false.
    2:{ destruct Hassert as [-> | ->]; [done|]. by rewrite Nat.eqb_refl, andb_false_r. }
    destruct (log_probabilities_loop_run log_probability NDEBUG states cond_states
                cond_inputs dt (seq 0 (length states))) as (values & -> & Hlen & Hval).
    { intros i Hi. apply elem_of_seq in Hi. lia. }
    exists values. split; [done|]. split; [by rewrite Hlen, length_seq|].
    intros j s c u Hs Hc Hu. apply (Hval j j s c u); [|done|done|done].
    apply lookup_seq. split; [done|]. by apply lookup_lt_Some in Hs.
  - intros Hassert Hshort.
    replace (negb NDEBUG && negb (length states =? length cond_inputs)%nat) with false.
    2:{ destruct Hassert as [-> | ->]; [done|]. by rewrite Nat.eqb_refl, andb_false_r. }
    apply log_probabilities_loop_stops.
    destruct Hshort as [Hshort|Hshort].
    + exists (length cond_states). split; [apply elem_of_seq; lia|lia].
    + exists (length cond_inputs). split; [apply elem_of_seq; lia|lia].
Qed.
End DensityEdges.

(** A batch of two states with one conditional state: the assertion on
    the sizes passes, and the read of the second conditional state is
    outside the array. *)
Example log_probabilities_short_cond_states :
  StateTransitionDensity.log_probabilities
    (fun s c u (dt : XReal) => Fin (IZR (s + 10 * c + 100 * u))) false
    [1; 2] [7] [3; 4] (Fin 0)
  = AssertionFailed.
Proof. reflexivity. Qed.

(* ===================================================================== *)
(** * Properties of the discrete distribution *)
(* ===================================================================== *)

Section DiscreteGeneric.
Context {Real V : Type} `{Scalar Real} `{ScalarOrder Real}.
Variable NDEBUG : bool.
Variable fresh_Variate : nat -> list V.
Import FLDiscreteDistribution.

Lemma vector_resize_length (n : nat) (v : list Real) : length (vector_resize n v) = n.
Proof. unfold vector_resize. rewrite length_app, length_take, length_replicate. lia. Qed.

Lemma resize_locations_length (n : nat) (l : list (list V)) :
  length (resize_locations fresh_Variate n l) = n.
Proof.
  unfold resize_locations. destruct (Nat.eqb_spec (length l) n) as [E|_]; [exact E|].
  by rewrite length_fmap, length_seq.
Qed.

Lemma at_lookup {A} (a : list A) (i : nat) (x : A) :
  a !! i = Some x -> at_ NDEBUG a (Z.of_nat i) = Returned x.
Proof.
  intros Hx. unfold at_.
  destruct (Z.ltb_spec (Z.of_nat i) 0) as [Hneg|_]; [lia|].
  by rewrite Nat2Z.id, Hx.
Qed.

Lemma at_outside {A} (a : list A) (i : Z) :
  (i < 0 \/ Z.of_nat (length a) <= i)%Z ->
  at_ NDEBUG a i = if NDEBUG then UndefinedBehaviour else AssertionFailed.
Proof.
  intros Hout. unfold at_.
  destruct (Z.ltb_spec i 0) as [Hneg|Hpos]; [reflexivity|].
  rewrite lookup_ge_None_2 by lia. reflexivity.
Qed.

(** The loop over the indices from [1] on fills the vector with the
    running sums of the masses. *)
Lemma cumul_loop_run (p_done todo junk done : list Real) (last : Real) :
  length junk = length todo -> length p_done = S (length done) ->
  cumul_loop NDEBUG (p_done ++ todo) (seq (S (length done)) (length todo))
             (done ++ last :: junk)
  = Returned (done ++ last :: running last todo).
Proof.
  revert p_done junk done last.
  induction todo as [|p todo IH]; intros p_done junk done last Hj Hp.
  - destruct junk; [|done]. reflexivity.
  - destruct junk as [|j junk]; [done|]. cbn [length seq cumul_loop running].
    replace (S (length done) - 1)%nat with (length done) by lia.
    rewrite lookup_app_r by lia. rewrite Nat.sub_diag. cbn [lookup list_lookup].
    rewrite (at_lookup _ _ p).
    2:{ rewrite lookup_app_r by lia. by rewrite Hp, Nat.sub_diag. }
    cbn [obind].
    rewrite insert_app_r_alt by lia.
    replace (S (length done) - length done)%nat with 1%nat by lia.
    cbn [insert list_insert].
    specialize (IH (p_done ++ [p]) junk (done ++ [last]) (fadd last p)).
    rewrite <- !app_assoc in IH. cbn [app] in IH.
    rewrite !length_app in IH. cbn [length] in IH.
    replace (length done + 1)%nat with (S (length done)) in IH by lia.
    apply IH; [by injection Hj|lia].
Qed.

(** The call for log-masses that are not empty, in terms of the maximum
    found. *)
Lemma log_unnormalized_prob_mass_run (x : Real) (rest : list Real)
    (d : DiscreteDistribution Real V) :
  let log_prob_mass := x :: rest in
  let max := foldl (fun res v => if flt res v then v else res) x rest in
  let log_prob_mass_1 := (fun x => fsub x max) <$> log_prob_mass in
  let prob_mass_1 := std_exp <$> log_prob_mass_1 in
  let sum := Array_sum prob_mass_1 in
  let prob_mass_2 := (fun x => fdiv x sum) <$> prob_mass_1 in
  let log_prob_mass_2 := (fun x => fsub x (std_log sum)) <$> log_prob_mass_1 in
  log_unnormalized_prob_mass NDEBUG fresh_Variate log_prob_mass d
  = Returned (mkDiscreteDistribution
                (resize_locations fresh_Variate (length log_prob_mass) (locations_ d))
                log_prob_mass_2 prob_mass_2 (cumulative prob_mass_2)).
Proof.
  intros log_prob_mass max log_prob_mass_1 prob_mass_1 sum prob_mass_2 log_prob_mass_2.
  unfold log_unnormalized_prob_mass. unfold log_prob_mass at 1.
  cbn [maxCoeff obind].
  fold max log_prob_mass log_prob_mass_1 prob_mass_1 sum prob_mass_2 log_prob_mass_2.
  assert (Hlen : length log_prob_mass_2 = S (length rest)).
  { subst log_prob_mass_2 log_prob_mass_1 log_prob_mass. by rewrite !length_fmap. }
  assert (Hlen' : length log_prob_mass = S (length rest)) by reflexivity.
  rewrite Hlen, Hlen'.
  destruct prob_mass_2 as [|p0 ps] eqn:Ep.
  { apply (f_equal length) in Ep. subst prob_mass_2 prob_mass_1 log_prob_mass_1 log_prob_mass.
    rewrite !length_fmap in Ep. discriminate Ep. }
  assert (Hps : length ps = length rest).
  { apply (f_equal length) in Ep. subst prob_mass_2 prob_mass_1 log_prob_mass_1 log_prob_mass.
    rewrite !length_fmap in Ep. cbn in Ep. lia. }
  change (at_ NDEBUG (p0 :: ps) 0) with (Returned (A := Real) p0). cbn [obind].
  destruct (vector_resize (S (length rest)) (cumul_distr_ d)) as [|c0 junk] eqn:Ev.
  { apply (f_equal length) in Ev. rewrite vector_resize_length in Ev. discriminate Ev. }
  assert (Hjunk : length junk = length ps).
  { apply (f_equal length) in Ev. rewrite vector_resize_length in Ev. cbn in Ev. lia. }
  cbn [obind insert list_insert length].
  replace (S (length junk) - 1)%nat with (length ps) by lia.
  pose proof (cumul_loop_run [p0] ps junk [] p0 Hjunk eq_refl) as Hloop.
  cbn [app length] in Hloop. rewrite Hloop.
  reflexivity.
Qed.

(** X13: A distribution as the constructor leaves it has one location, the
    zero vector, the log-mass [0], the cumulative value [1], and no mass:
    [prob_mass_] is the empty array.  With the one cumulative value,
    [map_standard_uniform] returns the zero vector for every sample that
    [1] is not less than, and reads past the locations for a sample above
    [1].  Until a mass function is set, the calls that read a mass
    ([prob_mass(0)], [mean()], [covariance()], [entropy()],
    [kl_given_uniform()]) stop at an assertion of Eigen, and have no
    defined behaviour where the assertions are compiled out. *)
Theorem constructed_has_no_mass (v_zero : V) (cast : V -> Real) (dim : Z) :
  (0 <= dim)%Z ->
  exists d,
    construct NDEBUG v_zero dim = Returned d
    /\ size d = 1%Z
    /\ location NDEBUG 0 d = Returned (replicate (Z.to_nat dim) v_zero)
    /\ dimension NDEBUG d = Returned dim
    /\ log_prob_mass d = [of_int 0]
    /\ prob_mass d = []
    /\ locations d = [replicate (Z.to_nat dim) v_zero]
    /\ cumul_distr_ d = [of_int 1]
    /\ (forall uniform_sample,
          map_standard_uniform NDEBUG uniform_sample d
          = if flt (of_int 1) uniform_sample
            then (if NDEBUG then UndefinedBehaviour else AssertionFailed)
            else Returned (replicate (Z.to_nat dim) v_zero))
    /\ prob_mass_at NDEBUG 0 d = (if NDEBUG then UndefinedBehaviour else AssertionFailed)
    /\ mean NDEBUG cast d = (if NDEBUG then UndefinedBehaviour else AssertionFailed)
    /\ covariance NDEBUG cast d = (if NDEBUG then UndefinedBehaviour else AssertionFailed)
    /\ entropy NDEBUG d = (if NDEBUG then UndefinedBehaviour else AssertionFailed)
    /\ kl_given_uniform NDEBUG d
       = (if NDEBUG then UndefinedBehaviour else AssertionFailed).
Proof.
  intros Hdim. eexists. split.
  { unfold construct, eigen_assert.
    replace (0 <=? dim)%Z with true by (symmetry; by apply Z.leb_le).
    reflexivity. }
  split; [reflexivity|]. split; [reflexivity|].
  split.
  { unfold dimension. cbn [locations_].
    rewrite (at_lookup _ 0%nat (replicate (Z.to_nat dim) v_zero)) by reflexivity.
    cbn [obind]. rewrite length_replicate. f_equal. lia. }
  split; [reflexivity|]. split; [reflexivity|].
  split; [reflexivity|]. split; [reflexivity|].
  split.
  { intros uniform_sample. unfold map_standard_uniform, partitioned.
    cbn [cumul_distr_ locations_ lower_bound].
    destruct (flt (of_int 1) uniform_sample) eqn:Elt.
    - cbn [drop forallb]. unfold at_. cbn. by destruct NDEBUG.
    - cbn [drop forallb]. rewrite Elt. reflexivity. }
  assert (Hmean : mean NDEBUG cast
            (mkDiscreteDistribution [replicate (Z.to_nat dim) v_zero] [of_int 0] [] [of_int 1])
          = if NDEBUG then UndefinedBehaviour else AssertionFailed).
  { unfold mean, dimension. cbn. by destruct NDEBUG. }
  split; [reflexivity|].
  split; [exact Hmean|].
  split.
  { unfold covariance. rewrite Hmean. by destruct NDEBUG. }
  split.
  { unfold entropy, eigen_assert. cbn. by destruct NDEBUG. }
  unfold kl_given_uniform, entropy, eigen_assert. cbn. by destruct NDEBUG.
Qed.
End DiscreteGeneric.

Section DiscreteLocations.
Context {Real V : Type} `{Scalar Real}.
Variable NDEBUG : bool.
Import FLDiscreteDistribution.

(** X14: A location written through the reference [location(i)] is the one
    read back at [i]; the other locations, the number of locations and the
    masses are as before.  An index outside [0, size()) stops the call at
    the assertion of Eigen, or has no defined behaviour. *)
Theorem location_round_trip (i : Z) (v : list V) (d : DiscreteDistribution Real V) :
  ((0 <= i < size d)%Z ->
   exists d',
     set_location NDEBUG i v d = Returned d'
     /\ location NDEBUG i d' = Returned v
     /\ (forall j, j <> i -> location NDEBUG j d' = location NDEBUG j d)
     /\ size d' = size d
     /\ prob_mass d' = prob_mass d
     /\ log_prob_mass d' = log_prob_mass d)
  /\ ((i < 0 \/ size d <= i)%Z ->
      set_location NDEBUG i v d = if NDEBUG then UndefinedBehaviour else AssertionFailed).
Proof.
  unfold size. split.
  - intros Hi.
    destruct (lookup_lt_is_Some_2 (locations_ d) (Z.to_nat i)) as [x Hx]; [lia|].
    eexists. split.
    { unfold set_location. rewrite <- (Z2Nat.id i) at 1 by lia.
      rewrite (at_lookup NDEBUG _ _ x Hx). reflexivity. }
    unfold location. cbn [locations_].
    split.
    { rewrite <- (Z2Nat.id i) at 2 by lia. apply at_lookup.
      apply list_lookup_insert_eq. lia. }
    split.
    { intros j Hj. unfold at_. destruct (Z.ltb_spec j 0) as [|Hj0]; [reflexivity|].
      rewrite list_lookup_insert_ne by lia. reflexivity. }
    split; [by rewrite length_insert|]. split; reflexivity.
  - intros Hi. unfold set_location. rewrite at_outside by lia. by destruct NDEBUG.
Qed.
End DiscreteLocations.

(** ** Exact arithmetic: finite log-masses *)

Section RealSums.
Local Open Scope R_scope.

Lemma Rsum_fmap_le {A} (f g : A -> R) (l : list A) :
  (forall x, x ∈ l -> f x <= g x) -> Rsum (f <$> l) <= Rsum (g <$> l).
Proof.
  intros Hle. induction l as [|x l IH]; [cbn; lra|].
  rewrite !fmap_cons, !Rsum_cons.
  assert (f x <= g x) by (apply Hle; left).
  assert (Rsum (f <$> l) <= Rsum (g <$> l)) by (apply IH; intros y Hy; apply Hle; by right).
  lra.
Qed.

Lemma Rsum_exp_pos (l : list R) : l <> [] -> 0 < Rsum (exp <$> l).
Proof.
  intros Hne. destruct l as [|a l]; [done|].
  rewrite fmap_cons, Rsum_cons.
  assert (0 < exp a) by apply exp_pos.
  assert (0 <= Rsum (exp <$> l)).
  { clear. induction l as [|b l IH]; [cbn; lra|].
    rewrite fmap_cons, Rsum_cons. pose proof (exp_pos b). lra. }
  lra.
Qed.

Lemma Rsum_exp_shift (m : R) (l : list R) :
  Rsum (exp <$> ((fun a => a - m) <$> l)) = exp (- m) * Rsum (exp <$> l).
Proof.
  rewrite <- list_fmap_compose, <- Rsum_fmap_scal.
  apply Rsum_fmap_ext. intros a _. cbn.
  replace (a - m) with (- m + a) by ring. apply exp_plus.
Qed.

(** The masses do not change when a constant is added to the
    log-masses. *)
Lemma Rsum_exp_plus (c : R) (l : list R) :
  Rsum (exp <$> ((fun a => a + c) <$> l)) = exp c * Rsum (exp <$> l).
Proof.
  rewrite <- list_fmap_compose, <- Rsum_fmap_scal.
  apply Rsum_fmap_ext. intros a _. cbn.
  replace (a + c) with (c + a) by ring. apply exp_plus.
Qed.

Lemma softmaxR_shift (c : R) (l : list R) :
  softmaxR ((fun a => a + c) <$> l) = softmaxR l.
Proof.
  destruct (decide (l = [])) as [->|Hne]; [reflexivity|].
  pose proof (Rsum_exp_pos l Hne). pose proof (exp_pos c).
  unfold softmaxR. rewrite Rsum_exp_plus, <- list_fmap_compose.
  apply list_fmap_ext. intros i a _. cbn [compose].
  rewrite exp_plus. field. split; lra.
Qed.

Lemma log_softmaxR_shift (c : R) (l : list R) :
  log_softmaxR ((fun a => a + c) <$> l) = log_softmaxR l.
Proof.
  destruct (decide (l = [])) as [->|Hne]; [reflexivity|].
  pose proof (Rsum_exp_pos l Hne). pose proof (exp_pos c).
  unfold log_softmaxR. rewrite Rsum_exp_plus, <- list_fmap_compose.
  apply list_fmap_ext. intros i a _. cbn [compose].
  rewrite ln_mult by done. rewrite ln_exp. ring.
Qed.

Lemma softmaxR_length (l : list R) : length (softmaxR l) = length l.
Proof. unfold softmaxR. by rewrite length_fmap. Qed.

Lemma softmaxR_sum (l : list R) : l <> [] -> Rsum (softmaxR l) = 1.
Proof.
  intros Hne. pose proof (Rsum_exp_pos l Hne) as Hpos. unfold softmaxR.
  transitivity (/ Rsum (exp <$> l) * Rsum (exp <$> l)); [|field; lra].
  rewrite <- Rsum_fmap_scal. apply Rsum_fmap_ext. intros a _. field. lra.
Qed.

Lemma Rsum_nonneg (l : list R) : Forall (fun x => 0 <= x) l -> 0 <= Rsum l.
Proof.
  induction 1 as [|x l Hx _ IH]; [cbn; lra|]. rewrite Rsum_cons. lra.
Qed.

Lemma softmaxR_range (l : list R) : Forall (fun p => 0 < p <= 1) (softmaxR l).
Proof.
  destruct (decide (l = [])) as [->|Hne]; [constructor|].
  pose proof (softmaxR_sum l Hne) as Hsum.
  assert (Hpos : Forall (fun p => 0 < p) (softmaxR l)).
  { unfold softmaxR. apply Forall_fmap, Forall_forall. intros a _. cbn.
    pose proof (Rsum_exp_pos l Hne). pose proof (exp_pos a).
    apply Rdiv_lt_0_compat; lra. }
  apply Forall_forall. intros p Hp.
  split; [by apply (proj1 (Forall_forall _ _) Hpos)|].
  apply list_elem_of_split in Hp as (l1 & l2 & E).
  rewrite E in Hsum, Hpos. rewrite Rsum_app, Rsum_cons in Hsum.
  apply Forall_app in Hpos as [H1 H2]. apply Forall_cons in H2 as [_ H2].
  assert (0 <= Rsum l1) by (apply Rsum_nonneg; eapply Forall_impl; [exact H1|]; cbn; intros; lra).
  assert (0 <= Rsum l2) by (apply Rsum_nonneg; eapply Forall_impl; [exact H2|]; cbn; intros; lra).
  lra.
Qed.

(** The log-masses are the logarithms of the masses. *)
Lemma log_softmaxR_ln (l : list R) : log_softmaxR l = ln <$> softmaxR l.
Proof.
  destruct (decide (l = [])) as [->|Hne]; [reflexivity|].
  pose proof (Rsum_exp_pos l Hne) as Hpos.
  unfold log_softmaxR, softmaxR. rewrite <- list_fmap_compose.
  apply list_fmap_ext. intros i a _. cbn [compose].
  unfold Rdiv. rewrite ln_mult by (apply exp_pos || by apply Rinv_0_lt_compat).
  rewrite ln_exp, ln_Rinv by done. ring.
Qed.

Lemma runningR_lookup (prev : R) (p : list R) (i : nat) :
  (i < length p)%nat -> runningR prev p !! i = Some (prev + Rsum (take (S i) p)).
Proof.
  revert prev i. induction p as [|x p IH]; intros prev i Hi; [cbn in Hi; lia|].
  destruct i as [|i]; cbn [runningR lookup list_lookup].
  - change (take 1 (x :: p)) with [x]. apply (f_equal Some). cbn. ring.
  - rewrite IH by (cbn in Hi; lia). apply (f_equal Some).
    change (take (S (S i)) (x :: p)) with (x :: take (S i) p).
    rewrite Rsum_cons. ring.
Qed.

(** The cumulative value at [i] is the sum of the masses up to [i]. *)
Lemma cumulativeR_lookup (p : list R) (i : nat) :
  (i < length p)%nat -> cumulativeR p !! i = Some (Rsum (take (S i) p)).
Proof.
  destruct p as [|p0 p]; intros Hi; [cbn in Hi; lia|].
  destruct i as [|i]; cbn [cumulativeR lookup list_lookup].
  - change (take 1 (p0 :: p)) with [p0]. apply (f_equal Some). cbn. ring.
  - rewrite runningR_lookup by (cbn in Hi; lia). apply (f_equal Some).
    change (take (S (S i)) (p0 :: p)) with (p0 :: take (S i) p).
    by rewrite Rsum_cons.
Qed.

Lemma cumulativeR_length (p : list R) : length (cumulativeR p) = length p.
Proof.
  destruct p as [|p0 p]; [reflexivity|]. cbn. f_equal.
  generalize p0. induction p as [|x p IH]; intros q; [reflexivity|]. cbn. by rewrite IH.
Qed.
End RealSums.

Section ScalarTransport.
Lemma log_fin (x : R) : (0 < x)%R -> XR.log (Fin x) = Fin (ln x).
Proof.
  intros Hx. unfold XR.log.
  destruct (Rlt_dec x 0) as [Hneg|_]; [lra|].
  destruct (Req_dec_T x 0) as [E|_]; [lra|]. reflexivity.
Qed.

Lemma max_fin (x : R) (l : list R) :
  exists m, foldl (fun res v => if flt res v then v else res) (Fin x) (fin_vec l) = Fin m.
Proof.
  revert x. induction l as [|a l IH]; intros x; [by exists x|].
  change (fin_vec (a :: l)) with (Fin a :: fin_vec l). cbn [foldl].
  destruct (flt (Fin x) (Fin a)); apply IH.
Qed.

Lemma foldl_add_fin (x : R) (l : list R) :
  foldl fadd (Fin x) (fin_vec l) = Fin (x + Rsum l).
Proof.
  revert x. induction l as [|a l IH]; intros x.
  - cbn. f_equal. ring.
  - change (fin_vec (a :: l)) with (Fin a :: fin_vec l). cbn [foldl].
    change (fadd (Fin x) (Fin a)) with (Fin (x + a)).
    rewrite IH, Rsum_cons. f_equal. ring.
Qed.

Lemma Array_sum_fin (l : list R) : FLDiscreteDistribution.Array_sum (fin_vec l) = Fin (Rsum l).
Proof.
  destruct l as [|x l]; [reflexivity|].
  change (fin_vec (x :: l)) with (Fin x :: fin_vec l).
  cbn [FLDiscreteDistribution.Array_sum].
  rewrite (foldl_add_fin x l). by rewrite Rsum_cons.
Qed.

Lemma running_fin (x : R) (l : list R) :
  running (Fin x) (fin_vec l) = fin_vec (runningR x l).
Proof.
  revert x. induction l as [|a l IH]; intros x; [reflexivity|].
  change (fin_vec (a :: l)) with (Fin a :: fin_vec l). cbn [running runningR].
  change (fin_vec ((x + a)%R :: runningR (x + a) l))
    with (Fin (x + a) :: fin_vec (runningR (x + a) l)).
  change (fadd (Fin x) (Fin a)) with (Fin (x + a)). f_equal. apply IH.
Qed.

Lemma cumulative_fin (l : list R) : cumulative (fin_vec l) = fin_vec (cumulativeR l).
Proof.
  destruct l as [|p0 l]; [reflexivity|].
  change (fin_vec (p0 :: l)) with (Fin p0 :: fin_vec l). cbn [cumulative cumulativeR].
  change (fin_vec (p0 :: runningR p0 l)) with (Fin p0 :: fin_vec (runningR p0 l)).
  f_equal. apply running_fin.
Qed.
End ScalarTransport.

Section DiscreteExact.
Context {V : Type}.
Variable NDEBUG : bool.
Variable fresh_Variate : nat -> list V.
Import FLDiscreteDistribution.

(** The call for finite log-masses: the state it leaves. *)
Lemma set_run (l : list R) (d : DiscreteDistribution XReal V) :
  l <> [] ->
  log_unnormalized_prob_mass NDEBUG fresh_Variate (fin_vec l) d
  = Returned (normalized l (resize_locations fresh_Variate (length l) (locations_ d))).
Proof.
  intros Hne. destruct l as [|a l']; [done|].
  change (fin_vec (a :: l')) with (Fin a :: fin_vec l').
  rewrite log_unnormalized_prob_mass_run.
  destruct (max_fin a l') as [m ->].
  change (Fin a :: fin_vec l') with (fin_vec (a :: l')).
  set (l := a :: l') in *.
  assert (E1 : (fun x : XReal => fsub x (Fin m)) <$> fin_vec l
               = fin_vec ((fun a => a - m)%R <$> l)).
  { unfold fin_vec. by rewrite <- !list_fmap_compose. }
  rewrite E1.
  assert (E2 : forall v, std_exp <$> fin_vec v = fin_vec (exp <$> v)).
  { intros v. unfold fin_vec. by rewrite <- !list_fmap_compose. }
  rewrite E2, Array_sum_fin, Rsum_exp_shift.
  pose proof (Rsum_exp_pos l Hne) as HT. pose proof (exp_pos (- m)) as Hm.
  set (T := Rsum (exp <$> l)) in *.
  assert (HS : (0 < exp (- m) * T)%R) by (apply Rmult_lt_0_compat; lra).
  rewrite log_fin by exact HS.
  assert (E3 : (fun x : XReal => fdiv x (Fin (exp (- m) * T)))
                 <$> fin_vec (exp <$> ((fun a => a - m)%R <$> l))
               = fin_vec (softmaxR l)).
  { unfold fin_vec, softmaxR. rewrite <- !list_fmap_compose.
    apply list_fmap_ext. intros i x _. cbn [compose].
    change (fdiv (Fin (exp (x - m))) (Fin (exp (- m) * T)))
      with (XR.div (Fin (exp (x - m))) (Fin (exp (- m) * T))).
    rewrite div_fin by lra. f_equal. fold T.
    replace (x - m)%R with (- m + x)%R by ring. rewrite exp_plus. field. split; lra. }
  assert (E4 : (fun x : XReal => fsub x (Fin (ln (exp (- m) * T))))
                 <$> fin_vec ((fun a => a - m)%R <$> l)
               = fin_vec (log_softmaxR l)).
  { unfold fin_vec, log_softmaxR. rewrite <- !list_fmap_compose.
    apply list_fmap_ext. intros i x _. cbn [compose].
    change (fsub (Fin (x - m)) (Fin (ln (exp (- m) * T))))
      with (Fin (x - m - ln (exp (- m) * T))).
    f_equal. fold T. rewrite ln_mult by lra. rewrite ln_exp. ring. }
  rewrite E3, E4, cumulative_fin.
  unfold normalized. do 2 f_equal. unfold fin_vec. by rewrite length_fmap.
Qed.

Lemma set_run_empty (d : DiscreteDistribution XReal V) :
  log_unnormalized_prob_mass NDEBUG fresh_Variate [] d
  = if NDEBUG then UndefinedBehaviour else AssertionFailed.
Proof. unfold log_unnormalized_prob_mass, maxCoeff. by destruct NDEBUG. Qed.

(** X15: [log_unnormalized_prob_mass] turns finite log-masses [l], not empty,
    into the masses [exp l_i / Σ_j exp l_j], with the log-masses
    [l_i - ln Σ_j exp l_j]: the maximum it subtracts first has no effect
    on the exact result.  The distribution then has as many locations as
    masses; the locations are the ones it had when their number is the
    same. *)
Theorem log_unnormalized_prob_mass_softmax (l : list R) (d : DiscreteDistribution XReal V) :
  l <> [] ->
  exists d',
    log_unnormalized_prob_mass NDEBUG fresh_Variate (fin_vec l) d = Returned d'
    /\ prob_mass d' = fin_vec (softmaxR l)
    /\ log_prob_mass d' = fin_vec (log_softmaxR l)
    /\ size d' = Z.of_nat (length l)
    /\ (length (locations d) = length l -> locations d' = locations d).
Proof.
  intros Hne. eexists. split; [by apply set_run|].
  split; [reflexivity|]. split; [reflexivity|].
  split.
  - unfold size. cbn [normalized locations_]. by rewrite resize_locations_length.
  - unfold locations. intros Hlen. cbn [normalized locations_].
    unfold resize_locations. apply Nat.eqb_eq in Hlen. by rewrite Hlen.
Qed.

(** X16: After [log_unnormalized_prob_mass] with finite log-masses the masses
    are a probability vector: each is in (0, 1] and they sum to 1; the
    log-mass kept at [i] is the logarithm of the mass at [i]; the
    cumulative value at [i] is the sum of the masses up to [i], and the
    last one is 1. *)
Theorem masses_normalized (l : list R) (d : DiscreteDistribution XReal V) :
  l <> [] ->
  exists d' p,
    log_unnormalized_prob_mass NDEBUG fresh_Variate (fin_vec l) d = Returned d'
    /\ prob_mass d' = fin_vec p
    /\ length p = length l
    /\ Forall (fun x => 0 < x <= 1)%R p
    /\ Rsum p = 1%R
    /\ log_prob_mass d' = fin_vec (ln <$> p)
    /\ (forall i, (i < length l)%nat ->
          cumul_distr_ d' !! i = Some (Fin (Rsum (take (S i) p))))
    /\ last (cumul_distr_ d') = Some (Fin 1).
Proof.
  intros Hne. exists (normalized l (resize_locations fresh_Variate (length l) (locations_ d))).
  exists (softmaxR l).
  split; [by apply set_run|]. split; [reflexivity|].
  split; [apply softmaxR_length|]. split; [apply softmaxR_range|].
  split; [by apply softmaxR_sum|].
  split; [unfold log_prob_mass; cbn [normalized log_prob_mass_]; by rewrite log_softmaxR_ln|].
  assert (Hat : forall i, (i < length l)%nat ->
            fin_vec (cumulativeR (softmaxR l)) !! i
            = Some (Fin (Rsum (take (S i) (softmaxR l))))).
  { intros i Hi. unfold fin_vec. rewrite list_lookup_fmap.
    rewrite cumulativeR_lookup by (by rewrite softmaxR_length). reflexivity. }
  split; [exact Hat|].
  cbn [normalized cumul_distr_]. rewrite last_lookup.
  unfold fin_vec at 1. rewrite length_fmap, cumulativeR_length, softmaxR_length.
  destruct l as [|a l']; [done|]. cbn [length Nat.pred].
  rewrite Hat by (cbn; lia).
  rewrite take_ge by (rewrite softmaxR_length; cbn; lia).
  by rewrite softmaxR_sum.
Qed.

(** A constant added to all log-masses does not change what
    [log_unnormalized_prob_mass] leaves. *)
Lemma set_run_shift (c : R) (l : list R) (d : DiscreteDistribution XReal V) :
  log_unnormalized_prob_mass NDEBUG fresh_Variate (fin_vec ((fun a => a + c)%R <$> l)) d
  = log_unnormalized_prob_mass NDEBUG fresh_Variate (fin_vec l) d.
Proof.
  destruct (decide (l = [])) as [->|Hne]; [reflexivity|].
  rewrite !set_run; [|done|by destruct l].
  unfold normalized. by rewrite softmaxR_shift, log_softmaxR_shift, length_fmap.
Qed.

(** [delta_log_prob_mass] after [log_unnormalized_prob_mass]. *)
Lemma delta_run (l delta : list R) (d : DiscreteDistribution XReal V) :
  length delta = length l ->
  (let* d1 := log_unnormalized_prob_mass NDEBUG fresh_Variate (fin_vec l) d in
   delta_log_prob_mass NDEBUG fresh_Variate (fin_vec delta) d1)
  = log_unnormalized_prob_mass NDEBUG fresh_Variate (fin_vec (zip_with Rplus l delta)) d.
Proof.
  intros Hlen. destruct (decide (l = [])) as [->|Hne].
  { change (fin_vec []) with (@nil XReal). cbn [zip_with].
    change (fin_vec []) with (@nil XReal). rewrite set_run_empty. by destruct NDEBUG. }
  rewrite set_run by done. cbn [obind].
  unfold delta_log_prob_mass. cbn [normalized log_prob_mass_].
  unfold eigen_assert, fin_vec at 1 2. rewrite !length_fmap.
  unfold log_softmaxR at 1. rewrite length_fmap, Hlen, Nat.eqb_refl. cbn [obind].
  change (zip_with fadd (fin_vec (log_softmaxR l)) (fin_vec delta))
    with (vadd (fin_vec (log_softmaxR l)) (fin_vec delta)).
  rewrite vadd_fin.
  assert (Hzip : zip_with Rplus (log_softmaxR l) delta
                 = (fun a => a + - ln (Rsum (exp <$> l)))%R <$> zip_with Rplus l delta).
  { unfold log_softmaxR. clear Hne. revert delta Hlen.
    generalize (ln (Rsum (exp <$> l))). intros c.
    induction l as [|a l IH]; intros [|b delta] Hlen; try done.
    cbn [fmap list_fmap zip_with]. f_equal; [ring|]. apply IH. by injection Hlen. }
  assert (Hne' : zip_with Rplus l delta <> []).
  { destruct l; [done|]. by destruct delta. }
  rewrite Hzip, set_run_shift, !set_run by done.
  cbn [normalized locations_]. do 2 f_equal.
  rewrite length_zip_with, Hlen, Nat.min_id.
  unfold resize_locations at 1. by rewrite resize_locations_length, Nat.eqb_refl.
Qed.

(** X17: Two updates of one distribution compose: [delta_log_prob_mass(delta)]
    after [log_unnormalized_prob_mass(l)] leaves the distribution that
    [log_unnormalized_prob_mass(l + delta)] leaves, locations and
    cumulative values included; an update after another is the update
    with the sum. *)
Theorem delta_log_prob_mass_composes (l delta delta' : list R)
    (d : DiscreteDistribution XReal V) :
  length delta = length l -> length delta' = length l ->
  (let* d1 := log_unnormalized_prob_mass NDEBUG fresh_Variate (fin_vec l) d in
   delta_log_prob_mass NDEBUG fresh_Variate (fin_vec delta) d1)
  = log_unnormalized_prob_mass NDEBUG fresh_Variate (fin_vec (zip_with Rplus l delta)) d
  /\ (let* d1 := log_unnormalized_prob_mass NDEBUG fresh_Variate (fin_vec l) d in
      let* d2 := delta_log_prob_mass NDEBUG fresh_Variate (fin_vec delta) d1 in
      delta_log_prob_mass NDEBUG fresh_Variate (fin_vec delta') d2)
     = (let* d1 := log_unnormalized_prob_mass NDEBUG fresh_Variate (fin_vec l) d in
        delta_log_prob_mass NDEBUG fresh_Variate (fin_vec (zip_with Rplus delta delta')) d1).
Proof.
  intros Hlen Hlen'. split; [by apply delta_run|].
  assert (Hassoc : zip_with Rplus (zip_with Rplus l delta) delta'
                   = zip_with Rplus l (zip_with Rplus delta delta')).
  { clear d. revert delta delta' Hlen Hlen'.
    induction l as [|a l IH]; intros [|b delta] [|b' delta'] Hlen Hlen'; try done.
    cbn [zip_with]. f_equal; [ring|]. apply IH; [by injection Hlen|by injection Hlen']. }
  rewrite (delta_run l (zip_with Rplus delta delta'))
    by (rewrite length_zip_with; lia).
  rewrite <- Hassoc.
  rewrite <- (delta_run (zip_with Rplus l delta) delta')
    by (rewrite length_zip_with; lia).
  rewrite <- (delta_run l delta) by done.
  by destruct (log_unnormalized_prob_mass NDEBUG fresh_Variate (fin_vec l) d).
Qed.

(** X18: Log-masses count up to a constant: [log_unnormalized_prob_mass]
    leaves the same distribution for [l] and for [l] with [c] added to
    every entry, and a [delta_log_prob_mass] with the constant vector
    leaves the distribution as it is. *)
Theorem constant_offset (c : R) (l : list R) (d : DiscreteDistribution XReal V) :
  log_unnormalized_prob_mass NDEBUG fresh_Variate (fin_vec ((fun a => a + c)%R <$> l)) d
  = log_unnormalized_prob_mass NDEBUG fresh_Variate (fin_vec l) d
  /\ (let* d1 := log_unnormalized_prob_mass NDEBUG fresh_Variate (fin_vec l) d in
      delta_log_prob_mass NDEBUG fresh_Variate (fin_vec (replicate (length l) c)) d1)
     = log_unnormalized_prob_mass NDEBUG fresh_Variate (fin_vec l) d.
Proof.
  split; [apply set_run_shift|].
  rewrite delta_run by (by rewrite length_replicate).
  rewrite <- (set_run_shift c l d). do 2 f_equal.
  clear d. induction l as [|a l IH]; [reflexivity|].
  cbn [length replicate zip_with fmap list_fmap]. f_equal. exact IH.
Qed.
End DiscreteExact.

Section EntropyReal.
Local Open Scope R_scope.

Lemma elem_exp_le_sum (a : R) (l : list R) : a ∈ l -> exp a <= Rsum (exp <$> l).
Proof.
  intros Ha. apply list_elem_of_split in Ha as (l1 & l2 & ->).
  rewrite fmap_app, fmap_cons, Rsum_app, Rsum_cons.
  assert (Hnn : forall k, 0 <= Rsum (exp <$> k)).
  { intros k. apply Rsum_nonneg, Forall_fmap, Forall_forall. intros x _. cbn.
    pose proof (exp_pos x). lra. }
  pose proof (Hnn l1). pose proof (Hnn l2). lra.
Qed.

Lemma Rsum_replicate (k : nat) (c : R) : Rsum (replicate k c) = INR k * c.
Proof.
  induction k as [|k IH]; [cbn; ring|].
  cbn [replicate]. rewrite Rsum_cons, IH, S_INR. ring.
Qed.

Lemma ln_le_minus_1 (z : R) : 0 < z -> ln z <= z - 1.
Proof.
  intros Hz. pose proof (exp_ineq1_le (ln z)) as Hexp.
  rewrite exp_ln in Hexp by done. lra.
Qed.

Lemma entropyR_nonneg (l : list R) : 0 <= entropyR l.
Proof.
  destruct (decide (l = [])) as [->|Hne]; [unfold entropyR; cbn; lra|].
  pose proof (Rsum_exp_pos l Hne) as HT. unfold entropyR.
  set (T := Rsum (exp <$> l)) in *.
  assert (Hle : Rsum ((fun a => (a - ln T) * (exp a / T)) <$> l)
                <= Rsum ((fun _ : R => 0) <$> l)).
  { apply Rsum_fmap_le. intros a Ha.
    pose proof (elem_exp_le_sum a l Ha) as Hexp. fold T in Hexp.
    pose proof (exp_pos a) as Hpos.
    assert (Hln : a <= ln T).
    { apply Rnot_lt_le. intros Hlt. apply exp_increasing in Hlt.
      rewrite exp_ln in Hlt by done. lra. }
    assert (0 < exp a / T) by (apply Rdiv_lt_0_compat; lra).
    apply Rle_trans with (0 * (exp a / T)); [|lra].
    apply Rmult_le_compat_r; lra. }
  rewrite Rsum_fmap_const in Hle. lra.
Qed.

(** The entropy is at most the logarithm of the number of masses. *)
Lemma entropyR_le_ln (l : list R) : l <> [] -> entropyR l <= ln (INR (length l)).
Proof.
  intros Hne. pose proof (Rsum_exp_pos l Hne) as HT. unfold entropyR.
  set (T := Rsum (exp <$> l)) in *.
  set (n := INR (length l)).
  assert (Hn : 0 < n).
  { subst n. apply lt_0_INR. destruct l; [done|cbn; lia]. }
  assert (Hsum : Rsum ((fun a => exp a / T) <$> l) = 1).
  { apply (softmaxR_sum l Hne). }
  assert (Hle : Rsum ((fun a => - ((a - ln T) * (exp a / T)) + - ln n * (exp a / T)) <$> l)
                <= Rsum ((fun a => / n + -1 * (exp a / T)) <$> l)).
  { apply Rsum_fmap_le. intros a _.
    pose proof (exp_pos a) as Hpos.
    set (p := exp a / T).
    assert (Hp : 0 < p) by (apply Rdiv_lt_0_compat; lra).
    set (z := / (n * p)).
    assert (Hz : 0 < z) by (apply Rinv_0_lt_compat, Rmult_lt_0_compat; lra).
    assert (Hlnz : ln z = - (a - ln T) - ln n).
    { subst z p. rewrite ln_Rinv by (apply Rmult_lt_0_compat; lra).
      rewrite ln_mult by lra. unfold Rdiv.
      rewrite ln_mult by (lra || by apply Rinv_0_lt_compat).
      rewrite ln_exp, ln_Rinv by done. ring. }
    pose proof (ln_le_minus_1 z Hz) as Hineq.
    assert (Hpz : p * z = / n) by (subst z; field; lra).
    replace (- ((a - ln T) * p) + - ln n * p) with (p * ln z) by (rewrite Hlnz; ring).
    replace (/ n + -1 * p) with (p * (z - 1)) by (rewrite <- Hpz; ring).
    apply Rmult_le_compat_l; lra. }
  rewrite <- !Rsum_fmap_plus in Hle.
  rewrite !Rsum_fmap_scal, Hsum in Hle.
  rewrite Rsum_fmap_const in Hle. fold n in Hle.
  assert (Hneg : Rsum ((fun a => - ((a - ln T) * (exp a / T))) <$> l)
                 = - Rsum ((fun a => (a - ln T) * (exp a / T)) <$> l)).
  { transitivity (-1 * Rsum ((fun a => (a - ln T) * (exp a / T)) <$> l)); [|ring].
    rewrite <- Rsum_fmap_scal. apply Rsum_fmap_ext. intros; ring. }
  rewrite Hneg in Hle.
  assert (n * / n = 1) by (field; lra). lra.
Qed.
End EntropyReal.

Section DiscreteEntropy.
Context {V : Type}.
Variable NDEBUG : bool.
Variable fresh_Variate : nat -> list V.
Import FLDiscreteDistribution.

Lemma zip_with_fmul_fin (u v : list R) :
  zip_with fmul (fin_vec u) (fin_vec v) = fin_vec (zip_with Rmult u v).
Proof.
  revert v. induction u as [|a u IH]; intros [|b v]; try reflexivity.
  change (fin_vec (a :: u)) with (Fin a :: fin_vec u).
  change (fin_vec (b :: v)) with (Fin b :: fin_vec v).
  cbn [zip_with]. rewrite IH. reflexivity.
Qed.

(** The entropy of the distribution that finite log-masses leave. *)
Lemma entropy_run (l : list R) (locs : list (list V)) :
  entropy NDEBUG (normalized l locs) = Returned (Fin (entropyR l)).
Proof.
  unfold entropy, eigen_assert. cbn [normalized log_prob_mass_ prob_mass_].
  unfold fin_vec at 1 2. rewrite !length_fmap.
  unfold log_softmaxR at 1, softmaxR at 1. rewrite !length_fmap, Nat.eqb_refl.
  cbn [obind]. rewrite zip_with_fmul_fin, Array_sum_fin.
  unfold log_softmaxR, softmaxR. rewrite zip_with_fmap_l, zip_with_fmap_r, zip_with_diag.
  reflexivity.
Qed.

Lemma kl_run (l : list R) (locs : list (list V)) :
  l <> [] -> length locs = length l ->
  kl_given_uniform NDEBUG (normalized l locs)
  = Returned (Fin (ln (INR (length l)) - entropyR l)).
Proof.
  intros Hne Hlen. unfold kl_given_uniform. rewrite entropy_run. cbn [obind].
  unfold size. cbn [normalized locations_]. rewrite Hlen.
  change (of_int (Z.of_nat (length l))) with (Fin (IZR (Z.of_nat (length l)))).
  rewrite <- INR_IZR_INZ.
  change (std_log (Fin (INR (length l)))) with (XR.log (Fin (INR (length l)))).
  rewrite log_fin; [reflexivity|].
  apply lt_0_INR. destruct l; [done|cbn; lia].
Qed.

(** X19: For the distribution that finite log-masses leave, [entropy()] is a
    finite number between 0 and the logarithm of the number of masses,
    and [kl_given_uniform()] is the difference of that logarithm and the
    entropy, so it is not negative. *)
Theorem entropy_bounds (l : list R) (d : DiscreteDistribution XReal V) :
  l <> [] ->
  exists d' h,
    log_unnormalized_prob_mass NDEBUG fresh_Variate (fin_vec l) d = Returned d'
    /\ entropy NDEBUG d' = Returned (Fin h)
    /\ (0 <= h <= ln (INR (length l)))%R
    /\ kl_given_uniform NDEBUG d' = Returned (Fin (ln (INR (length l)) - h))
    /\ (0 <= ln (INR (length l)) - h)%R.
Proof.
  intros Hne.
  exists (normalized l (resize_locations fresh_Variate (length l) (locations_ d))).
  exists (entropyR l).
  split; [by apply set_run|]. split; [apply entropy_run|].
  pose proof (entropyR_nonneg l). pose proof (entropyR_le_ln l Hne).
  split; [lra|]. split; [|lra].
  apply kl_run; [done|apply resize_locations_length].
Qed.

Lemma softmaxR_replicate (k : nat) (c : R) :
  (0 < k)%nat -> softmaxR (replicate k c) = replicate k (1 / INR k)%R.
Proof.
  intros Hk. unfold softmaxR. rewrite !fmap_replicate. f_equal.
  rewrite Rsum_replicate. pose proof (exp_pos c). pose proof (lt_0_INR k Hk). field. lra.
Qed.

Lemma log_softmaxR_replicate (k : nat) :
  (0 < k)%nat -> log_softmaxR (replicate k 0%R) = replicate k (- ln (INR k))%R.
Proof.
  intros Hk. unfold log_softmaxR. rewrite !fmap_replicate. f_equal.
  rewrite Rsum_replicate, exp_0, Rmult_1_r. ring.
Qed.

Lemma entropyR_replicate (k : nat) :
  (0 < k)%nat -> entropyR (replicate k 0%R) = ln (INR k).
Proof.
  intros Hk. unfold entropyR. rewrite !fmap_replicate.
  rewrite !Rsum_replicate, exp_0, Rmult_1_r.
  pose proof (lt_0_INR k Hk). field. lra.
Qed.

Lemma set_uniform_run (n : Z) (d : DiscreteDistribution XReal V) :
  (0 < n)%Z ->
  set_uniform NDEBUG fresh_Variate n d
  = Returned (normalized (replicate (Z.to_nat n) 0%R)
                (resize_locations fresh_Variate (Z.to_nat n) (locations_ d))).
Proof.
  intros Hn. unfold set_uniform, eigen_assert.
  replace (0 <=? n)%Z with true by (symmetry; apply Z.leb_le; lia).
  cbn [obind].
  change (replicate (Z.to_nat n) (of_int 0)) with (replicate (Z.to_nat n) (Fin 0)).
  rewrite <- (fmap_replicate Fin). fold (fin_vec (replicate (Z.to_nat n) 0%R)).
  rewrite set_run by (destruct (Z.to_nat n) eqn:E; [lia|done]).
  by rewrite length_replicate.
Qed.

(** X20: [set_uniform(n)] for [n > 0] leaves [n] masses [1 / n] with the
    log-masses [- ln n] and the cumulative values [(i + 1) / n]; the
    entropy of the distribution is [ln n] and [kl_given_uniform()] is 0.
    For [n <= 0] the call stops at an assertion of Eigen (for [n = 0] at
    the maximum of an empty array), or has no defined behaviour. *)
Theorem set_uniform_masses (n : Z) (d : DiscreteDistribution XReal V) :
  ((0 < n)%Z ->
   exists d',
     set_uniform NDEBUG fresh_Variate n d = Returned d'
     /\ size d' = n
     /\ prob_mass d' = replicate (Z.to_nat n) (Fin (1 / IZR n))
     /\ log_prob_mass d' = replicate (Z.to_nat n) (Fin (- ln (IZR n)))
     /\ (forall i, (0 <= i < n)%Z ->
           cumul_distr_ d' !! Z.to_nat i = Some (Fin (IZR (i + 1) / IZR n)))
     /\ entropy NDEBUG d' = Returned (Fin (ln (IZR n)))
     /\ kl_given_uniform NDEBUG d' = Returned (Fin 0))
  /\ ((n <= 0)%Z ->
      set_uniform NDEBUG fresh_Variate n d
      = if NDEBUG then UndefinedBehaviour else AssertionFailed).
Proof.
  split.
  - intros Hn. set (k := Z.to_nat n).
    assert (Hk : (0 < k)%nat) by (subst k; lia).
    assert (HINR : INR k = IZR n) by (subst k; rewrite INR_IZR_INZ, Z2Nat.id; [done|lia]).
    eexists. split; [by apply set_uniform_run|]. fold k.
    split.
    { unfold size. cbn [normalized locations_]. rewrite resize_locations_length.
      subst k. lia. }
    split.
    { unfold prob_mass. cbn [normalized prob_mass_].
      rewrite softmaxR_replicate by done. unfold fin_vec.
      by rewrite fmap_replicate, HINR. }
    split.
    { unfold log_prob_mass. cbn [normalized log_prob_mass_].
      rewrite log_softmaxR_replicate by done. unfold fin_vec.
      by rewrite fmap_replicate, HINR. }
    split.
    { intros i Hi. cbn [normalized cumul_distr_]. unfold fin_vec.
      rewrite list_lookup_fmap.
      rewrite cumulativeR_lookup by (rewrite softmaxR_length, length_replicate; lia).
      rewrite softmaxR_replicate by done. cbn [fmap option_fmap option_map].
      do 2 f_equal.
      rewrite take_replicate, Rsum_replicate.
      replace (Init.Nat.min (S (Z.to_nat i)) k) with (Z.to_nat (i + 1)) by lia.
      rewrite INR_IZR_INZ, Z2Nat.id by lia. rewrite HINR. unfold Rdiv. ring. }
    split.
    { rewrite entropy_run, entropyR_replicate by done. by rewrite HINR. }
    rewrite kl_run; [|destruct k; [lia|done]|by rewrite resize_locations_length, length_replicate].
    rewrite entropyR_replicate, length_replicate by done.
    f_equal. f_equal. ring.
  - intros Hn. unfold set_uniform, eigen_assert.
    destruct (Z.leb_spec 0 n) as [H0|Hneg]; [|by destruct NDEBUG].
    replace n with 0%Z by lia. cbn [obind Z.to_nat replicate].
    apply set_run_empty.
Qed.
End DiscreteEntropy.

Section ZeroMass.
Context {V : Type}.
Variable NDEBUG : bool.
Variable fresh_Variate : nat -> list V.
Import FLDiscreteDistribution.

Lemma max_log_masses (x : option R) (rest : list (option R)) :
  (exists a, Some a ∈ x :: rest) ->
  exists m, foldl (fun res v => if flt res v then v else res)
                  (log_mass_of x) (log_mass_of <$> rest) = Fin m.
Proof.
  revert x. induction rest as [|v rest IH]; intros x (a & Ha).
  - apply list_elem_of_singleton in Ha as <-. by exists a.
  - rewrite fmap_cons. cbn [foldl].
    destruct x as [ax|].
    + assert (Hres : exists r, (if flt (log_mass_of (Some ax)) (log_mass_of v)
                                then log_mass_of v else log_mass_of (Some ax))
                               = log_mass_of (Some r)).
      { destruct v as [av|]; cbn.
        - destruct (Rlt_dec ax av); by eexists.
        - by eexists. }
      destruct Hres as [r ->]. apply IH. exists r. left.
    + destruct v as [av|]; cbn [log_mass_of flt XReal_ScalarOrder XReal_lt].
      * apply (IH (Some av)). exists av. left.
      * apply (IH None). exists a.
        apply elem_of_cons in Ha as [Ha|Ha]; [done|].
        apply elem_of_cons in Ha as [Ha|Ha]; [done|]. by right.
Qed.

Lemma foldl_add_NaN (l : list XReal) : foldl fadd NaN l = NaN.
Proof. induction l as [|x l IH]; [reflexivity|]. cbn [foldl]. exact IH. Qed.

Lemma Array_sum_NaN (l : list XReal) : NaN ∈ l -> Array_sum l = NaN.
Proof.
  intros Hin. destruct l as [|x l]; [by apply elem_of_nil in Hin|].
  cbn [Array_sum]. revert x Hin. induction l as [|y l IH]; intros x Hin.
  - by apply list_elem_of_singleton in Hin as <-.
  - cbn [foldl]. apply elem_of_cons in Hin as [<-|Hin]; [apply foldl_add_NaN|].
    apply elem_of_cons in Hin as [<-|Hin].
    + change (fadd x NaN) with (XR.add x NaN). rewrite add_NaN. apply foldl_add_NaN.
    + apply IH. by right.
Qed.

(** X21: A log-mass of minus infinity gives its location the mass 0, as it
    should, when another log-mass is finite; but then [entropy()]
    multiplies minus infinity with 0, and both [entropy()] and
    [kl_given_uniform()] return NaN. *)
Theorem zero_mass_entropy (l : list (option R)) (d : DiscreteDistribution XReal V) :
  None ∈ l -> (exists a, Some a ∈ l) ->
  exists d',
    log_unnormalized_prob_mass NDEBUG fresh_Variate (log_mass_of <$> l) d = Returned d'
    /\ (forall i, l !! i = Some None ->
          prob_mass d' !! i = Some (Fin 0) /\ log_prob_mass d' !! i = Some NInf)
    /\ entropy NDEBUG d' = Returned NaN
    /\ kl_given_uniform NDEBUG d' = Returned NaN.
Proof.
  intros Hzero Hfin.
  destruct l as [|x rest]; [by apply elem_of_nil in Hzero|].
  destruct (max_log_masses x rest Hfin) as [m Hmax].
  rewrite fmap_cons, log_unnormalized_prob_mass_run, Hmax.
  rewrite <- (fmap_cons log_mass_of). set (l := x :: rest) in *.
  set (expR := fun o : option R => match o with Some a => exp (a - m) | None => 0%R end).
  assert (E1 : std_exp <$> ((fun x : XReal => fsub x (Fin m)) <$> (log_mass_of <$> l))
               = fin_vec (expR <$> l)).
  { unfold fin_vec. rewrite <- !list_fmap_compose.
    apply list_fmap_ext. intros i o _. by destruct o. }
  rewrite E1, Array_sum_fin.
  set (s := Rsum (expR <$> l)).
  assert (Hs : (0 < s)%R).
  { destruct Hfin as (a & Ha). apply list_elem_of_split in Ha as (l1 & l2 & E).
    subst s. rewrite E, fmap_app, fmap_cons, Rsum_app, Rsum_cons.
    assert (Hnn : forall k, (0 <= Rsum (expR <$> k))%R).
    { intros k. apply Rsum_nonneg, Forall_fmap, Forall_forall. intros [b|] _; cbn; [|lra].
      pose proof (exp_pos (b - m)). lra. }
    pose proof (Hnn l1). pose proof (Hnn l2). pose proof (exp_pos (a - m)).
    cbn [expR]. lra. }
  change (std_log (Fin s)) with (XR.log (Fin s)). rewrite log_fin by done.
  eexists. split; [reflexivity|].
  assert (Hmass : forall i, l !! i = Some None ->
            ((fun x : XReal => fdiv x (Fin s)) <$> fin_vec (expR <$> l)) !! i = Some (Fin 0)
            /\ ((fun x : XReal => fsub x (Fin (ln s)))
                  <$> ((fun x : XReal => fsub x (Fin m)) <$> (log_mass_of <$> l))) !! i
               = Some NInf).
  { intros i Hi. unfold fin_vec. rewrite !list_lookup_fmap, Hi.
    cbn [fmap option_fmap option_map expR log_mass_of]. split; [|reflexivity].
    change (fdiv (Fin 0) (Fin s)) with (XR.div (Fin 0) (Fin s)).
    rewrite div_fin by lra. do 2 f_equal. unfold Rdiv. ring. }
  split; [exact Hmass|].
  assert (Hentropy : entropy NDEBUG
            (mkDiscreteDistribution
               (resize_locations fresh_Variate (length (log_mass_of <$> l)) (locations_ d))
               ((fun x : XReal => fsub x (Fin (ln s)))
                  <$> ((fun x : XReal => fsub x (Fin m)) <$> (log_mass_of <$> l)))
               ((fun x : XReal => fdiv x (Fin s)) <$> fin_vec (expR <$> l))
               (cumulative ((fun x : XReal => fdiv x (Fin s)) <$> fin_vec (expR <$> l))))
          = Returned NaN).
  { unfold entropy, eigen_assert. cbn [log_prob_mass_ prob_mass_].
    unfold fin_vec at 1. rewrite !length_fmap, Nat.eqb_refl. cbn [obind].
    rewrite Array_sum_NaN; [reflexivity|].
    apply list_elem_of_lookup in Hzero as [i Hi].
    destruct (Hmass i Hi) as [Hp Hlp].
    apply list_elem_of_lookup. exists i.
    rewrite lookup_zip_with, Hlp. cbn [mbind option_bind]. rewrite Hp. cbn [mbind option_bind].
    f_equal. change (fmul NInf (Fin 0)) with (XR.inf_times false 0).
    unfold XR.inf_times.
    destruct (Req_dec_T 0 0) as [_|Hne]; [reflexivity|by destruct Hne]. }
  split; [exact Hentropy|].
  unfold kl_given_uniform. rewrite Hentropy. cbn [obind]. f_equal.
  match goal with |- fsub ?x NaN = NaN => generalize x end.
  intros x0. by destruct x0.
Qed.
End ZeroMass.

Section LowerBound.
Import FLDiscreteDistribution.

Lemma flt_fin (a x : R) : flt (Fin a) (Fin x) = true <-> (a < x)%R.
Proof. cbn. destruct (Rlt_dec a x); split; (done || intros; lra). Qed.

(** The position [std::lower_bound] returns: the elements before it are
    less than the value, the element at it is not. *)
Lemma lower_bound_spec (c : list R) (x : R) :
  let k := lower_bound (fin_vec c) (Fin x) in
  (k <= length c)%nat
  /\ (forall j cj, (j < k)%nat -> c !! j = Some cj -> (cj < x)%R)
  /\ (forall ck, c !! k = Some ck -> (x <= ck)%R).
Proof.
  induction c as [|a c IH]; [cbn; split; [lia|split; [intros; lia|done]]|].
  change (fin_vec (a :: c)) with (Fin a :: fin_vec c). cbn [lower_bound].
  destruct (flt (Fin a) (Fin x)) eqn:E.
  - apply flt_fin in E. destruct IH as (Hk & Hlt & Hge).
    split; [cbn; lia|]. split.
    + intros [|j] cj Hj Hcj; [by injection Hcj as <-|].
      apply (Hlt j); [lia|exact Hcj].
    + intros ck Hck. by apply Hge.
  - cbn zeta. split; [cbn; lia|]. split; [intros; lia|].
    intros ck [= <-]. apply Rnot_lt_le. intros Hlt. apply flt_fin in Hlt. congruence.
Qed.

Lemma lower_bound_end (c : list R) (x : R) :
  Forall (fun a => a < x)%R c -> lower_bound (fin_vec c) (Fin x) = length c.
Proof.
  induction 1 as [|a c Ha _ IH]; [reflexivity|].
  change (fin_vec (a :: c)) with (Fin a :: fin_vec c). cbn [lower_bound length].
  apply flt_fin in Ha. by rewrite Ha, IH.
Qed.

(** A vector that does not decrease is partitioned for every value. *)
Lemma partitioned_sorted (c : list R) (x : R) :
  (forall i j a b, (i <= j)%nat -> c !! i = Some a -> c !! j = Some b -> (a <= b)%R) ->
  partitioned (fin_vec c) (Fin x) = true.
Proof.
  unfold partitioned. induction c as [|a c IH]; intros Hsorted; [reflexivity|].
  change (fin_vec (a :: c)) with (Fin a :: fin_vec c). cbn [lower_bound].
  destruct (flt (Fin a) (Fin x)) eqn:E.
  - cbn [drop]. apply IH. intros i j u v Hij Hu Hv.
    apply (Hsorted (S i) (S j)); [lia|exact Hu|exact Hv].
  - cbn [drop]. apply forallb_forall. intros y Hy.
    apply list_elem_of_In in Hy.
    change (Fin a :: fin_vec c) with (fin_vec (a :: c)) in Hy.
    unfold fin_vec in Hy. apply list_elem_of_fmap in Hy as (b & -> & Hb).
    apply list_elem_of_lookup in Hb as [j Hj].
    assert (Hab : (a <= b)%R) by (apply (Hsorted 0%nat j); [lia|reflexivity|exact Hj]).
    apply negb_true_iff, not_true_iff_false. intros Hlt. apply flt_fin in Hlt.
    assert (Hax : ~ (a < x)%R) by (intros Hax; apply flt_fin in Hax; congruence).
    lra.
Qed.

Lemma Rsum_take_le (p : list R) (i j : nat) :
  Forall (fun x => 0 <= x)%R p -> (i <= j)%nat -> (Rsum (take i p) <= Rsum (take j p))%R.
Proof.
  intros Hp Hij. replace j with (i + (j - i))%nat by lia.
  rewrite <- take_take_drop, Rsum_app.
  assert (0 <= Rsum (take (j - i) (drop i p)))%R.
  { apply Rsum_nonneg. by apply Forall_take, Forall_drop. }
  lra.
Qed.
End LowerBound.

Section DiscreteSampling.
Context {V G : Type}.
Variable NDEBUG : bool.
Variable fresh_Variate : nat -> list V.
Variable sample : G -> list V * G.
Import FLDiscreteDistribution.

(** X22: [map_standard_uniform] inverts the cumulative distribution, the
    scalars being exact: for the distribution that finite log-masses leave
    and a sample [x] with [0 < x <= 1] it returns the location of the
    first index [i] whose cumulative value is at least [x], and [x] is in
    the interval from the sum of the masses before [i] (excluded) to that
    sum plus the mass at [i] (included).  A sample [x <= 0] is in no such
    interval and gets the first location.  A sample greater than 1 has
    the index one past the last location: the read stops at an assertion
    of Eigen, or has no defined behaviour.  The same holds for every
    distribution whose cumulative values are finite and all less than the
    sample, which is where a sample of 1 ends when rounding leaves the
    last cumulative value below 1. *)
Theorem map_standard_uniform_inverts (l : list R) (d : DiscreteDistribution XReal V)
    (x : R) :
  l <> [] ->
  (exists d' p,
    log_unnormalized_prob_mass NDEBUG fresh_Variate (fin_vec l) d = Returned d'
    /\ prob_mass d' = fin_vec p
    /\ ((0 < x <= 1)%R ->
        exists i v p_i,
          map_standard_uniform NDEBUG (Fin x) d' = Returned v
          /\ locations d' !! i = Some v
          /\ p !! i = Some p_i
          /\ (Rsum (take i p) < x <= Rsum (take i p) + p_i)%R)
    /\ ((x <= 0)%R ->
        exists v,
          map_standard_uniform NDEBUG (Fin x) d' = Returned v
          /\ locations d' !! 0%nat = Some v)
    /\ ((1 < x)%R ->
        map_standard_uniform NDEBUG (Fin x) d'
        = if NDEBUG then UndefinedBehaviour else AssertionFailed))
  /\ (forall (d0 : DiscreteDistribution XReal V) (c0 : list R),
        cumul_distr_ d0 = fin_vec c0 ->
        length (locations d0) = length c0 ->
        Forall (fun a => a < x)%R c0 ->
        map_standard_uniform NDEBUG (Fin x) d0
        = if NDEBUG then UndefinedBehaviour else AssertionFailed).
Proof.
  intros Hne. split.
  2:{ intros d0 c0 Hc0 Hlocs0 Hall. unfold map_standard_uniform, partitioned.
      rewrite Hc0, (lower_bound_end c0 x Hall).
      replace (length c0) with (length (fin_vec c0)) at 1
        by (unfold fin_vec; by rewrite length_fmap).
      rewrite drop_all. cbn [forallb].
      apply at_outside. unfold locations in Hlocs0. lia. }
  set (locs := resize_locations fresh_Variate (length l) (locations_ d)).
  exists (normalized l locs), (softmaxR l).
  split; [by apply set_run|]. split; [reflexivity|].
  set (p := softmaxR l). set (c := cumulativeR p).
  assert (Hplen : length p = length l) by (subst p; by rewrite softmaxR_length).
  assert (Hlen : length c = length l)
    by (subst c p; by rewrite cumulativeR_length, softmaxR_length).
  assert (Hlocs : length locs = length l) by apply resize_locations_length.
  assert (Hp : Forall (fun x => 0 <= x)%R p).
  { eapply Forall_impl; [apply softmaxR_range|]. cbn. intros; lra. }
  assert (Hat : forall i ci, c !! i = Some ci -> ci = Rsum (take (S i) p)).
  { intros i ci Hci. pose proof (lookup_lt_Some _ _ _ Hci) as Hi.
    subst c. rewrite cumulativeR_lookup in Hci by (subst p; rewrite softmaxR_length; lia).
    by injection Hci. }
  assert (Hsorted : forall i j a b, (i <= j)%nat -> c !! i = Some a -> c !! j = Some b ->
            (a <= b)%R).
  { intros i j a b Hij Ha Hb. rewrite (Hat i a Ha), (Hat j b Hb).
    apply Rsum_take_le; [exact Hp|lia]. }
  assert (Hlast : Rsum (take (length l) p) = 1%R).
  { rewrite take_ge by (subst p; by rewrite softmaxR_length). by apply softmaxR_sum. }
  assert (Hpos : (0 < length l)%nat) by (destruct l; [done|cbn; lia]).
  unfold map_standard_uniform. cbn [normalized cumul_distr_ locations_]. fold p c locs.
  rewrite partitioned_sorted by exact Hsorted.
  destruct (lower_bound_spec c x) as (Hk & Hlt & Hge).
  set (k := lower_bound (fin_vec c) (Fin x)) in *.
  split; [|split].
  - intros Hx.
    assert (Hkn : (k < length l)%nat).
    { destruct (decide (k < length l)%nat) as [|Hnot]; [done|exfalso].
      destruct l as [|a0 l0]; [done|]. cbn [length] in *.
      destruct (lookup_lt_is_Some_2 c (length l0)) as [cl Hcl]; [lia|].
      pose proof (Hlt (length l0) cl ltac:(lia) Hcl) as Hcx.
      rewrite (Hat _ _ Hcl), Hlast in Hcx. lra. }
    destruct (lookup_lt_is_Some_2 locs k) as [v Hv]; [lia|].
    destruct (lookup_lt_is_Some_2 c k) as [ck Hck]; [lia|].
    destruct (lookup_lt_is_Some_2 p k) as [p_k Hpk]; [lia|].
    exists k, v, p_k. split; [by apply at_lookup|]. split; [exact Hv|].
    split; [exact Hpk|].
    assert (Hstep : Rsum (take (S k) p) = (Rsum (take k p) + p_k)%R).
    { rewrite (take_S_r _ _ _ Hpk), Rsum_app. change (Rsum [p_k]) with (p_k + 0)%R. lra. }
    split.
    + destruct k as [|k']; [change (Rsum (take 0 p)) with 0%R; lra|].
      destruct (lookup_lt_is_Some_2 c k') as [cj Hcj]; [lia|].
      pose proof (Hlt k' cj ltac:(lia) Hcj) as Hcx. by rewrite (Hat _ _ Hcj) in Hcx.
    + rewrite <- Hstep, <- (Hat _ _ Hck). by apply Hge.
  - intros Hx.
    assert (Hk0 : k = 0%nat).
    { destruct k as [|k'] eqn:Ek; [done|exfalso].
      destruct (lookup_lt_is_Some_2 c 0%nat) as [c0 Hc0]; [lia|].
      pose proof (Hlt 0%nat c0 ltac:(lia) Hc0) as Hcx.
      rewrite (Hat _ _ Hc0) in Hcx.
      assert (0 <= Rsum (take 1 p))%R by (apply Rsum_nonneg; by apply Forall_take).
      lra. }
    rewrite Hk0.
    destruct (lookup_lt_is_Some_2 locs 0%nat) as [v Hv]; [lia|].
    exists v. split; [by apply at_lookup|exact Hv].
  - intros Hx.
    assert (Hall : Forall (fun a => a < x)%R c).
    { apply Forall_forall. intros a Ha. apply list_elem_of_lookup in Ha as [j Hj].
      pose proof (lookup_lt_Some _ _ _ Hj) as Hjn.
      rewrite (Hat _ _ Hj).
      pose proof (Rsum_take_le p (S j) (length l) Hp ltac:(lia)). lra. }
    subst k. rewrite (lower_bound_end c x Hall), Hlen.
    apply at_outside. lia.
Qed.

Lemma draw_length (n : nat) (g : G) : length (draw sample n g).1 = n.
Proof.
  revert g. induction n as [|n IH]; intros g; [reflexivity|].
  cbn [draw]. destruct (sample g) as [x g1]. specialize (IH g1).
  destruct (draw sample n g1) as [xs g2]. cbn in *. by rewrite IH.
Qed.

(** X23: [from_distribution(distribution, n)] for [n > 0] leaves the [n]
    samples, in the order drawn, as the locations, each with the mass
    [1 / n], and the generator after [n] draws.  For [n <= 0] the call
    stops at an assertion of Eigen, or has no defined behaviour. *)
Theorem from_distribution_samples (g : G) (n : Z) (d : DiscreteDistribution XReal V) :
  ((0 < n)%Z ->
   exists d',
     from_distribution NDEBUG fresh_Variate sample g n d
     = Returned (d', (draw sample (Z.to_nat n) g).2)
     /\ locations d' = (draw sample (Z.to_nat n) g).1
     /\ size d' = n
     /\ prob_mass d' = replicate (Z.to_nat n) (Fin (1 / IZR n)))
  /\ ((n <= 0)%Z ->
      from_distribution NDEBUG fresh_Variate sample g n d
      = if NDEBUG then UndefinedBehaviour else AssertionFailed).
Proof.
  split.
  - intros Hn. unfold from_distribution, eigen_assert.
    replace (0 <=? n)%Z with true by (symmetry; apply Z.leb_le; lia).
    cbn [obind]. pose proof (draw_length (Z.to_nat n) g) as Hlen.
    destruct (draw sample (Z.to_nat n) g) as [new_locations g'].
    rewrite set_uniform_run by done. cbn [obind fst snd] in *.
    eexists. split; [reflexivity|]. split; [reflexivity|].
    split; [unfold size; cbn [locations_]; lia|].
    unfold prob_mass. cbn [prob_mass_ normalized].
    rewrite softmaxR_replicate by lia. unfold fin_vec. rewrite fmap_replicate.
    by rewrite INR_IZR_INZ, Z2Nat.id by lia.
  - intros Hn. unfold from_distribution, eigen_assert.
    destruct (Z.leb_spec 0 n) as [H0|Hneg]; [|by destruct NDEBUG].
    cbn [obind]. destruct (draw sample (Z.to_nat n) g) as [new_locations g'].
    replace n with 0%Z by lia.
    unfold set_uniform, eigen_assert. cbn [Z.leb Z.compare obind Z.to_nat replicate].
    rewrite set_run_empty. by destruct NDEBUG.
Qed.
End DiscreteSampling.

Section DiscreteMean.
Context {V : Type}.
Variable NDEBUG : bool.
Variable castR : V -> R.
Import FLDiscreteDistribution.

Lemma ofold_app {A B} (f : A -> B -> outcome A) (a : A) (l1 l2 : list B) :
  ofold f a (l1 ++ l2) = (let* a' := ofold f a l1 in ofold f a' l2).
Proof.
  revert a. induction l1 as [|x l1 IH]; intros a; [reflexivity|].
  cbn [app ofold]. destruct (f a x); cbn [obind]; [apply IH|done..].
Qed.

Lemma partial_mean_dims (dim : nat) (p : list R) (xs : list (list V)) (k : nat) :
  Forall (fun x => length x = dim) xs ->
  Forall (fun e : list R * (R * R) => length e.1 = dim)
    ((fun e : R * list V => (castR <$> e.2, (e.1, e.1))) <$> take k (zip p xs)).
Proof.
  intros Hdim. apply Forall_fmap, Forall_take, Forall_forall. intros [q x] Hin. cbn.
  rewrite length_fmap. apply elem_of_zip_r in Hin.
  by apply (proj1 (Forall_forall _ _) Hdim).
Qed.

Lemma mean_loop (d : DiscreteDistribution XReal V) (p : list R) (dim : nat) (k : nat) :
  prob_mass_ d = fin_vec p ->
  length p = length (locations_ d) ->
  Forall (fun x => length x = dim) (locations_ d) ->
  (k <= length p)%nat ->
  ofold (fun mu i =>
           let* p := prob_mass_at NDEBUG i d in
           let* x := at_ NDEBUG (locations_ d) i in
           let term := vscale p ((fun v => Fin (castR v)) <$> x) in
           let* _ := eigen_assert NDEBUG (length mu =? length term)%nat in
           Returned (vadd mu term))
        (vzero dim) (seqZ 0 (Z.of_nat k))
  = Returned (fin_vec (partial_mean castR dim p (locations_ d) k)).
Proof.
  intros Hp Hlen Hdim Hk. induction k as [|k IH].
  - cbn. by rewrite vzero_fin.
  - replace (Z.of_nat (S k)) with (Z.of_nat k + 1)%Z by lia.
    rewrite seqZ_app by lia. rewrite ofold_app, IH by lia. cbn [obind].
    change (seqZ (0 + Z.of_nat k) 1) with [0 + Z.of_nat k]. cbn [ofold Z.add].
    destruct (lookup_lt_is_Some_2 p k) as [pk Hpk]; [lia|].
    destruct (lookup_lt_is_Some_2 (locations_ d) k) as [xk Hxk]; [lia|].
    unfold prob_mass_at. rewrite Hp, !Z.add_0_l.
    rewrite (at_lookup NDEBUG (fin_vec p) k (Fin pk))
      by (unfold fin_vec; by rewrite list_lookup_fmap, Hpk).
    cbn [obind]. rewrite (at_lookup NDEBUG _ k xk Hxk). cbn [obind].
    assert (Hcast : (fun v => Fin (castR v)) <$> xk = fin_vec (castR <$> xk)).
    { unfold fin_vec. by rewrite <- list_fmap_compose. }
    rewrite Hcast, vscale_fin.
    assert (Hxk_len : length xk = dim).
    { apply (proj1 (Forall_forall _ _) Hdim). apply list_elem_of_lookup. by exists k. }
    assert (Hmu : length (partial_mean castR dim p (locations_ d) k) = dim).
    { unfold partial_mean. by apply meanR_length, partial_mean_dims. }
    unfold eigen_assert, fin_vec at 1 2. rewrite !length_fmap, Hmu, Hxk_len, Nat.eqb_refl.
    cbn [obind]. rewrite vadd_fin. do 2 f_equal.
    unfold partial_mean.
    rewrite (take_S_r _ _ (pk, xk)) by (rewrite lookup_zip_with, Hpk; cbn; by rewrite Hxk).
    rewrite fmap_app. unfold meanR at 2. rewrite foldl_app. reflexivity.
Qed.

(** The run of [mean()]. *)
Lemma mean_run (d : DiscreteDistribution XReal V) (p : list R) (dim : nat) :
  prob_mass_ d = fin_vec p ->
  length p = length (locations_ d) ->
  locations_ d <> [] ->
  Forall (fun x => length x = dim) (locations_ d) ->
  mean NDEBUG (fun v => Fin (castR v)) d
  = Returned (fin_vec (partial_mean castR dim p (locations_ d) (length p)))
  /\ dimension NDEBUG d = Returned (Z.of_nat dim).
Proof.
  intros Hp Hlen Hne Hdim.
  destruct (lookup_lt_is_Some_2 (locations_ d) 0) as [x0 Hx0].
  { destruct (locations_ d); [done|cbn; lia]. }
  assert (Hdim0 : length x0 = dim).
  { apply (proj1 (Forall_forall _ _) Hdim). apply list_elem_of_lookup. by exists 0%nat. }
  assert (Hdimension : dimension NDEBUG d = Returned (Z.of_nat dim)).
  { unfold dimension. change 0%Z with (Z.of_nat 0) at 1.
    rewrite (at_lookup NDEBUG (locations_ d) 0%nat x0 Hx0). cbn [obind]. by rewrite Hdim0. }
  split; [|exact Hdimension].
  unfold mean. rewrite Hdimension. cbn [obind].
  rewrite Nat2Z.id. unfold size. rewrite <- Hlen.
  apply mean_loop; [exact Hp|exact Hlen|exact Hdim|lia].
Qed.

(** X24: [mean()] of a distribution with finite masses and locations of one
    dimension, as many as masses: it returns the vector whose component
    [r] is the sum over the locations of mass times component [r] of the
    location. *)
Theorem mean_weighted_sum (d : DiscreteDistribution XReal V) (p : list R) (dim : nat) :
  prob_mass d = fin_vec p ->
  length p = length (locations d) ->
  locations d <> [] ->
  Forall (fun x => length x = dim) (locations d) ->
  exists mu,
    mean NDEBUG (fun v => Fin (castR v)) d = Returned (fin_vec mu)
    /\ length mu = dim
    /\ forall r, (r < dim)%nat ->
         mu !! r = Some (Rsum ((fun e : R * list V => (e.1 * nth r (castR <$> e.2) 0)%R)
                                 <$> zip p (locations d))).
Proof.
  unfold prob_mass, locations. intros Hp Hlen Hne Hdim.
  exists (partial_mean castR dim p (locations_ d) (length p)).
  pose proof (partial_mean_dims dim p (locations_ d) (length p) Hdim) as Hes.
  split; [by apply mean_run|].
  split; [by apply meanR_length|].
  intros r Hr. unfold partial_mean. rewrite meanR_lookup by done.
  rewrite take_ge by (rewrite length_zip_with; lia).
  rewrite <- list_fmap_compose. reflexivity.
Qed.

Lemma covariance_loop (d : DiscreteDistribution XReal V) (p mu : list R) (dim : nat)
    (k : nat) :
  prob_mass_ d = fin_vec p ->
  length p = length (locations_ d) ->
  Forall (fun x => length x = dim) (locations_ d) ->
  length mu = dim ->
  (k <= length p)%nat ->
  ofold (fun cov i =>
           let* x := at_ NDEBUG (locations_ d) i in
           let* _ := eigen_assert NDEBUG (length x =? length (fin_vec mu))%nat in
           let delta := vsub ((fun v => Fin (castR v)) <$> x) (fin_vec mu) in
           let* p := prob_mass_at NDEBUG i d in
           Returned (madd cov (outer (vscale p delta) delta)))
        (mzero dim dim) (seqZ 0 (Z.of_nat k))
  = Returned (fin_mat (covR dim mu
                ((fun e : R * list V => (castR <$> e.2, (e.1, e.1)))
                   <$> take k (zip p (locations_ d))))).
Proof.
  intros Hp Hlen Hdim Hmu Hk. induction k as [|k IH].
  - cbn. by rewrite mzero_fin.
  - replace (Z.of_nat (S k)) with (Z.of_nat k + 1)%Z by lia.
    rewrite seqZ_app by lia. rewrite ofold_app, IH by lia. cbn [obind].
    change (seqZ (0 + Z.of_nat k) 1) with [0 + Z.of_nat k]. cbn [ofold].
    destruct (lookup_lt_is_Some_2 p k) as [pk Hpk]; [lia|].
    destruct (lookup_lt_is_Some_2 (locations_ d) k) as [xk Hxk]; [lia|].
    rewrite !Z.add_0_l.
    rewrite (at_lookup NDEBUG _ k xk Hxk). cbn [obind].
    assert (Hxk_len : length xk = dim).
    { apply (proj1 (Forall_forall _ _) Hdim). apply list_elem_of_lookup. by exists k. }
    unfold eigen_assert, fin_vec at 1. rewrite length_fmap, Hxk_len, Hmu, Nat.eqb_refl.
    cbn [obind]. unfold prob_mass_at. rewrite Hp.
    rewrite (at_lookup NDEBUG (fin_vec p) k (Fin pk))
      by (unfold fin_vec; by rewrite list_lookup_fmap, Hpk).
    cbn [obind].
    assert (Hcast : (fun v => Fin (castR v)) <$> xk = fin_vec (castR <$> xk)).
    { unfold fin_vec. by rewrite <- list_fmap_compose. }
    rewrite Hcast, vsub_fin, vscale_fin, outer_fin, madd_fin. do 2 f_equal.
    rewrite (take_S_r _ _ (pk, xk)) by (rewrite lookup_zip_with, Hpk; cbn; by rewrite Hxk).
    rewrite fmap_app. unfold covR at 2. rewrite foldl_app. cbn [foldl fmap list_fmap fst snd].
    f_equal. rewrite <- list_fmap_compose. apply list_fmap_ext. intros j y _. cbn [compose].
    rewrite <- !list_fmap_compose. apply list_fmap_ext. intros j' x _. cbn [compose]. ring.
Qed.

(** X25: [covariance()] of a distribution with finite masses and locations of
    one dimension, as many as masses: it returns the matrix whose entry
    in row [r] and column [c] is the sum over the locations of the mass
    times the deviations of the components [r] and [c] of the location
    from the components of [mean()]; the matrix is symmetric. *)
Theorem covariance_weighted_sum (d : DiscreteDistribution XReal V) (p : list R)
    (dim : nat) :
  prob_mass d = fin_vec p ->
  length p = length (locations d) ->
  locations d <> [] ->
  Forall (fun x => length x = dim) (locations d) ->
  exists mu cov,
    mean NDEBUG (fun v => Fin (castR v)) d = Returned (fin_vec mu)
    /\ covariance NDEBUG (fun v => Fin (castR v)) d = Returned (fin_mat cov)
    /\ forall r c, (r < dim)%nat -> (c < dim)%nat ->
         entry cov c r
         = Some (Rsum ((fun e : R * list V =>
                          (e.1 * ((nth r (castR <$> e.2) 0 - nth r mu 0)
                                  * (nth c (castR <$> e.2) 0 - nth c mu 0)))%R)
                         <$> zip p (locations d)))
         /\ entry cov c r = entry cov r c.
Proof.
  unfold prob_mass, locations. intros Hp Hlen Hne Hdim.
  set (mu := partial_mean castR dim p (locations_ d) (length p)).
  set (es := (fun e : R * list V => (castR <$> e.2, (e.1, e.1)))
               <$> take (length p) (zip p (locations_ d))).
  pose proof (partial_mean_dims dim p (locations_ d) (length p) Hdim) as Hes.
  assert (Hmu : length mu = dim) by (by apply meanR_length).
  destruct (mean_run d p dim Hp Hlen Hne Hdim) as [Hmean Hdimension].
  exists mu, (covR dim mu es).
  split; [exact Hmean|].
  split.
  { unfold covariance. rewrite Hmean, Hdimension. cbn [obind].
    rewrite Nat2Z.id. unfold size. rewrite <- Hlen.
    by apply covariance_loop. }
  assert (Hentry : forall r c, (r < dim)%nat -> (c < dim)%nat ->
            entry (covR dim mu es) c r
            = Some (Rsum ((fun e : R * list V =>
                             (e.1 * ((nth r (castR <$> e.2) 0 - nth r mu 0)
                                     * (nth c (castR <$> e.2) 0 - nth c mu 0)))%R)
                            <$> zip p (locations_ d)))).
  { intros r c Hr Hc. rewrite covR_entry by done. subst es.
    rewrite take_ge by (rewrite length_zip_with; lia).
    rewrite <- list_fmap_compose. reflexivity. }
  intros r c Hr Hc. split; [by apply Hentry|].
  rewrite !Hentry by done. f_equal. apply Rsum_fmap_ext. intros e _. ring.
Qed.
End DiscreteMean.

(** ** The theorems at concrete inputs *)

Lemma constructed_has_no_mass_witness :
  exists d,
    FLDiscreteDistribution.construct (Real := XReal) false 0%R 2 = Returned d
    /\ FLDiscreteDistribution.size d = 1%Z.
Proof.
  destruct (constructed_has_no_mass (Real := XReal) false 0%R (fun v : R => Fin v) 2)
    as (d & Hrun & Hsize & _).
  - lia.
  - exists d. split; [exact Hrun|exact Hsize].
Defined.

Lemma log_unnormalized_prob_mass_softmax_witness :
  exists d',
    FLDiscreteDistribution.log_unnormalized_prob_mass false (fun _ => [])
      (fin_vec [0%R; 1%R]) empty_distribution = Returned d'
    /\ FLDiscreteDistribution.size d' = 2%Z.
Proof.
  destruct (log_unnormalized_prob_mass_softmax false (fun _ => []) [0%R; 1%R]
              empty_distribution) as (d' & Hrun & _ & _ & Hsize & _).
  - discriminate.
  - exists d'. split; [exact Hrun|exact Hsize].
Defined.

Lemma masses_normalized_witness :
  exists d' p,
    FLDiscreteDistribution.log_unnormalized_prob_mass false (fun _ => [])
      (fin_vec [0%R; 1%R]) empty_distribution = Returned d'
    /\ FLDiscreteDistribution.prob_mass d' = fin_vec p
    /\ Rsum p = 1%R.
Proof.
  destruct (masses_normalized false (fun _ => []) [0%R; 1%R] empty_distribution)
    as (d' & p & Hrun & Hp & _ & _ & Hsum & _).
  - discriminate.
  - exists d', p. split; [exact Hrun|]. split; [exact Hp|exact Hsum].
Defined.

Lemma delta_log_prob_mass_composes_witness :
  (let* d1 := FLDiscreteDistribution.log_unnormalized_prob_mass false (fun _ => [])
                (fin_vec [0%R; 1%R]) empty_distribution in
   FLDiscreteDistribution.delta_log_prob_mass false (fun _ => []) (fin_vec [2%R; 3%R]) d1)
  = FLDiscreteDistribution.log_unnormalized_prob_mass false (fun _ => [])
      (fin_vec (zip_with Rplus [0%R; 1%R] [2%R; 3%R])) empty_distribution.
Proof.
  destruct (delta_log_prob_mass_composes false (fun _ => []) [0%R; 1%R] [2%R; 3%R]
              [0%R; 0%R] empty_distribution) as [Hrun _].
  - reflexivity.
  - reflexivity.
  - exact Hrun.
Defined.

Lemma entropy_bounds_witness :
  exists d' h,
    FLDiscreteDistribution.log_unnormalized_prob_mass false (fun _ => [])
      (fin_vec [0%R; 1%R]) empty_distribution = Returned d'
    /\ FLDiscreteDistribution.entropy false d' = Returned (Fin h)
    /\ (0 <= h)%R.
Proof.
  destruct (entropy_bounds false (fun _ => []) [0%R; 1%R] empty_distribution)
    as (d' & h & Hrun & Hentropy & [Hh _] & _).
  - discriminate.
  - exists d', h. split; [exact Hrun|]. split; [exact Hentropy|exact Hh].
Defined.

Lemma zero_mass_entropy_witness :
  exists d',
    FLDiscreteDistribution.log_unnormalized_prob_mass false (fun _ => [])
      [Fin 0; NInf] empty_distribution = Returned d'
    /\ FLDiscreteDistribution.entropy false d' = Returned NaN.
Proof.
  destruct (zero_mass_entropy false (fun _ => []) [Some 0%R; None] empty_distribution)
    as (d' & Hrun & _ & Hentropy & _).
  - right. left.
  - exists 0%R. left.
  - exists d'. split; [exact Hrun|exact Hentropy].
Defined.

Lemma map_standard_uniform_inverts_witness :
  exists d' v,
    FLDiscreteDistribution.log_unnormalized_prob_mass false (fun i => [INR i])
      (fin_vec [0%R; 1%R]) empty_distribution = Returned d'
    /\ FLDiscreteDistribution.map_standard_uniform false (Fin 1) d' = Returned v.
Proof.
  destruct (map_standard_uniform_inverts false (fun i => [INR i]) [0%R; 1%R]
              empty_distribution 1%R) as ((d' & p & Hrun & _ & Hle & _) & _).
  - discriminate.
  - destruct Hle as (i & v & p_i & Hmap & _); [lra|].
    exists d', v. split; [exact Hrun|exact Hmap].
Defined.

Lemma mean_weighted_sum_witness :
  exists mu,
    FLDiscreteDistribution.mean false (fun v : R => Fin v)
      (mkDiscreteDistribution [[1%R]; [3%R]] [] (fin_vec [/ 2; / 2]%R) [])
    = Returned (fin_vec mu)
    /\ length mu = 1%nat.
Proof.
  destruct (mean_weighted_sum false (fun v : R => v)
              (mkDiscreteDistribution [[1%R]; [3%R]] [] (fin_vec [/ 2; / 2]%R) [])
              [/ 2; / 2]%R 1) as (mu & Hrun & Hlen & _).
  - reflexivity.
  - reflexivity.
  - discriminate.
  - repeat constructor.
  - exists mu. split; [exact Hrun|exact Hlen].
Defined.

Lemma covariance_weighted_sum_witness :
  exists cov,
    FLDiscreteDistribution.covariance false (fun v : R => Fin v)
      (mkDiscreteDistribution [[1%R]; [3%R]] [] (fin_vec [/ 2; / 2]%R) [])
    = Returned (fin_mat cov).
Proof.
  destruct (covariance_weighted_sum false (fun v : R => v)
              (mkDiscreteDistribution [[1%R]; [3%R]] [] (fin_vec [/ 2; / 2]%R) [])
              [/ 2; / 2]%R 1) as (mu & cov & _ & Hrun & _).
  - reflexivity.
  - reflexivity.
  - discriminate.
  - repeat constructor.
  - exists cov. exact Hrun.
Defined.
